(** * chainsignals: segment-based portfolio replay and statistics

    A shallow embedding of the backend's replay engine ([segments.ts]:
    [applySignalTargetPct], [priceAtOrBefore], [extendSegmentsForStrategy],
    [recomputeStatsForStrategy], ...) and, of the ingestion path
    ([syncSignals.ts]), of the direction mapping and of the approximate
    snapshot ([computeApproxSnapshot]).

    Conventions of the embedding.
    - A JavaScript [number] that holds a money amount, a price, a return or a
      weight is an exact rational ([Q]): rounding, overflow and NaN are not
      modelled, so [Number.isFinite] is true of every modelled value and an
      equality "up to floating epsilon" is [==] on [Q].
    - Timestamps, durations in seconds, ids and enum values are integers ([Z]).
    - A JavaScript object used as a dictionary ([Record<string, T>]) is an
      association list with unique keys kept in insertion order, the order
      [Object.keys], [Object.values] and [Object.entries] enumerate
      (keys here are asset symbols, never integer-like).
    - [null] / [undefined] is [None].
    - A SQLite table is the list of its rows in insertion order; each prepared
      statement is a function on that list. A [SELECT] answers in the order
      of its [ORDER BY]; without one, in the order SQLite reads the rows: the
      table's for the scan of all strategies, that of the unique index for
      the holdings of one strategy. *)

From Stdlib Require Import ZArith QArith Qround Qminmax Qabs.
From Stdlib Require Import List String Ascii Bool Lia Lqa.
From Stdlib Require Import Sorted Permutation.
From Equations Require Import Equations.
Import ListNotations.

Local Open Scope string_scope.
Local Open Scope list_scope.
Local Open Scope Z_scope.
Local Open Scope Q_scope.

(** ** Numbers *)

Definition Qltb (x y : Q) : bool := negb (Qle_bool y x).
Definition Qleb (x y : Q) : bool := Qle_bool x y.
Definition Qeqb (x y : Q) : bool := Qeq_bool x y.

(** [Math.max] / [Math.min] on numbers. *)
Definition Qmaxb (x y : Q) : Q := if Qleb x y then y else x.
Definition Qminb (x y : Q) : Q := if Qleb x y then x else y.

(** ** Strings: [String.prototype.toUpperCase] on ASCII symbols *)

Definition upperAscii (c : ascii) : ascii :=
  let n := nat_of_ascii c in
  if ((97 <=? n)%nat && (n <=? 122)%nat)%bool then ascii_of_nat (n - 32) else c.

Fixpoint toUpperCase (s : string) : string :=
  match s with
  | EmptyString => EmptyString
  | String c r => String (upperAscii c) (toUpperCase r)
  end.

(** ** JavaScript objects as ordered dictionaries *)

Module JsObj.
Section Obj.
Context {V : Type}.

Definition t := list (string * V).

(** [o[k]] *)
Fixpoint get (o : t) (k : string) : option V :=
  match o with
  | [] => None
  | (k', v) :: r => if String.eqb k' k then Some v else get r k
  end.

(** [o[k] = v]: an existing key keeps its place, a new key goes last. *)
Fixpoint set (o : t) (k : string) (v : V) : t :=
  match o with
  | [] => [(k, v)]
  | (k', v') :: r =>
      if String.eqb k' k then (k', v) :: r else (k', v') :: set r k v
  end.

(** [delete o[k]] *)
Fixpoint del (o : t) (k : string) : t :=
  match o with
  | [] => []
  | (k', v') :: r =>
      if String.eqb k' k then del r k else (k', v') :: del r k
  end.

Definition keys (o : t) : list string := map fst o.
Definition values (o : t) : list V := map snd o.
Definition entries (o : t) : list (string * V) := o.

(** The shape every object has: no key twice. *)
Definition wf (o : t) : Prop := NoDup (keys o).
End Obj.
Arguments t : clear implicits.
End JsObj.

(** ** Rows and records of [segments.ts] *)

Record PriceRow := mkPriceRow {
  pr_asset_symbol : string;
  pr_timestamp : Z;
  pr_price_usd : Q }.

Record StrategyRow := mkStrategyRow {
  st_id : Z;
  st_trader_address : string;
  st_strategy_name : string;
  st_first_signal_ts : Z;
  st_last_signal_ts : Z;
  st_last_value_index : Q;
  st_last_segment_end_ts : option Z }.

(** [sg_direction]: 0 = Long, 1 = Short (the contract enum as stored). *)
Record SignalRow := mkSignalRow {
  sg_asset_symbol : string;
  sg_direction : Z;
  sg_leverage : Q;
  sg_weight_raw : Q;
  sg_timestamp : Z }.

(** [hd_direction]: -1 short, +1 long, 0 cash. *)
Record HoldingRow := mkHoldingRow {
  hd_asset_symbol : string;
  hd_value : Q;
  hd_direction : Z;
  hd_leverage : Q;
  hd_is_usd : Z }.

Record SegmentRow := mkSegmentRow {
  seg_start_ts : Z;
  seg_end_ts : Z;
  seg_duration_sec : Z;
  seg_raw_return : Q;
  seg_hourly_equiv_ret : Q;
  seg_value_index_end : Q }.

Record PosMeta := mkPosMeta {
  pm_direction : Z;
  pm_leverage : Q;
  pm_isUsd : bool }.

Definition Buckets := JsObj.t Q.
Definition Metas := JsObj.t PosMeta.

(** [SUPPORTED_ASSETS] of [prices.ts]: the own keys of the table. *)
Definition SUPPORTED_ASSETS : list string :=
  ["BTC"; "ETH"; "SOL"; "XRP"; "KAS"; "GOLD"; "SILVER"; "SPX"].

(** Sharpe maturity and minimum data requirements. *)
Definition MIN_SHARPE_OBS : nat := 24.
Definition SHARPE_MATURITY_HOURS : Q := inject_Z (24 * 30).

Definition maturityMultiplier (totalHours : Q) : Q :=
  if Qleb totalHours 0 then 0
  else
    let m := totalHours / SHARPE_MATURITY_HOURS in
    Qmaxb 0 (Qminb 1 m).

Definition clampPct (weightRaw : Q) : Q :=
  let w := Z.max 0 (Z.min 100 (Qfloor weightRaw)) in
  inject_Z w / 100.

(** [Math.max(1, Math.min(5, Math.floor(leverage)))] *)
Definition clampLeverage (leverage : Q) : Q :=
  inject_Z (Z.max 1 (Z.min 5 (Qfloor leverage))).

Definition isUsdAsset (asset : string) : bool :=
  String.eqb (toUpperCase asset) "USD".

Definition isSupportedAsset (asset : string) : bool :=
  let sym := toUpperCase asset in
  isUsdAsset sym || existsb (String.eqb sym) SUPPORTED_ASSETS.

Definition sumBuckets (buckets : Buckets) : Q :=
  fold_left (fun s v => s + v) (JsObj.values buckets) 0.

(** ** Price series and the at-or-before lookup *)

Record PriceSeries := mkPriceSeries {
  ps_ts : list Z;
  ps_px : list Q }.

Definition pushPrice (s : PriceSeries) (row : PriceRow) : PriceSeries :=
  mkPriceSeries (ps_ts s ++ [pr_timestamp row]) (ps_px s ++ [pr_price_usd row]).

Definition buildPriceSeries (priceRows : list PriceRow) : JsObj.t PriceSeries :=
  fold_left
    (fun out row =>
       let sym := toUpperCase (pr_asset_symbol row) in
       let cur := match JsObj.get out sym with
                  | Some s => s
                  | None => mkPriceSeries [] []
                  end in
       JsObj.set out sym (pushPrice cur row))
    priceRows [].

(** The [while (lo <= hi)] loop of [priceAtOrBefore]: the final [best]. An
    index outside the array reads [undefined], and [undefined <= ts] is
    false. *)
Equations? bsearchLoop (ts : list Z) (t : Z) (lo hi best : Z) : Z
  by wf (Z.to_nat (hi - lo + 1)) lt :=
  bsearchLoop ts t lo hi best with Z_le_gt_dec lo hi => {
    | left _ =>
        let mid := Z.shiftr (lo + hi) 1 in
        let le := match nth_error ts (Z.to_nat mid) with
                  | Some x => (0 <=? mid)%Z && (x <=? t)%Z
                  | None => false
                  end in
        if le then bsearchLoop ts t (mid + 1) hi mid
        else bsearchLoop ts t lo (mid - 1) best;
    | right _ => best }.
Proof.
  all: subst mid; rewrite Z.shiftr_div_pow2 by lia; change (2 ^ 1)%Z with 2%Z;
    pose proof (Z.div_mod (lo + hi) 2 ltac:(lia));
    pose proof (Z.mod_pos_bound (lo + hi) 2 ltac:(lia)); lia.
Qed.

Definition priceAtOrBefore (series : option PriceSeries) (ts : Z) : option Q :=
  match series with
  | None => None
  | Some s =>
      if (List.length (ps_ts s) =? 0)%nat then None
      else
        let best := bsearchLoop (ps_ts s) ts 0 (Z.of_nat (List.length (ps_ts s)) - 1) (-1) in
        if (best <? 0)%Z then None
        else
          match nth_error (ps_px s) (Z.to_nat best) with
          | Some p => if Qltb 0 p then Some p else None
          | None => None
          end
  end.

(** ** The target-allocation rebalance *)

Record SignalParams := mkSignalParams {
  p_asset : string;
  p_direction : Z;
  p_leverage : Q;
  p_weight_raw : Q }.

(** [buckets[k] ?? 0] *)
Definition bucketOr0 (buckets : Buckets) (k : string) : Q :=
  match JsObj.get buckets k with
  | Some v => v
  | None => 0
  end.

(** [usd ? 0 : direction === 1 ? -1 : 1] *)
Definition metaDirection (usd : bool) (direction : Z) : Z :=
  if usd then 0%Z else if (direction =? 1)%Z then (-1)%Z else 1%Z.

(** [usd ? 1 : Math.max(1, Math.min(5, Math.floor(leverage)))] *)
Definition metaLeverage (usd : bool) (leverage : Q) : Q :=
  if usd then 1 else clampLeverage leverage.

Definition CASH_META : PosMeta := mkPosMeta 0 1 true.

Definition hasNonUsdExposure (buckets : Buckets) : bool :=
  existsb (fun e => negb (isUsdAsset (fst e)) && Qltb 0 (snd e))
          (JsObj.entries buckets).

Definition isBrandNewSeed (buckets : Buckets) : bool :=
  (List.length (JsObj.keys buckets) =? 1)%nat
  && Qeqb (bucketOr0 buckets "USD") 1
  && negb (hasNonUsdExposure buckets).

(** [for (const k of Object.keys(buckets)) if (k !== asset) delete buckets[k]] *)
Definition keepOnly (asset : string) (buckets : Buckets) : Buckets :=
  filter (fun e => String.eqb (fst e) asset) buckets.

(** [for (const a of Object.keys(buckets)) { if (a === asset) continue;
    buckets[a] *= k }] *)
Definition scaleOthers (asset : string) (k : Q) (buckets : Buckets) : Buckets :=
  map (fun e => if String.eqb (fst e) asset then e else (fst e, snd e * k))
      buckets.

Definition applySignalTargetPct
  (buckets : Buckets) (meta : Metas) (params : SignalParams) : Buckets * Metas :=
  let asset := toUpperCase (p_asset params) in
  if negb (isSupportedAsset asset) then (buckets, meta)
  else
    let usd := isUsdAsset asset in
    let dir := metaDirection usd (p_direction params) in
    let lev := metaLeverage usd (p_leverage params) in
    let meta := JsObj.set meta asset (mkPosMeta dir lev usd) in
    let total := sumBuckets buckets in
    if Qleb total 0 || isBrandNewSeed buckets then
      (keepOnly asset (JsObj.set buckets asset 1), meta)
    else
      let targetPct := clampPct (p_weight_raw params) in
      let current := bucketOr0 buckets asset in
      let otherTotal := total - current in
      let desired := targetPct * total in
      let desiredOtherTotal := total - desired in
      let bm :=
        if Qltb 0 otherTotal then
          (scaleOthers asset (desiredOtherTotal / otherTotal) buckets, meta)
        else if Qltb 0 desiredOtherTotal then
          (JsObj.set buckets "USD" (bucketOr0 buckets "USD" + desiredOtherTotal),
           JsObj.set meta "USD" CASH_META)
        else (buckets, meta) in
      if Qleb desired 0 then (JsObj.del (fst bm) asset, JsObj.del (snd bm) asset)
      else (JsObj.set (fst bm) asset desired, snd bm).

(** Bucket values with their fractions reduced, for reading results. *)
Definition normBuckets (buckets : Buckets) : Buckets :=
  map (fun e => (fst e, Qred (snd e))) buckets.

(** ** Price drift *)

Definition DEFAULT_DRIFT_META : PosMeta := mkPosMeta 1 1 false.

(** One turn of the [for (const [asset, val] of Object.entries(buckets))] loop
    of [drift]. *)
Definition driftEntry
  (series : JsObj.t PriceSeries) (meta : Metas) (t0 t1 : Z)
  (buckets : Buckets) (entry : string * Q) : Buckets :=
  let asset := fst entry in
  let val := snd entry in
  if Qleb val 0 then buckets
  else
    let sym := toUpperCase asset in
    if isUsdAsset sym then buckets
    else
      let s := JsObj.get series sym in
      match priceAtOrBefore s t0, priceAtOrBefore s t1 with
      | Some p0, Some p1 =>
          if Qleb p0 0 then buckets
          else
            let rAsset := (p1 - p0) / p0 in
            let m := match JsObj.get meta sym with
                     | Some m => m
                     | None => DEFAULT_DRIFT_META
                     end in
            let signed := inject_Z (pm_direction m) * pm_leverage m * rAsset in
            let mult := 1 + signed in
            JsObj.set buckets sym (if Qleb mult 0 then 0 else val * mult)
      | _, _ => buckets
      end.

Definition drift
  (series : JsObj.t PriceSeries) (meta : Metas) (t0 t1 : Z)
  (buckets : Buckets) : Buckets :=
  if (t1 <=? t0)%Z then buckets
  else fold_left (driftEntry series meta t0 t1) (JsObj.entries buckets) buckets.

(** ** Position snapshots *)

Record Position := mkPosition {
  pos_asset : string;
  pos_percent : Q;
  pos_direction : string;
  pos_leverage : Q }.

(** The [.map(...)] callback of [recordPositionSnapshot]; [None] is the
    [null] it returns for an unsupported symbol. *)
Definition snapshotPosition
  (meta : Metas) (total : Q) (entry : string * Q) : option Position :=
  let asset := toUpperCase (fst entry) in
  let v := snd entry in
  if negb (isSupportedAsset asset) then None
  else
    let isUsd := isUsdAsset asset in
    let m := match JsObj.get meta asset with
             | Some m => m
             | None => mkPosMeta 0 1 isUsd
             end in
    let direction :=
      if isUsd then "CASH"
      else if (pm_direction m <? 0)%Z then "SHORT" else "LONG" in
    let leverage :=
      if isUsd then 1
      else if Qeqb (pm_leverage m) 0 then 1 else pm_leverage m in
    let percent := (v / total) * 100 in
    Some (mkPosition asset percent direction leverage).

Fixpoint filterNonNull {A : Type} (l : list (option A)) : list A :=
  match l with
  | [] => []
  | Some a :: r => a :: filterNonNull r
  | None :: r => filterNonNull r
  end.

(** The positions [recordPositionSnapshot] serialises, or [None] when it
    returns without writing. *)
Definition snapshotPositions (buckets : Buckets) (meta : Metas)
  : option (list Position) :=
  let total := sumBuckets buckets in
  if Qleb total 0 then None
  else
    let positions :=
      filterNonNull
        (map (snapshotPosition meta total)
             (filter (fun e => Qltb 0 (snd e)) (JsObj.entries buckets))) in
    match positions with
    | [] => None
    | _ => Some positions
    end.

(** ** The persisted store *)

Record SignalDbRow := mkSignalDbRow {
  sdb_trader_address : string;
  sdb_strategy_name : string;
  sdb_signal : SignalRow }.

Record SegmentDbRow := mkSegmentDbRow {
  sgd_strategy_id : Z;
  sgd_segment : SegmentRow }.

Record HoldingDbRow := mkHoldingDbRow {
  hdb_strategy_id : Z;
  hdb_holding : HoldingRow }.

Record SnapshotDbRow := mkSnapshotDbRow {
  sn_strategy_id : Z;
  sn_signal_ts : Z;
  sn_positions_json : list Position }.

Record StatsDbRow := mkStatsDbRow {
  ss_strategy_id : Z;
  ss_window : string;
  ss_last_updated_ts : Z;
  ss_sharpe_annual : option Q;
  ss_vol_annual : option Q;
  ss_vol_hourly : option Q;
  ss_total_return : Q;
  ss_max_drawdown : Q }.

Record Db := mkDb {
  db_prices : list PriceRow;
  db_strategies : list StrategyRow;
  db_signals : list SignalDbRow;
  db_segments : list SegmentDbRow;
  db_holdings : list HoldingDbRow;
  db_snapshots : list SnapshotDbRow;
  db_stats : list StatsDbRow }.

Definition withStrategies (db : Db) (x : list StrategyRow) : Db :=
  mkDb (db_prices db) x (db_signals db) (db_segments db) (db_holdings db)
       (db_snapshots db) (db_stats db).
Definition withSegments (db : Db) (x : list SegmentDbRow) : Db :=
  mkDb (db_prices db) (db_strategies db) (db_signals db) x (db_holdings db)
       (db_snapshots db) (db_stats db).
Definition withHoldings (db : Db) (x : list HoldingDbRow) : Db :=
  mkDb (db_prices db) (db_strategies db) (db_signals db) (db_segments db) x
       (db_snapshots db) (db_stats db).
Definition withSnapshots (db : Db) (x : list SnapshotDbRow) : Db :=
  mkDb (db_prices db) (db_strategies db) (db_signals db) (db_segments db)
       (db_holdings db) x (db_stats db).
Definition withStats (db : Db) (x : list StatsDbRow) : Db :=
  mkDb (db_prices db) (db_strategies db) (db_signals db) (db_segments db)
       (db_holdings db) (db_snapshots db) x.

(** [ORDER BY key ASC]: rows of equal key stay in table order. *)
Fixpoint insertBy {A : Type} (key : A -> Z) (x : A) (l : list A) : list A :=
  match l with
  | [] => [x]
  | y :: r => if (key x <? key y)%Z then x :: y :: r else y :: insertBy key x r
  end.

Definition orderBy {A : Type} (key : A -> Z) (l : list A) : list A :=
  fold_left (fun acc x => insertBy key x acc) l [].

(** [Array.prototype.findIndex]; [None] is -1. *)
Fixpoint findIndex {A : Type} (f : A -> bool) (l : list A) : option nat :=
  match l with
  | [] => None
  | x :: r => if f x then Some O else option_map S (findIndex f r)
  end.

Definition getAllPriceRowsStmt (db : Db) : list PriceRow :=
  orderBy pr_timestamp (db_prices db).

Definition getAllStrategiesStmt (db : Db) : list StrategyRow :=
  db_strategies db.

Definition getSignalsForStrategyStmt (db : Db) (trader name : string)
  : list SignalRow :=
  orderBy sg_timestamp
    (map sdb_signal
       (filter (fun r => String.eqb (sdb_trader_address r) trader
                         && String.eqb (sdb_strategy_name r) name)
               (db_signals db))).

Definition sameSegmentKey (id start_ts end_ts : Z) (r : SegmentDbRow) : bool :=
  (sgd_strategy_id r =? id)%Z
  && (seg_start_ts (sgd_segment r) =? start_ts)%Z
  && (seg_end_ts (sgd_segment r) =? end_ts)%Z.

(** [INSERT OR IGNORE INTO strategy_segments], unique on
    [(strategy_id, start_ts, end_ts)]. *)
Definition insertSegmentStmt (db : Db) (id start_ts end_ts duration_sec : Z)
  (raw_return hourly_equiv_ret value_index_end : Q) : Db :=
  if existsb (sameSegmentKey id start_ts end_ts) (db_segments db) then db
  else
    withSegments db
      (db_segments db
       ++ [mkSegmentDbRow id
             (mkSegmentRow start_ts end_ts duration_sec raw_return
                hourly_equiv_ret value_index_end)]).

(** [UPDATE strategies SET last_value_index = ?, last_segment_end_ts = ?
    WHERE id = ?] *)
Definition updateStrategyAfterSegmentsStmt
  (db : Db) (value_index : Q) (end_ts id : Z) : Db :=
  withStrategies db
    (map (fun s =>
            if (st_id s =? id)%Z then
              mkStrategyRow (st_id s) (st_trader_address s) (st_strategy_name s)
                (st_first_signal_ts s) (st_last_signal_ts s)
                value_index (Some end_ts)
            else s)
         (db_strategies db)).

Definition getSegmentsForStrategyStmt (db : Db) (id : Z) : list SegmentRow :=
  orderBy seg_end_ts
    (map sgd_segment
       (filter (fun r => (sgd_strategy_id r =? id)%Z) (db_segments db))).

(** Rows in ascending order of a text column, compared byte by byte (the
    [BINARY] collation); rows of equal key stay in table order. *)
Fixpoint insertByText {A : Type} (key : A -> string) (x : A) (l : list A)
  : list A :=
  match l with
  | [] => [x]
  | y :: r =>
      if String.ltb (key x) (key y) then x :: y :: r
      else y :: insertByText key x r
  end.

Definition orderByText {A : Type} (key : A -> string) (l : list A) : list A :=
  fold_left (fun acc x => insertByText key x acc) l [].

(** [SELECT ... FROM strategy_holdings WHERE strategy_id = ?] has no
    [ORDER BY]: SQLite answers it from the index of
    [UNIQUE(strategy_id, asset_symbol)], so the strategy's rows come in
    ascending order of [asset_symbol], not in the order they were written. *)
Definition getHoldingsForStrategyStmt (db : Db) (id : Z) : list HoldingRow :=
  orderByText hd_asset_symbol
    (map hdb_holding
       (filter (fun r => (hdb_strategy_id r =? id)%Z) (db_holdings db))).

Definition deleteHoldingsForStrategyStmt (db : Db) (id : Z) : Db :=
  withHoldings db
    (filter (fun r => negb (hdb_strategy_id r =? id)%Z) (db_holdings db)).

(** [INSERT ... ON CONFLICT(key) DO UPDATE]: the row of that key is
    replaced where it stands, a new key is appended. *)
Definition upsertBy {A : Type} (same : A -> bool) (row : A) (l : list A)
  : list A :=
  if existsb same l then map (fun r => if same r then row else r) l
  else l ++ [row].

Definition upsertHoldingStmt (db : Db) (id : Z) (asset : string) (value : Q)
  (direction : Z) (leverage : Q) (is_usd : Z) : Db :=
  withHoldings db
    (upsertBy
       (fun r => (hdb_strategy_id r =? id)%Z
                 && String.eqb (hd_asset_symbol (hdb_holding r)) asset)
       (mkHoldingDbRow id (mkHoldingRow asset value direction leverage is_usd))
       (db_holdings db)).

Definition upsertPositionSnapshotStmt
  (db : Db) (id signal_ts : Z) (positions_json : list Position) : Db :=
  withSnapshots db
    (upsertBy
       (fun r => (sn_strategy_id r =? id)%Z && (sn_signal_ts r =? signal_ts)%Z)
       (mkSnapshotDbRow id signal_ts positions_json)
       (db_snapshots db)).

Definition upsertStatsStmt (db : Db) (row : StatsDbRow) : Db :=
  withStats db
    (upsertBy
       (fun r => (ss_strategy_id r =? ss_strategy_id row)%Z
                 && String.eqb (ss_window r) (ss_window row))
       row (db_stats db)).

(** ** The replay engine: [extendSegmentsForStrategy] *)

(** The mutable locals of one pass: [buckets], [meta], the signals not yet
    applied ([signals] from [sigIdx] on), [valueIndex], and the store. *)
Record Replay := mkReplay {
  rp_buckets : Buckets;
  rp_meta : Metas;
  rp_pending : list SignalRow;
  rp_valueIndex : Q;
  rp_db : Db }.

Definition paramsOfSignal (s : SignalRow) : SignalParams :=
  mkSignalParams (sg_asset_symbol s) (sg_direction s) (sg_leverage s)
                 (sg_weight_raw s).

Definition recordPositionSnapshot
  (id : Z) (buckets : Buckets) (meta : Metas) (signalTs : Z) (db : Db) : Db :=
  match snapshotPositions buckets meta with
  | None => db
  | Some positions => upsertPositionSnapshotStmt db id signalTs positions
  end.

(** [while (sigIdx < signals.length && signals[sigIdx].timestamp === ts)
    { applySignalTargetPct(...); sigIdx++ }] *)
Fixpoint applySignalsAt (ts : Z) (sigs : list SignalRow)
  (buckets : Buckets) (meta : Metas) : Buckets * Metas * list SignalRow :=
  match sigs with
  | [] => (buckets, meta, [])
  | s :: rest =>
      if (sg_timestamp s =? ts)%Z then
        let bm := applySignalTargetPct buckets meta (paramsOfSignal s) in
        applySignalsAt ts rest (fst bm) (snd bm)
      else (buckets, meta, sigs)
  end.

Lemma applySignalsAt_length ts sigs b m :
  (List.length (snd (applySignalsAt ts sigs b m)) <= List.length sigs)%nat.
Proof.
  revert b m. induction sigs as [|s rest IH]; intros b m; simpl; [lia|].
  destruct (sg_timestamp s =? ts)%Z; simpl; [|lia].
  specialize (IH (fst (applySignalTargetPct b m (paramsOfSignal s)))
                 (snd (applySignalTargetPct b m (paramsOfSignal s)))). lia.
Qed.

(** One turn of the pre-loop: the signals sharing the head's timestamp are
    applied, then the snapshot at that timestamp is recorded. *)
Definition dueTurn (id : Z) (s : SignalRow) (rest : list SignalRow)
  (buckets : Buckets) (meta : Metas) (valueIndex : Q) (db : Db) : Replay :=
  let ts := sg_timestamp s in
  let r := applySignalsAt ts (s :: rest) buckets meta in
  let buckets := fst (fst r) in
  let meta := snd (fst r) in
  mkReplay buckets meta (snd r) valueIndex
    (recordPositionSnapshot id buckets meta ts db).

(** The pre-loop of a grid interval: every pending signal with
    [timestamp <= tStart] is applied, with one snapshot per distinct
    timestamp. *)
Equations? applyDueSignals (id tStart : Z) (st : Replay) : Replay
  by wf (List.length (rp_pending st)) lt :=
  applyDueSignals id tStart (mkReplay buckets meta [] valueIndex db) :=
    mkReplay buckets meta [] valueIndex db;
  applyDueSignals id tStart (mkReplay buckets meta (s :: rest) valueIndex db) :=
    if (sg_timestamp s <=? tStart)%Z then
      applyDueSignals id tStart (dueTurn id s rest buckets meta valueIndex db)
    else mkReplay buckets meta (s :: rest) valueIndex db.
Proof.
  unfold dueTurn. simpl. rewrite Z.eqb_refl.
  match goal with
  | |- context [applySignalsAt ?t ?l ?b ?m] =>
      pose proof (applySignalsAt_length t l b m)
  end.
  lia.
Qed.

(** One turn of the intra-interval loop: drift from the cursor to the
    head's timestamp when it is later, apply the signals at that timestamp,
    record the snapshot. Returns the state and the new [cursorTs]. *)
Definition intraTurn (id : Z) (series : JsObj.t PriceSeries) (cursorTs : Z)
  (s : SignalRow) (rest : list SignalRow)
  (buckets : Buckets) (meta : Metas) (valueIndex : Q) (db : Db) : Replay * Z :=
  let sigTs := sg_timestamp s in
  let drifted :=
    if (cursorTs <? sigTs)%Z then drift series meta cursorTs sigTs buckets
    else buckets in
  let cursorTs := if (cursorTs <? sigTs)%Z then sigTs else cursorTs in
  let r := applySignalsAt sigTs (s :: rest) drifted meta in
  let buckets := fst (fst r) in
  let meta := snd (fst r) in
  (mkReplay buckets meta (snd r) valueIndex
     (recordPositionSnapshot id buckets meta sigTs db),
   cursorTs).

(** The intra-interval loop over the signals with [timestamp <= tEnd]. *)
Equations? applyIntraSignals (id tEnd : Z) (series : JsObj.t PriceSeries)
  (cursorTs : Z) (st : Replay) : Replay * Z
  by wf (List.length (rp_pending st)) lt :=
  applyIntraSignals id tEnd series cursorTs
      (mkReplay buckets meta [] valueIndex db) :=
    (mkReplay buckets meta [] valueIndex db, cursorTs);
  applyIntraSignals id tEnd series cursorTs
      (mkReplay buckets meta (s :: rest) valueIndex db) :=
    if (sg_timestamp s <=? tEnd)%Z then
      applyIntraSignals id tEnd series
        (snd (intraTurn id series cursorTs s rest buckets meta valueIndex db))
        (fst (intraTurn id series cursorTs s rest buckets meta valueIndex db))
    else (mkReplay buckets meta (s :: rest) valueIndex db, cursorTs).
Proof.
  unfold intraTurn. simpl. rewrite Z.eqb_refl.
  match goal with
  | |- context [applySignalsAt ?t ?l ?b ?m] =>
      pose proof (applySignalsAt_length t l b m)
  end.
  lia.
Qed.

(** One turn of [for (let k = startIdx; k < allTimestamps.length - 1; k++)]
    on the interval [(tStart, tEnd)]. *)
Definition segmentStep (strat : StrategyRow) (series : JsObj.t PriceSeries)
  (st : Replay) (interval : Z * Z) : Replay :=
  let tStart := fst interval in
  let tEnd := snd interval in
  if (tEnd <=? tStart)%Z then st
  else if (tEnd <=? st_first_signal_ts strat)%Z then st
  else
    let durationSec := (tEnd - tStart)%Z in
    let durationHours := inject_Z durationSec / 3600 in
    let st := applyDueSignals (st_id strat) tStart st in
    let valueIndex := rp_valueIndex st in
    let equityStart := sumBuckets (rp_buckets st) in
    if Qleb equityStart 0 then
      let db := insertSegmentStmt (rp_db st) (st_id strat) tStart tEnd
                  durationSec 0 0 valueIndex in
      let db := updateStrategyAfterSegmentsStmt db valueIndex tEnd (st_id strat) in
      mkReplay (rp_buckets st) (rp_meta st) (rp_pending st) valueIndex db
    else
      let r := applyIntraSignals (st_id strat) tEnd series tStart st in
      let st := fst r in
      let cursorTs := snd r in
      let buckets := drift series (rp_meta st) cursorTs tEnd (rp_buckets st) in
      let equityEnd := sumBuckets buckets in
      let rawReturn := equityEnd / equityStart - 1 in
      let valueIndex := valueIndex * (1 + rawReturn) in
      let hourlyEquiv :=
        if Qltb 0 durationHours then rawReturn / durationHours else 0 in
      let db := insertSegmentStmt (rp_db st) (st_id strat) tStart tEnd
                  durationSec rawReturn hourlyEquiv valueIndex in
      let db := updateStrategyAfterSegmentsStmt db valueIndex tEnd (st_id strat) in
      mkReplay buckets (rp_meta st) (rp_pending st) valueIndex db.

(** The intervals [(allTimestamps[i], allTimestamps[i + 1])],
    [0 <= i < length - 1]. *)
Fixpoint gridIntervals (grid : list Z) : list (Z * Z) :=
  match grid with
  | [] => []
  | t0 :: rest =>
      match rest with
      | [] => []
      | t1 :: _ => (t0, t1) :: gridIntervals rest
      end
  end.

(** Where new segments start: the two [for] loops that set [startIdx];
    [None] is -1. *)
Definition findStartIdx (strat : StrategyRow) (grid : list Z) : option nat :=
  match st_last_segment_end_ts strat with
  | None =>
      match findIndex
              (fun iv => (fst iv <=? st_first_signal_ts strat)%Z
                         && (st_first_signal_ts strat <? snd iv)%Z)
              (gridIntervals grid) with
      | Some i => Some i
      | None => if (2 <=? List.length grid)%nat then Some O else None
      end
  | Some lastSegEnd =>
      findIndex (fun iv => (lastSegEnd <=? fst iv)%Z) (gridIntervals grid)
  end.

(** Resuming: [buckets] and [meta] rebuilt from the persisted holdings. *)
Definition resumeHoldings (rows : list HoldingRow) : Buckets * Metas :=
  fold_left
    (fun bm r =>
       let sym := toUpperCase (hd_asset_symbol r) in
       (JsObj.set (fst bm) sym (hd_value r),
        JsObj.set (snd bm) sym
          (mkPosMeta (hd_direction r) (hd_leverage r)
                     (negb (hd_is_usd r =? 0)%Z))))
    rows ([], []).

(** Resuming: skip the signals up to [lastSegEnd], refreshing [meta]. *)
Fixpoint fastForwardSignals (lastSegEnd : Z) (sigs : list SignalRow)
  (meta : Metas) : Metas * list SignalRow :=
  match sigs with
  | [] => (meta, [])
  | s :: rest =>
      if (sg_timestamp s <=? lastSegEnd)%Z then
        let meta :=
          if isSupportedAsset (sg_asset_symbol s) then
            let asset := toUpperCase (sg_asset_symbol s) in
            let usd := isUsdAsset asset in
            let pct := clampPct (sg_weight_raw s) in
            if Qleb pct 0 then JsObj.del meta asset
            else
              JsObj.set meta asset
                (mkPosMeta (metaDirection usd (sg_direction s))
                           (metaLeverage usd (sg_leverage s)) usd)
          else meta in
        fastForwardSignals lastSegEnd rest meta
      else (meta, sigs)
  end.

(** The final holdings snapshot: delete the strategy's rows, then one
    upsert per bucket of positive value. *)
Definition persistHoldings (id : Z) (buckets : Buckets) (meta : Metas)
  (db : Db) : Db :=
  fold_left
    (fun db e =>
       let asset := fst e in
       let value := snd e in
       if Qleb value 0 then db
       else
         let m := match JsObj.get meta (toUpperCase asset) with
                  | Some m => m
                  | None => mkPosMeta (if isUsdAsset asset then 0 else 1) 1
                                      (isUsdAsset asset)
                  end in
         upsertHoldingStmt db id (toUpperCase asset) value (pm_direction m)
           (pm_leverage m) (if pm_isUsd m then 1 else 0)%Z)
    (JsObj.entries buckets)
    (deleteHoldingsForStrategyStmt db id).

Definition extendSegmentsForStrategy (strat : StrategyRow)
  (allTimestamps : list Z) (assetPriceSeries : JsObj.t PriceSeries) (db : Db)
  : Db :=
  let signals :=
    getSignalsForStrategyStmt db (st_trader_address strat)
                              (st_strategy_name strat) in
  match signals with
  | [] => db
  | _ =>
      let noPriceBeyond :=
        match nth_error allTimestamps (List.length allTimestamps - 1) with
        | Some maxTs => (maxTs <=? st_first_signal_ts strat)%Z
        | None => false
        end in
      if noPriceBeyond then db
      else
        match findStartIdx strat allTimestamps with
        | None => db
        | Some startIdx =>
            let valueIndex :=
              if Qeqb (st_last_value_index strat) 0 then 1
              else st_last_value_index strat in
            let seeded :=
              match st_last_segment_end_ts strat with
              | None => ([("USD", 1)], [("USD", CASH_META)], signals)
              | Some lastSegEnd =>
                  let bm := resumeHoldings
                              (getHoldingsForStrategyStmt db (st_id strat)) in
                  let ff := fastForwardSignals lastSegEnd signals (snd bm) in
                  (fst bm, fst ff, snd ff)
              end in
            let st0 := mkReplay (fst (fst seeded)) (snd (fst seeded))
                                (snd seeded) valueIndex db in
            let st := fold_left (segmentStep strat assetPriceSeries)
                        (skipn startIdx (gridIntervals allTimestamps)) st0 in
            persistHoldings (st_id strat) (rp_buckets st) (rp_meta st) (rp_db st)
        end
  end.

(** Distinct hour-boundary timestamps, ascending ([tsSet], then the sort). *)
Fixpoint insertUniq (x : Z) (l : list Z) : list Z :=
  match l with
  | [] => [x]
  | y :: r =>
      if (x <? y)%Z then x :: y :: r
      else if (x =? y)%Z then y :: r
      else y :: insertUniq x r
  end.

Definition hourlyTimestamps (priceRows : list PriceRow) : list Z :=
  fold_left
    (fun acc row =>
       if (Z.rem (pr_timestamp row) 3600 =? 0)%Z
       then insertUniq (pr_timestamp row) acc else acc)
    priceRows [].

Definition extendAllStrategySegments (db : Db) : Db :=
  let priceRows := getAllPriceRowsStmt db in
  if (List.length priceRows <? 2)%nat then db
  else
    let allHourlyTimestamps := hourlyTimestamps priceRows in
    let assetPriceSeries := buildPriceSeries priceRows in
    fold_left
      (fun db strat =>
         extendSegmentsForStrategy strat allHourlyTimestamps assetPriceSeries db)
      (getAllStrategiesStmt db) db.

(** ** The statistics aggregator: [recomputeStatsForStrategy] *)

(** [seconds = None] is [Infinity] (the ALL window). *)
Record StatWindow := mkStatWindow {
  w_id : string;
  w_seconds : option Z }.

Definition STAT_WINDOWS : list StatWindow :=
  [ mkStatWindow "1W" (Some (7 * 24 * 3600)%Z);
    mkStatWindow "1M" (Some (30 * 24 * 3600)%Z);
    mkStatWindow "3M" (Some (90 * 24 * 3600)%Z);
    mkStatWindow "6M" (Some (180 * 24 * 3600)%Z);
    mkStatWindow "1Y" (Some (365 * 24 * 3600)%Z);
    mkStatWindow "ALL" None ].

(** The loop of [computeMaxDrawdown] over [valueIdx[i0 ..]]. *)
Fixpoint maxDrawdownLoop (vals : list Q) (baseValue peak maxDD : Q) : Q :=
  match vals with
  | [] => maxDD
  | v :: rest =>
      let eq := v / baseValue in
      let peak := if Qltb peak eq then eq else peak in
      let dd := (peak - eq) / peak in
      let maxDD := if Qltb maxDD dd then dd else maxDD in
      maxDrawdownLoop rest baseValue peak maxDD
  end.

Definition computeMaxDrawdown (valueIdx : list Q) (i0 : nat) (baseValue : Q)
  : Q :=
  maxDrawdownLoop (skipn i0 valueIdx) baseValue 1 0.

(** The loop that collects [totalHours] and [windowHourly] over
    [segments[i0 ..]]. *)
Fixpoint collectWindow (segs : list SegmentRow) (totalHours : Q)
  (windowHourly : list Q) : Q * list Q :=
  match segs with
  | [] => (totalHours, windowHourly)
  | s :: rest =>
      let durHr := inject_Z (seg_duration_sec s) / 3600 in
      if Qleb durHr 0 then collectWindow rest totalHours windowHourly
      else collectWindow rest (totalHours + durHr)
             (windowHourly ++ [seg_hourly_equiv_ret s])
  end.

(** First index of the window slice; [None] is the -1 of [findIndex]. *)
Definition windowStart (segments : list SegmentRow) (nowSec : Z)
  (window : StatWindow) : option nat :=
  match w_seconds window with
  | Some seconds =>
      findIndex (fun s => (nowSec - seconds <=? seg_end_ts s)%Z) segments
  | None => Some O
  end.

(** [i0 > 0 ? valueIdx[i0 - 1] : 1.0] *)
Definition windowBaseValue (valueIdx : list Q) (i0 : nat) : Q :=
  if (0 <? i0)%nat then nth (i0 - 1) valueIdx 0 else 1.

Definition sumQ (l : list Q) : Q := fold_left (fun acc x => acc + x) l 0.

Definition sampleVariance (windowHourly : list Q) : Q :=
  let nHr := inject_Z (Z.of_nat (List.length windowHourly)) in
  let meanHr := sumQ windowHourly / nHr in
  fold_left (fun acc x => acc + (x - meanHr) * (x - meanHr)) windowHourly 0
  / (nHr - 1).

Section Stats.
(** [Math.sqrt] and [Math.log], which have no rational values: the
    aggregator is modelled over any two functions in their place. *)
Variable sqrt : Q -> Q.
Variable ln : Q -> Q.

(** The row one turn of [for (const window of STAT_WINDOWS)] upserts. *)
Definition windowStatsRow (strategyId : Z) (segments : list SegmentRow)
  (nowSec : Z) (window : StatWindow) : StatsDbRow :=
  let n := List.length segments in
  let valueIdx := map seg_value_index_end segments in
  let row := mkStatsDbRow strategyId (w_id window) nowSec in
  match windowStart segments nowSec window with
  | None => row None None None 0 0
  | Some i0 =>
      let baseValue := windowBaseValue valueIdx i0 in
      let finalValue := nth (n - 1) valueIdx 0 in
      if Qleb baseValue 0 || Qleb finalValue 0 then row None None None 0 0
      else
        let totalReturn := finalValue / baseValue - 1 in
        let totalLogReturn := ln finalValue - ln baseValue in
        let tw := collectWindow (skipn i0 segments) 0 [] in
        let totalHours := fst tw in
        let windowHourly := snd tw in
        let maxDD := computeMaxDrawdown valueIdx i0 baseValue in
        if Qleb totalHours 0 || (List.length windowHourly <? 2)%nat then
          row None None None totalReturn maxDD
        else
          let mu := totalLogReturn / totalHours in
          let nHr := List.length windowHourly in
          let stdHr := sqrt (sampleVariance windowHourly) in
          if Qeqb stdHr 0 then row None None None totalReturn maxDD
          else
            let sharpeAnnual :=
              if (MIN_SHARPE_OBS <=? nHr)%nat && Qltb 0 stdHr then
                let sharpeHourly := mu / stdHr in
                let sharpeAnnualRaw := sharpeHourly * sqrt 8760 in
                Some (sharpeAnnualRaw * maturityMultiplier totalHours)
              else None in
            let volHourly := stdHr in
            let volAnnual := stdHr * sqrt 8760 in
            row sharpeAnnual (Some volAnnual) (Some volHourly) totalReturn
                maxDD
  end.

Definition recomputeStatsForStrategy (strategyId : Z)
  (segments : list SegmentRow) (nowSec : Z) (db : Db) : Db :=
  match segments with
  | [] => db
  | _ =>
      fold_left
        (fun db window =>
           upsertStatsStmt db (windowStatsRow strategyId segments nowSec window))
        STAT_WINDOWS db
  end.

(** [nowSec] is [Math.floor(Date.now() / 1000)], read once per pass. *)
Definition recomputeAllStrategyStats (nowSec : Z) (db : Db) : Db :=
  fold_left
    (fun db strat =>
       recomputeStatsForStrategy (st_id strat)
         (getSegmentsForStrategyStmt db (st_id strat)) nowSec db)
    (getAllStrategiesStmt db) db.
End Stats.

(** Rational stand-ins for [Math.sqrt] and [Math.log], to run the aggregator
    on examples: the integer square root scaled to six decimals, and the
    first terms of [2 * artanh ((x - 1) / (x + 1))]. *)
Definition sqrtApprox (x : Q) : Q :=
  Z.sqrt (Qnum x * Zpos (Qden x) * 1000000000000) # (Qden x * 1000000).

Definition lnApprox (x : Q) : Q :=
  let z := (x - 1) / (x + 1) in
  Qred (2 * (z + z * z * z / 3 + z * z * z * z * z / 5)).

(** ** The ingestion path: the direction [syncSignals] stores *)

(** [targetRaw === 1 ? 1 : targetRaw === 2 ? 1 : 0] *)
Definition syncSignalDirection (targetRaw : Z) : Z :=
  if (targetRaw =? 1)%Z then 1%Z
  else if (targetRaw =? 2)%Z then 1%Z else 0%Z.

(** The approximate snapshot [syncSignals] writes at a signal's timestamp,
    before the replay reaches it. *)

(** [clampPctRaw] of [syncSignals.ts]. *)
Definition clampPctRaw (w : Q) : Q :=
  let x := Z.max 0 (Z.min 100 (Qfloor w)) in
  inject_Z x / 100.

Record ApproxSignal := mkApproxSignal {
  as_asset : string;
  as_direction : Z;
  as_leverage : Q;
  as_weightRaw : Q }.

(** [Number(x) || 1] *)
Definition orOne (x : Q) : Q := if Qeqb x 0 then 1 else x.

(** [asset === "USD" ? "CASH" : signal.direction === 1 ? "SHORT" : "LONG"] *)
Definition approxDirection (asset : string) (direction : Z) : string :=
  if String.eqb asset "USD" then "CASH"
  else if (direction =? 1)%Z then "SHORT" else "LONG".

(** [asset === "USD" ? 1
     : Math.max(1, Math.min(5, Math.floor(Number(signal.leverage) || 1)))] *)
Definition approxLeverage (asset : string) (leverage : Q) : Q :=
  if String.eqb asset "USD" then 1
  else inject_Z (Z.max 1 (Z.min 5 (Qfloor (orOne leverage)))).

(** The [for (const p of basePositions)] loop that fills [base]. *)
Definition approxBase (basePositions : list Position) : JsObj.t Position :=
  fold_left
    (fun base p =>
       let a := toUpperCase (pos_asset p) in
       let pct := Qmaxb 0 (pos_percent p) in
       if String.eqb a "" || Qleb pct 0 then base
       else JsObj.set base a
              (mkPosition a pct (pos_direction p) (orOne (pos_leverage p))))
    basePositions [].

(** [for (const a of Object.keys(base)) { if (a === asset) continue;
    base[a].percent *= k }] *)
Definition scaleOtherPositions (asset : string) (k : Q)
  (base : JsObj.t Position) : JsObj.t Position :=
  map (fun e =>
         if String.eqb (fst e) asset then e
         else (fst e,
               mkPosition (pos_asset (snd e)) (pos_percent (snd e) * k)
                          (pos_direction (snd e)) (pos_leverage (snd e))))
      base.

(** [for (const p of Object.values(base)) p.percent *= k] *)
Definition scalePositions (k : Q) (base : JsObj.t Position)
  : JsObj.t Position :=
  map (fun e =>
         (fst e,
          mkPosition (pos_asset (snd e)) (pos_percent (snd e) * k)
                     (pos_direction (snd e)) (pos_leverage (snd e))))
      base.

Definition sumPercent (ps : list Position) : Q :=
  fold_left (fun a p => a + pos_percent p) ps 0.

(** [Math.round(x * 1e6) / 1e6] *)
Definition round6 (x : Q) : Q :=
  inject_Z (Qfloor (x * 1000000 + (1 # 2))) / 1000000.

(** [.sort((a, b) => b.percent - a.percent)]: descending, and stable. *)
Fixpoint insertDesc (p : Position) (l : list Position) : list Position :=
  match l with
  | [] => [p]
  | q :: r =>
      if Qltb (pos_percent q) (pos_percent p) then p :: q :: r
      else q :: insertDesc p r
  end.

Definition sortDesc (l : list Position) : list Position :=
  fold_left (fun acc p => insertDesc p acc) l [].

(** [base] as [computeApproxSnapshot] leaves it before it is filtered,
    rounded and sorted (the path past the first-position return). *)
Definition approxAllocation (basePositions : list Position)
  (signal : ApproxSignal) : JsObj.t Position :=
  let asset := toUpperCase (as_asset signal) in
  let targetPct := clampPctRaw (as_weightRaw signal) in
  let base := approxBase basePositions in
  let current := match JsObj.get base asset with
                 | Some p => pos_percent p
                 | None => 0
                 end in
  let otherTotal := 100 - current in
  let desired := targetPct * 100 in
  let desiredOtherTotal := 100 - desired in
  let base :=
    if Qltb 0 otherTotal then
      scaleOtherPositions asset (desiredOtherTotal / otherTotal) base
    else if Qltb 0 desiredOtherTotal then
      JsObj.set base "USD" (mkPosition "USD" desiredOtherTotal "CASH" 1)
    else base in
  let base :=
    if Qleb desired 0 then JsObj.del base asset
    else JsObj.set base asset
           (mkPosition asset desired
              (approxDirection asset (as_direction signal))
              (approxLeverage asset (as_leverage signal))) in
  let sum := sumPercent (JsObj.values base) in
  if Qltb 0 sum then scalePositions (100 / sum) base else base.

Definition computeApproxSnapshot (basePositions : list Position)
  (signal : ApproxSignal) : list Position :=
  let asset := toUpperCase (as_asset signal) in
  let totalPct := sumPercent basePositions in
  let onlyUsd :=
    (List.length basePositions =? 0)%nat
    || forallb (fun p => String.eqb (toUpperCase (pos_asset p)) "USD"
                         || Qleb (pos_percent p) 0)
               basePositions in
  if Qleb totalPct 0 || onlyUsd then
    [mkPosition asset 100 (approxDirection asset (as_direction signal))
                (approxLeverage asset (as_leverage signal))]
  else
    sortDesc
      (map (fun p => mkPosition (pos_asset p) (round6 (pos_percent p))
                                (pos_direction p) (pos_leverage p))
           (filter (fun p => Qltb 0 (pos_percent p))
                   (JsObj.values (approxAllocation basePositions signal)))).

(** * Specification-side definitions *)

(** The rebalance as the specification words it, key by key: what bucket
    [k] holds after a signal sets [asset] to the fraction [pct] of the
    total. [first] decides whether the holdings count as the strategy's
    first position. Past the first position the asset's bucket is [desired],
    or gone when [desired <= 0]; any other bucket is scaled when the others
    total more than zero; and when the others total zero and [desired] falls
    short of the total, the USD bucket is created or augmented with the
    shortfall. That last rule is a rule on the key USD whatever the
    signalled asset: under a USD signal the cash bucket holds the target and
    the shortfall. *)
Definition specRebalanceValue (first : Buckets -> bool) (buckets : Buckets)
  (asset : string) (pct : Q) (k : string) : option Q :=
  if first buckets then
    if String.eqb k asset then Some 1 else None
  else
    let T := sumBuckets buckets in
    let current := bucketOr0 buckets asset in
    let other := T - current in
    let desired := pct * T in
    let desiredOther := T - desired in
    let rebalanced :=
      if String.eqb k asset then
        if Qleb desired 0 then None else Some desired
      else if Qltb 0 other then
        option_map (fun v => v * (desiredOther / other)) (JsObj.get buckets k)
      else JsObj.get buckets k in
    if String.eqb k "USD" && Qeqb other 0 && Qltb 0 desiredOther then
      Some (match rebalanced with Some v => v | None => 0 end + desiredOther)
    else rebalanced.

(** "The seeded 1.0-unit cash bucket with no non-cash exposure". *)
Definition specFirstPosition (buckets : Buckets) : bool :=
  match buckets with
  | [(k, v)] => String.eqb k "USD" && Qeqb v 1
  | _ => false
  end.

(** The first position as the code decides it: also any holdings whose
    total is not positive. *)
Definition flatOrFirstPosition (buckets : Buckets) : bool :=
  Qleb (sumBuckets buckets) 0 || specFirstPosition buckets.

(** A USD signal below 100% on holdings that are past their first position
    and hold nothing but cash: the input on which the code loses the
    shortfall instead of keeping it in the cash bucket (C1). *)
Definition cashTargetOnCash (buckets : Buckets) (asset : string) (pct : Q)
  : Prop :=
  asset = "USD"
  /\ flatOrFirstPosition buckets = false
  /\ sumBuckets buckets - bucketOr0 buckets "USD" <= 0
  /\ pct < 1.

(** Holdings the engine produces: no bucket below zero. *)
Definition nonNegative (buckets : Buckets) : Prop :=
  Forall (fun e => 0 <= snd e) buckets.

(** Keys written through [toUpperCase]. *)
Definition upperKeys {V : Type} (o : JsObj.t V) : Prop :=
  Forall (fun e => toUpperCase (fst e) = fst e) o.

(** [i] is the index of the latest sample of [ts] at or before [t]. *)
Definition latestAtOrBefore (ts : list Z) (t : Z) (i : nat) : Prop :=
  (exists x, nth_error ts i = Some x /\ (x <= t)%Z)
  /\ forall j y, (i < j)%nat -> nth_error ts j = Some y -> (t < y)%Z.

(** The strategy row the store holds for an id. *)
Definition getStrategyById (db : Db) (id : Z) : option StrategyRow :=
  find (fun s => (st_id s =? id)%Z) (db_strategies db).

(** The stats row the store holds for a strategy and a window. *)
Definition getStatsRow (db : Db) (id : Z) (win : string) : option StatsDbRow :=
  find (fun r => (ss_strategy_id r =? id)%Z && String.eqb (ss_window r) win)
       (db_stats db).



(** [clamp(x, 0, 1)] *)
Definition clamp01 (x : Q) : Q := Qmax 0 (Qmin 1 x).

(** Equality of optional numbers up to [==]. *)
Definition optQeq (a b : option Q) : Prop :=
  match a, b with
  | Some x, Some y => x == y
  | None, None => True
  | _, _ => False
  end.

(** ** Definitions used in the statements on the replay and on drift *)

Definition ascending (ts : list Z) : Prop :=
  forall i j x y, (i <= j)%nat ->
    nth_error ts i = Some x -> nth_error ts j = Some y -> (x <= y)%Z.

(** [meta[sym] ?? { direction: 1, leverage: 1, isUsd: false }] *)
Definition driftMeta (meta : Metas) (sym : string) : PosMeta :=
  match JsObj.get meta sym with
  | Some m => m
  | None => DEFAULT_DRIFT_META
  end.

(** The value the drift step writes for a bucket of [sym] holding [val];
    [None] when it leaves the bucket alone. *)
Definition driftedValue (series : JsObj.t PriceSeries) (meta : Metas)
  (t0 t1 : Z) (sym : string) (val : Q) : option Q :=
  if Qleb val 0 then None
  else if isUsdAsset sym then None
  else
    match priceAtOrBefore (JsObj.get series sym) t0,
          priceAtOrBefore (JsObj.get series sym) t1 with
    | Some p0, Some p1 =>
        if Qleb p0 0 then None
        else
          let mult := 1 + inject_Z (pm_direction (driftMeta meta sym))
                          * pm_leverage (driftMeta meta sym)
                          * ((p1 - p0) / p0) in
          Some (if Qleb mult 0 then 0 else val * mult)
    | _, _ => None
    end.

Definition emptyDb : Db := mkDb [] [] [] [] [] [] [].

Definition ALL_WINDOW : StatWindow := mkStatWindow "ALL" None.
Definition WEEK_WINDOW : StatWindow := mkStatWindow "1W" (Some (7 * 24 * 3600)%Z).

(** Hourly segments from [start] with the given returns, compounding the
    value index from [vi]. *)
Fixpoint hourlySegments (start : Z) (rets : list Q) (vi : Q)
  : list SegmentRow :=
  match rets with
  | [] => []
  | r :: rest =>
      let vi' := Qred (vi * (1 + r)) in
      mkSegmentRow start (start + 3600) 3600 r r vi'
      :: hourlySegments (start + 3600) rest vi'
  end.

Fixpoint repeatList {A : Type} (n : nat) (l : list A) : list A :=
  match n with
  | O => []
  | S k => l ++ repeatList k l
  end.

(** A day of alternating +1% and -0.5% hours. *)
Definition dayOfSegments : list SegmentRow :=
  hourlySegments 0 (repeatList 12 [1 # 100; - (1 # 200)]) 1.

(** A day that ends with the loss of all equity. *)
Definition dayEndingInLiquidation : list SegmentRow :=
  hourlySegments 0 (repeatList 23 [0] ++ [- (1)]) 1.

(** A strategy leveraged five times on BTC, whose price falls 30% in the
    first hour, and which signals ETH at 5000. *)
Definition liquidationDb : Db :=
  mkDb
    [ mkPriceRow "BTC" 0 100; mkPriceRow "ETH" 0 10;
      mkPriceRow "BTC" 3600 70; mkPriceRow "ETH" 3600 10;
      mkPriceRow "BTC" 7200 70; mkPriceRow "ETH" 7200 10;
      mkPriceRow "BTC" 10800 70; mkPriceRow "ETH" 10800 11 ]
    [ mkStrategyRow 1 "0xabc" "alpha" 0 5000 1 None ]
    [ mkSignalDbRow "0xabc" "alpha" (mkSignalRow "BTC" 0 5 60 0);
      mkSignalDbRow "0xabc" "alpha" (mkSignalRow "ETH" 0 1 50 5000) ]
    [] [] [] [].

(** A strategy that goes into BTC, leaves for cash after BTC doubled, and
    then signals USD at 40% inside the third hour. *)
Definition cashTargetDb : Db :=
  mkDb
    [ mkPriceRow "BTC" 0 100; mkPriceRow "BTC" 3600 200;
      mkPriceRow "BTC" 7200 200; mkPriceRow "BTC" 10800 200 ]
    [ mkStrategyRow 1 "0xabc" "alpha" 0 9000 1 None ]
    [ mkSignalDbRow "0xabc" "alpha" (mkSignalRow "BTC" 0 1 60 0);
      mkSignalDbRow "0xabc" "alpha" (mkSignalRow "BTC" 0 1 0 3600);
      mkSignalDbRow "0xabc" "alpha" (mkSignalRow "USD" 0 1 40 9000) ]
    [] [] [] [].

(** Reading a result: segments as [(start, end, raw return, value index)]
    and snapshots as [(signal_ts, [(asset, percent)])], fractions reduced. *)
Definition segmentSummary (db : Db) : list (Z * Z * Q * Q) :=
  map (fun r => (seg_start_ts (sgd_segment r), seg_end_ts (sgd_segment r),
                 Qred (seg_raw_return (sgd_segment r)),
                 Qred (seg_value_index_end (sgd_segment r))))
      (db_segments db).

Definition snapshotSummary (db : Db) : list (Z * list (string * Q)) :=
  map (fun r => (sn_signal_ts r,
                 map (fun p => (pos_asset p, Qred (pos_percent p)))
                     (sn_positions_json r)))
      (db_snapshots db).

(** Two stores that differ at most in their position snapshots. *)
Definition sameButSnapshots (a b : Db) : Prop :=
  db_prices a = db_prices b /\ db_strategies a = db_strategies b
  /\ db_signals a = db_signals b /\ db_segments a = db_segments b
  /\ db_holdings a = db_holdings b /\ db_stats a = db_stats b.

(** The rows of the strategy get the new value index and watermark; every
    other row stays. *)
Definition markStrategy (id : Z) (value_index : Q) (end_ts : Z)
  (rows : list StrategyRow) : list StrategyRow :=
  db_strategies
    (updateStrategyAfterSegmentsStmt (withStrategies emptyDb rows)
       value_index end_ts id).

(** One interval that was not skipped: the strategy row is marked with the
    interval's end, and at most the segment of that interval is appended. *)
Definition wroteInterval (id : Z) (iv : Z * Z) (a b : Db) : Prop :=
  (exists vi, db_strategies b = markStrategy id vi (snd iv) (db_strategies a))
  /\ (db_segments b = db_segments a
      \/ exists row,
           db_segments b = db_segments a ++ [mkSegmentDbRow id row]
           /\ seg_start_ts row = fst iv /\ seg_end_ts row = snd iv).

(** The last timestamp of the grid, [allTimestamps[length - 1]]. *)
Definition gridMax (grid : list Z) : option Z :=
  nth_error grid (List.length grid - 1).

(** The cases in which [extendSegmentsForStrategy] returns before its
    transaction. *)
Definition returnsEarly (strat : StrategyRow) (grid : list Z) (db : Db)
  : Prop :=
  getSignalsForStrategyStmt db (st_trader_address strat) (st_strategy_name strat)
  = []
  \/ (exists m, gridMax grid = Some m /\ (m <= st_first_signal_ts strat)%Z)
  \/ findStartIdx strat grid = None.

Definition liquidationStrategy : StrategyRow :=
  mkStrategyRow 1 "0xabc" "alpha" 0 5000 1 None.

(** The strategy row as a second pass over [liquidationDb] reads it. *)
Definition liquidationStrategyReread : StrategyRow :=
  match getStrategyById
          (extendSegmentsForStrategy liquidationStrategy
             (hourlyTimestamps (db_prices liquidationDb))
             (buildPriceSeries (db_prices liquidationDb)) liquidationDb) 1 with
  | Some s => s
  | None => liquidationStrategy
  end.

(** ** Definitions used in the statements of the further properties *)

(** Holdings as the engine keeps them: no key twice, keys in upper case, no
    negative value. *)
Definition validHoldings (buckets : Buckets) : Prop :=
  JsObj.wf buckets /\ upperKeys buckets /\ nonNegative buckets.

(** The price rows of one symbol (compared in upper case), in row order. *)
Definition rowsOfSymbol (sym : string) (rows : list PriceRow) : list PriceRow :=
  filter (fun r => String.eqb (toUpperCase (pr_asset_symbol r)) sym) rows.

(** The series those rows make up; [None] when the symbol has no row. *)
Definition seriesOfRows (rows : list PriceRow) (sym : string)
  : option PriceSeries :=
  match rowsOfSymbol sym rows with
  | [] => None
  | l => Some (mkPriceSeries (map pr_timestamp l) (map pr_price_usd l))
  end.

(** What a signal loop took from the pending signals [sigs], leaving
    [rest]: a prefix stamped at or before [t], up to the first signal stamped
    after [t]. *)
Definition consumedUpTo (t : Z) (sigs rest : list SignalRow) : Prop :=
  exists done,
    sigs = done ++ rest
    /\ Forall (fun s => (sg_timestamp s <= t)%Z) done
    /\ match rest with [] => True | s :: _ => (t < sg_timestamp s)%Z end.

(** A segment row as the replay means it: it spans a real interval that
    ends after the first signal, its duration is that span, it cannot lose
    more than everything, and its hourly return is the raw return spread over
    its hours. *)
Definition wellFormedSegment (firstSignalTs : Z) (r : SegmentRow) : Prop :=
  (seg_start_ts r < seg_end_ts r)%Z
  /\ (firstSignalTs < seg_end_ts r)%Z
  /\ seg_duration_sec r = (seg_end_ts r - seg_start_ts r)%Z
  /\ -1 <= seg_raw_return r
  /\ 0 <= seg_value_index_end r
  /\ seg_hourly_equiv_ret r * (inject_Z (seg_duration_sec r) / 3600)
     == seg_raw_return r.

(** Segment rows that compound a value index from [vi]: each row's index
    is the index before it times one plus the row's raw return. *)
Fixpoint compounds (vi : Q) (rows : list SegmentRow) : Prop :=
  match rows with
  | [] => True
  | r :: rest =>
      seg_value_index_end r == vi * (1 + seg_raw_return r)
      /\ compounds (seg_value_index_end r) rest
  end.

(** The value index after [rows]: that of the last row, [vi] with none. *)
Definition indexAfter (vi : Q) (rows : list SegmentRow) : Q :=
  fold_left (fun _ r => seg_value_index_end r) rows vi.

(** The value index a pass starts from, [strat.last_value_index || 1.0]. *)
Definition startIndex (strat : StrategyRow) : Q :=
  if Qeqb (st_last_value_index strat) 0 then 1 else st_last_value_index strat.

(** Every segment the store holds for the strategy ends at or before the
    strategy's watermark (none is held while there is no watermark). *)
Definition segmentsBehindWatermark (strat : StrategyRow) (db : Db) : Prop :=
  forall r, In r (db_segments db) -> sgd_strategy_id r = st_id strat ->
    exists w, st_last_segment_end_ts strat = Some w
              /\ (seg_end_ts (sgd_segment r) <= w)%Z.

(** What the store holds for the strategy [id']: its row, its segments,
    its holdings, its snapshots. *)
Definition rowsOfStrategy (id' : Z) (db : Db)
  : option StrategyRow * list SegmentDbRow * list HoldingDbRow
    * list SnapshotDbRow :=
  (getStrategyById db id',
   filter (fun r => (sgd_strategy_id r =? id')%Z) (db_segments db),
   filter (fun r => (hdb_strategy_id r =? id')%Z) (db_holdings db),
   filter (fun r => (sn_strategy_id r =? id')%Z) (db_snapshots db)).

(** The shared tables and the rows of the strategy [id'] are the same in
    both stores. *)
Definition untouchedFor (id' : Z) (a b : Db) : Prop :=
  db_prices a = db_prices b /\ db_signals a = db_signals b
  /\ db_stats a = db_stats b /\ rowsOfStrategy id' a = rowsOfStrategy id' b.

(** The parameters persisted with a bucket:
    [meta[asset.toUpperCase()] ?? { direction: isUsdAsset(asset) ? 0 : 1,
    leverage: 1, isUsd: isUsdAsset(asset) }] *)
Definition holdingMeta (meta : Metas) (asset : string) : PosMeta :=
  match JsObj.get meta (toUpperCase asset) with
  | Some m => m
  | None => mkPosMeta (if isUsdAsset asset then 0 else 1) 1 (isUsdAsset asset)
  end.

(** The buckets a pass persists: those of positive value. *)
Definition positiveBuckets (buckets : Buckets) : Buckets :=
  filter (fun e => Qltb 0 (snd e)) buckets.

(** Parameters as a signal writes them: cash has direction 0 and leverage
    1; any other asset is long (1) or short (-1) with a whole leverage from
    1 to 5; and the cash flag is that of the key. *)
Definition validMetaEntry (e : string * PosMeta) : Prop :=
  pm_isUsd (snd e) = isUsdAsset (fst e)
  /\ (pm_isUsd (snd e) = true ->
      pm_direction (snd e) = 0%Z /\ pm_leverage (snd e) = 1)
  /\ (pm_isUsd (snd e) = false ->
      (pm_direction (snd e) = 1%Z \/ pm_direction (snd e) = (-1)%Z)
      /\ exists n, (1 <= n <= 5)%Z /\ pm_leverage (snd e) = inject_Z n).

Definition validMeta (meta : Metas) : Prop := Forall validMetaEntry meta.

(** Every snapshot row of [b] is a row of [a] or was written for the
    strategy [id] at the timestamp of one of [sigs], with positive
    percentages only. *)
Definition snapshotsFrom (id : Z) (sigs : list SignalRow) (a b : Db) : Prop :=
  forall r, In r (db_snapshots b) ->
    In r (db_snapshots a)
    \/ (sn_strategy_id r = id
        /\ (exists s, In s sigs /\ sg_timestamp s = sn_signal_ts r)
        /\ Forall (fun p => 0 < pos_percent p) (sn_positions_json r)).

(** Intervals that follow one another without a gap: each starts where the
    one before it ended. *)
Fixpoint contiguous (l : list (Z * Z)) : Prop :=
  match l with
  | [] => True
  | a :: r =>
      match r with
      | [] => True
      | b :: _ => snd a = fst b /\ contiguous r
      end
  end.

(** The interval a segment row covers. *)
Definition segmentInterval (r : SegmentDbRow) : Z * Z :=
  (seg_start_ts (sgd_segment r), seg_end_ts (sgd_segment r)).

(** The percentages of positions kept by asset, as buckets. *)
Definition percentBuckets (o : JsObj.t Position) : Buckets :=
  map (fun e => (fst e, pos_percent (snd e))) o.

(** Base positions as a snapshot holds them: one position per asset, named
    in upper case, of positive share, the shares adding up to 100. *)
Definition normalisedPositions (ps : list Position) : Prop :=
  NoDup (map pos_asset ps)
  /\ Forall (fun p => toUpperCase (pos_asset p) = pos_asset p
                      /\ pos_asset p <> ""
                      /\ 0 < pos_percent p) ps
  /\ sumPercent ps == 100.

(** Some position is not cash. *)
Definition holdsNonCash (ps : list Position) : bool :=
  existsb (fun p => negb (String.eqb (pos_asset p) "USD")) ps.

(** * Running the model *)

Example priceAtOrBefore_ex :
  priceAtOrBefore (Some (mkPriceSeries [0; 3600; 7200]%Z [100; 70; 80])) 5000
  = Some 70.
Proof. vm_compute. reflexivity. Qed.

Example applySignal_first_ex :
  normBuckets (fst (applySignalTargetPct [("USD", 1)] [("USD", CASH_META)]
                      (mkSignalParams "BTC" 0 1 60)))
  = [("BTC", 1)].
Proof. vm_compute. reflexivity. Qed.

Example applySignal_second_ex :
  normBuckets (fst (applySignalTargetPct [("BTC", 1)] []
                      (mkSignalParams "eth" 0 2 40)))
  = [("BTC", 3 # 5); ("ETH", 2 # 5)].
Proof. vm_compute. reflexivity. Qed.

Example drift_floor_ex :
  normBuckets
    (drift [("BTC", mkPriceSeries [0; 3600]%Z [100; 70])]
           [("BTC", mkPosMeta 1 5 false)] 0 3600 [("BTC", 1); ("USD", 1 # 2)])
  = [("BTC", 0); ("USD", 1 # 2)].
Proof. vm_compute. reflexivity. Qed.

(** * Basic facts *)

Lemma Qleb_le x y : Qleb x y = true <-> x <= y.
Proof. apply Qle_bool_iff. Qed.

Lemma Qleb_gt x y : Qleb x y = false <-> y < x.
Proof.
  unfold Qleb. split; intro H.
  - apply Qnot_le_lt. intro Hle. apply Qle_bool_iff in Hle. congruence.
  - destruct (Qle_bool x y) eqn:E; [|reflexivity].
    apply Qle_bool_iff in E. exfalso. exact (Qlt_not_le _ _ H E).
Qed.

Lemma Qltb_lt x y : Qltb x y = true <-> x < y.
Proof.
  unfold Qltb. rewrite negb_true_iff. apply (Qleb_gt y x).
Qed.

Lemma Qltb_ge x y : Qltb x y = false <-> y <= x.
Proof.
  unfold Qltb. rewrite negb_false_iff. apply (Qleb_le y x).
Qed.

Lemma Qeqb_eq x y : Qeqb x y = true <-> x == y.
Proof. apply Qeq_bool_iff. Qed.

Lemma upperAscii_idem c : upperAscii (upperAscii c) = upperAscii c.
Proof. destruct c as [[] [] [] [] [] [] [] []]; reflexivity. Qed.

Lemma toUpperCase_idem s : toUpperCase (toUpperCase s) = toUpperCase s.
Proof.
  induction s as [|c r IH]; simpl; [reflexivity|].
  now rewrite upperAscii_idem, IH.
Qed.

Module JsObjFacts.
Section Facts.
Context {V : Type}.
Implicit Types (o : JsObj.t V) (k : string) (v : V).

Lemma get_set_same o k v : JsObj.get (JsObj.set o k v) k = Some v.
Proof.
  induction o as [|[k' v'] r IH]; simpl.
  - now rewrite String.eqb_refl.
  - destruct (String.eqb k' k) eqn:E; simpl; rewrite E; auto.
Qed.

Lemma get_set_other o k k' v :
  k' <> k -> JsObj.get (JsObj.set o k v) k' = JsObj.get o k'.
Proof.
  intros Hne. induction o as [|[k0 v0] r IH]; simpl.
  - destruct (String.eqb k k') eqn:E; [|reflexivity].
    apply String.eqb_eq in E. congruence.
  - destruct (String.eqb k0 k) eqn:E; simpl.
    + destruct (String.eqb k0 k') eqn:E'; [|reflexivity].
      apply String.eqb_eq in E, E'. congruence.
    + now rewrite IH.
Qed.

Lemma get_del_same o k : JsObj.get (JsObj.del o k) k = None.
Proof.
  induction o as [|[k0 v0] r IH]; simpl; [reflexivity|].
  destruct (String.eqb k0 k) eqn:E; simpl; [assumption|now rewrite E].
Qed.

Lemma get_del_other o k k' :
  k' <> k -> JsObj.get (JsObj.del o k) k' = JsObj.get o k'.
Proof.
  intros Hne. induction o as [|[k0 v0] r IH]; simpl; [reflexivity|].
  destruct (String.eqb k0 k) eqn:E; simpl.
  - destruct (String.eqb k0 k') eqn:E'; [|assumption].
    apply String.eqb_eq in E, E'. congruence.
  - now rewrite IH.
Qed.

Lemma get_In o k v : JsObj.get o k = Some v -> In (k, v) o.
Proof.
  induction o as [|[k0 v0] r IH]; simpl; [discriminate|].
  destruct (String.eqb k0 k) eqn:E.
  - apply String.eqb_eq in E. intros [= ->]. subst. now left.
  - intros H. right. auto.
Qed.

Lemma get_notin o k : ~ In k (JsObj.keys o) -> JsObj.get o k = None.
Proof.
  induction o as [|[k0 v0] r IH]; simpl; [reflexivity|].
  intros Hn. destruct (String.eqb k0 k) eqn:E.
  - apply String.eqb_eq in E. tauto.
  - apply IH. tauto.
Qed.

Lemma In_get o k v : JsObj.wf o -> In (k, v) o -> JsObj.get o k = Some v.
Proof.
  unfold JsObj.wf. induction o as [|[k0 v0] r IH]; simpl; [tauto|].
  intros Hnd [H|H].
  - injection H as -> ->. now rewrite String.eqb_refl.
  - inversion Hnd as [|? ? Hnotin Hnd']; subst.
    destruct (String.eqb k0 k) eqn:E; [|auto].
    apply String.eqb_eq in E. subst. exfalso. apply Hnotin.
    change k with (fst (k, v)). now apply in_map.
Qed.
End Facts.
End JsObjFacts.

(** * The direction of a signal (C8) *)

Lemma isUsdAsset_upper asset :
  isUsdAsset (toUpperCase asset) = String.eqb (toUpperCase asset) "USD".
Proof. unfold isUsdAsset. now rewrite toUpperCase_idem. Qed.

(** The meta entry [applySignalTargetPct] leaves for the signalled asset,
    when it leaves one, carries the direction and leverage of the signal. *)
Lemma applySignalTargetPct_meta buckets meta params pm :
  isSupportedAsset (toUpperCase (p_asset params)) = true ->
  JsObj.get (snd (applySignalTargetPct buckets meta params))
            (toUpperCase (p_asset params)) = Some pm ->
  let usd := isUsdAsset (toUpperCase (p_asset params)) in
  pm = mkPosMeta (metaDirection usd (p_direction params))
                 (metaLeverage usd (p_leverage params)) usd.
Proof.
  intros Hsup. unfold applySignalTargetPct. rewrite Hsup. cbn [negb].
  set (asset := toUpperCase (p_asset params)).
  set (usd := isUsdAsset asset).
  set (X := mkPosMeta _ _ usd).
  destruct (Qleb (sumBuckets buckets) 0 || isBrandNewSeed buckets).
  - cbn [snd]. rewrite JsObjFacts.get_set_same. now intros [= <-].
  - cbv zeta.
    destruct (Qleb (clampPct (p_weight_raw params) * sumBuckets buckets) 0).
    + cbn [snd]. rewrite JsObjFacts.get_del_same. discriminate.
    + cbn [snd].
      destruct (Qltb 0 (sumBuckets buckets - bucketOr0 buckets asset)).
      * cbn [snd]. rewrite JsObjFacts.get_set_same. now intros [= <-].
      * destruct (Qltb 0 _); cbn [snd].
        -- destruct (String.eqb asset "USD") eqn:E.
           ++ apply String.eqb_eq in E.
              assert (Hu : usd = true).
              { subst usd. unfold asset in *. rewrite isUsdAsset_upper, E.
                reflexivity. }
              clearbody usd asset.
              rewrite <- E. rewrite JsObjFacts.get_set_same.
              intros [= <-]. subst X. rewrite Hu. reflexivity.
           ++ apply String.eqb_neq in E.
              rewrite JsObjFacts.get_set_other by assumption.
              rewrite JsObjFacts.get_set_same. now intros [= <-].
        -- rewrite JsObjFacts.get_set_same. now intros [= <-].
Qed.

(** C8 (as amended): the ingestion path stores Short (1) for the contract
    values 1 and 2 and Long (0) for any other; the replay rebalance reads a
    stored 1 as Short (-1) and any other stored value as Long (+1), and gives
    a USD signal direction 0. So a signal of contract value 1 or 2 is applied
    Short and any other Long. *)
Theorem direction_from_contract_enum
  (targetRaw : Z) (buckets : Buckets) (meta : Metas) (asset : string)
  (leverage weight : Q) (pm : PosMeta) :
  isSupportedAsset (toUpperCase asset) = true ->
  JsObj.get
    (snd (applySignalTargetPct buckets meta
            (mkSignalParams asset (syncSignalDirection targetRaw) leverage
                            weight)))
    (toUpperCase asset) = Some pm ->
  syncSignalDirection targetRaw
  = (if (targetRaw =? 1) || (targetRaw =? 2) then 1 else 0)%Z
  /\ pm_direction pm
     = (if isUsdAsset (toUpperCase asset) then 0
        else if (targetRaw =? 1) || (targetRaw =? 2) then -1 else 1)%Z.
Proof.
  intros Hsup Hget.
  apply applySignalTargetPct_meta in Hget; [|exact Hsup].
  cbn [p_asset p_direction p_leverage] in Hget. subst pm. cbn [pm_direction].
  unfold syncSignalDirection, metaDirection.
  destruct (isUsdAsset (toUpperCase asset));
    destruct (targetRaw =? 1)%Z; destruct (targetRaw =? 2)%Z; auto.
Qed.

Lemma direction_from_contract_enum_witness :
  syncSignalDirection 2 = 1%Z
  /\ pm_direction (mkPosMeta (-1) 3 false) = (-1)%Z.
Proof.
  exact (direction_from_contract_enum 2 [("USD", 1)] [("USD", CASH_META)]
           "btc" 3 50 (mkPosMeta (-1) 3 false) eq_refl eq_refl).
Defined.

(** C8 as stated fails at the contract value 2: the ingestion path stores it
    as Short (1), while "any value other than 1 is Long" would store 0, which
    is also what the replay mapping makes of a raw 2. *)
Lemma direction_enum_two_is_short :
  syncSignalDirection 2 = 1%Z
  /\ (if (2 =? 1)%Z then 1%Z else 0%Z) = 0%Z
  /\ metaDirection false 2 = 1%Z
  /\ metaDirection false (syncSignalDirection 2) = (-1)%Z.
Proof. repeat split. Qed.

(** * The rebalance, key by key (C2) *)

Lemma get_scaleOthers asset c (buckets : Buckets) k :
  JsObj.get (scaleOthers asset c buckets) k
  = if String.eqb k asset then JsObj.get buckets k
    else option_map (fun v => v * c) (JsObj.get buckets k).
Proof.
  induction buckets as [|[k0 v0] r IH]; simpl.
  - now destruct (String.eqb k asset).
  - destruct (String.eqb k0 asset) eqn:Ea; simpl;
      destruct (String.eqb k0 k) eqn:Ek; simpl; try assumption.
    + apply String.eqb_eq in Ea, Ek. subst.
      now rewrite String.eqb_refl.
    + destruct (String.eqb k asset) eqn:Eka; [|reflexivity].
      apply String.eqb_eq in Ek, Eka. subst.
      rewrite String.eqb_refl in Ea. discriminate.
Qed.

Lemma get_keepOnly asset (buckets : Buckets) k :
  JsObj.get (keepOnly asset buckets) k
  = if String.eqb k asset then JsObj.get buckets k else None.
Proof.
  induction buckets as [|[k0 v0] r IH]; simpl.
  - now destruct (String.eqb k asset).
  - destruct (String.eqb k0 asset) eqn:Ea; simpl.
    + destruct (String.eqb k0 k) eqn:Ek; [|assumption].
      apply String.eqb_eq in Ea, Ek. subst. now rewrite String.eqb_refl.
    + rewrite IH. destruct (String.eqb k asset) eqn:Eka; [|reflexivity].
      destruct (String.eqb k0 k) eqn:Ek; [|reflexivity].
      apply String.eqb_eq in Ek, Eka. subst.
      rewrite String.eqb_refl in Ea. discriminate.
Qed.

Lemma isBrandNewSeed_spec buckets :
  isBrandNewSeed buckets = specFirstPosition buckets.
Proof.
  unfold isBrandNewSeed, specFirstPosition, hasNonUsdExposure, bucketOr0.
  destruct buckets as [|[k v] [|e r]]; try reflexivity.
  cbn [JsObj.keys map List.length Nat.eqb JsObj.get JsObj.entries existsb fst
       snd andb].
  destruct (String.eqb k "USD") eqn:E.
  - apply String.eqb_eq in E. subst k. cbn. now rewrite andb_true_r.
  - reflexivity.
Qed.

(** The total exceeds no bucket the lookup returns when no value is
    negative. *)
Lemma fold_sum_acc (l : list Q) (a : Q) :
  fold_left (fun s v => s + v) l a == a + fold_left (fun s v => s + v) l 0.
Proof.
  revert a. induction l as [|x r IH]; intros a; simpl.
  - ring.
  - rewrite (IH (a + x)), (IH (0 + x)). ring.
Qed.

Lemma sumBuckets_cons k v (r : Buckets) :
  sumBuckets ((k, v) :: r) == v + sumBuckets r.
Proof.
  unfold sumBuckets. simpl. rewrite fold_sum_acc. ring.
Qed.

Lemma sumBuckets_nonneg buckets : nonNegative buckets -> 0 <= sumBuckets buckets.
Proof.
  induction 1 as [|[k v] r Hv _ IH].
  - unfold sumBuckets. simpl. apply Qle_refl.
  - rewrite sumBuckets_cons. simpl in Hv. lra.
Qed.

Lemma bucketOr0_le_sum buckets k :
  nonNegative buckets -> bucketOr0 buckets k <= sumBuckets buckets.
Proof.
  unfold bucketOr0.
  induction 1 as [|[k0 v0] r Hv Hr IH]; simpl.
  - unfold sumBuckets. simpl. apply Qle_refl.
  - rewrite sumBuckets_cons. simpl in Hv.
    pose proof (sumBuckets_nonneg r Hr).
    destruct (String.eqb k0 k); lra.
Qed.

Lemma get_set (o : Buckets) k k' v :
  JsObj.get (JsObj.set o k v) k'
  = if String.eqb k' k then Some v else JsObj.get o k'.
Proof.
  destruct (String.eqb k' k) eqn:E.
  - apply String.eqb_eq in E. subst. apply JsObjFacts.get_set_same.
  - apply String.eqb_neq in E. now apply JsObjFacts.get_set_other.
Qed.

Lemma get_del (o : Buckets) k k' :
  JsObj.get (JsObj.del o k) k'
  = if String.eqb k' k then None else JsObj.get o k'.
Proof.
  destruct (String.eqb k' k) eqn:E.
  - apply String.eqb_eq in E. subst. apply JsObjFacts.get_del_same.
  - apply String.eqb_neq in E. now apply JsObjFacts.get_del_other.
Qed.

(** Past the first position the total is positive, and on it a target below
    100% leaves a shortfall. *)
Lemma shortfall_below_full (T pct : Q) :
  0 < T -> (0 < T - pct * T <-> pct < 1).
Proof.
  intros HT. split; intros H.
  - destruct (Qlt_le_dec pct 1) as [Hlt|Hge]; [exact Hlt|exfalso].
    assert (Hm : 1 * T <= pct * T)
      by (apply Qmult_le_compat_r; [exact Hge|now apply Qlt_le_weak]).
    lra.
  - assert (Hm : 0 < (1 - pct) * T) by (apply Qmult_lt_0_compat; lra).
    lra.
Qed.

Lemma applySignalTargetPct_get buckets meta params k :
  isSupportedAsset (toUpperCase (p_asset params)) = true ->
  nonNegative buckets ->
  ~ cashTargetOnCash buckets (toUpperCase (p_asset params))
      (clampPct (p_weight_raw params)) ->
  JsObj.get (fst (applySignalTargetPct buckets meta params)) k
  = specRebalanceValue flatOrFirstPosition buckets
      (toUpperCase (p_asset params)) (clampPct (p_weight_raw params)) k.
Proof.
  intros Hsup Hnn Hout.
  unfold cashTargetOnCash in Hout.
  unfold applySignalTargetPct, specRebalanceValue.
  unfold flatOrFirstPosition in *.
  rewrite Hsup, isBrandNewSeed_spec. cbn [negb].
  set (asset := toUpperCase (p_asset params)) in *.
  set (pct := clampPct (p_weight_raw params)) in *.
  destruct (Qleb (sumBuckets buckets) 0 || specFirstPosition buckets) eqn:Eflat.
  - cbn [fst]. rewrite get_keepOnly, get_set.
    now destruct (String.eqb k asset).
  - cbv zeta.
    apply orb_false_iff in Eflat. destruct Eflat as [HT _].
    apply Qleb_gt in HT.
    pose proof (bucketOr0_le_sum buckets asset Hnn) as Hle.
    set (other := sumBuckets buckets - bucketOr0 buckets asset) in *.
    set (desired := pct * sumBuckets buckets).
    set (desiredOther := sumBuckets buckets - desired).
    assert (Hother : Qltb 0 other = false -> Qeqb other 0 = true).
    { intros H. apply Qltb_ge in H. apply Qeqb_eq. subst other. lra. }
    assert (Hpos : Qltb 0 other = true -> Qeqb other 0 = false).
    { intros H. apply Qltb_lt in H. destruct (Qeqb other 0) eqn:E; [|reflexivity].
      apply Qeqb_eq in E. lra. }
    destruct (String.eqb k asset) eqn:Ek.
    + assert (Hno : String.eqb k "USD" && Qeqb other 0 && Qltb 0 desiredOther
                    = false).
      { destruct (String.eqb k "USD" && Qeqb other 0 && Qltb 0 desiredOther)
          eqn:E; [exfalso|reflexivity].
        apply andb_true_iff in E. destruct E as [E Hd].
        apply andb_true_iff in E. destruct E as [Hk Ho].
        apply String.eqb_eq in Ek, Hk. apply Qeqb_eq in Ho.
        apply Qltb_lt in Hd. apply Hout.
        split; [congruence|]. split; [reflexivity|].
        assert (Ea : asset = "USD") by congruence.
        split.
        - rewrite <- Ea. fold other. lra.
        - apply (shortfall_below_full (sumBuckets buckets) pct HT).
          exact Hd. }
      rewrite Hno.
      destruct (Qleb desired 0); cbn [fst].
      * now rewrite get_del, Ek.
      * now rewrite get_set, Ek.
    + set (bm := if Qltb 0 other then _ else _).
      assert (Hbm :
        JsObj.get (fst bm) k
        = if String.eqb k "USD" && Qeqb other 0 && Qltb 0 desiredOther
          then Some (match
                       (if Qltb 0 other
                        then option_map (fun v => v * (desiredOther / other))
                                        (JsObj.get buckets k)
                        else JsObj.get buckets k)
                     with Some v => v | None => 0 end + desiredOther)
          else if Qltb 0 other
               then option_map (fun v => v * (desiredOther / other))
                               (JsObj.get buckets k)
               else JsObj.get buckets k).
      { subst bm. destruct (Qltb 0 other) eqn:Eo; cbn [fst].
        - rewrite (Hpos eq_refl), andb_false_r. cbn [andb].
          now rewrite get_scaleOthers, Ek.
        - rewrite (Hother eq_refl), andb_true_r.
          destruct (Qltb 0 desiredOther); cbn [fst].
          + rewrite get_set, andb_true_r.
            destruct (String.eqb k "USD") eqn:Eu; [|reflexivity].
            apply String.eqb_eq in Eu. subst k. reflexivity.
          + now rewrite andb_false_r. }
      clearbody bm. destruct (Qleb desired 0); cbn [fst].
      * rewrite get_del, Ek. exact Hbm.
      * rewrite get_set, Ek. exact Hbm.
Qed.

(** On the input left out, the code's USD bucket holds [desired] without
    the shortfall, or is deleted: it is not the bucket of the worded rule. *)
Lemma applySignalTargetPct_cash_on_cash buckets meta params :
  nonNegative buckets ->
  cashTargetOnCash buckets (toUpperCase (p_asset params))
    (clampPct (p_weight_raw params)) ->
  JsObj.get (fst (applySignalTargetPct buckets meta params)) "USD"
  = (if Qleb (clampPct (p_weight_raw params) * sumBuckets buckets) 0
     then None
     else Some (clampPct (p_weight_raw params) * sumBuckets buckets))
  /\ ~ optQeq
        (JsObj.get (fst (applySignalTargetPct buckets meta params)) "USD")
        (specRebalanceValue flatOrFirstPosition buckets
           (toUpperCase (p_asset params)) (clampPct (p_weight_raw params))
           "USD").
Proof.
  intros Hnn (Ha & Hflat & Ho & Hp).
  unfold applySignalTargetPct, specRebalanceValue.
  rewrite Ha, Hflat.
  unfold flatOrFirstPosition in Hflat. rewrite <- isBrandNewSeed_spec in Hflat.
  rewrite Hflat.
  change (isSupportedAsset "USD") with true. cbn [negb]. cbv zeta.
  apply orb_false_iff in Hflat. destruct Hflat as [HT _].
  apply Qleb_gt in HT.
  set (pct := clampPct (p_weight_raw params)) in *.
  pose proof (proj2 (shortfall_below_full (sumBuckets buckets) pct HT) Hp)
    as Hd.
  pose proof (bucketOr0_le_sum buckets "USD" Hnn) as Hle.
  assert (E1 : Qltb 0 (sumBuckets buckets - bucketOr0 buckets "USD") = false)
    by now apply Qltb_ge.
  assert (E2 : Qeqb (sumBuckets buckets - bucketOr0 buckets "USD") 0 = true)
    by (apply Qeqb_eq; lra).
  assert (E3 : Qltb 0 (sumBuckets buckets - pct * sumBuckets buckets) = true)
    by now apply Qltb_lt.
  rewrite E1, E2, E3. cbn [String.eqb Ascii.eqb Bool.eqb andb fst].
  destruct (Qleb (pct * sumBuckets buckets) 0) eqn:E4; cbn [fst].
  - rewrite get_del. cbn [String.eqb Ascii.eqb Bool.eqb].
    split; [reflexivity|exact (fun H => H)].
  - rewrite get_set. cbn [String.eqb Ascii.eqb Bool.eqb optQeq].
    split; [reflexivity|lra].
Qed.

(** C2 (as amended): whenever the holdings are the seeded cash bucket or
    their total is not positive, the target percentage is ignored and the
    result is the single bucket [asset = 1.0]; otherwise the asset's bucket
    is [desired = p/100 * T], deleted when [desired <= 0], every other bucket
    is scaled by [(T - desired) / (T - current)] when [T - current > 0], and
    a USD bucket takes the shortfall when the other buckets total zero. This
    holds on holdings with no negative bucket for every supported signal but
    one: a USD signal below 100% on holdings past their first position that
    hold nothing but cash. There (second part) the code's USD bucket ends at
    [desired], or is deleted when [desired <= 0], and is not the bucket the
    rule gives. [{BTC: 1.0}] and a signal [{ETH, weight 40}] give
    [{BTC: 0.6, ETH: 0.4}]. *)
Theorem applySignalTargetPct_implements_rebalance :
  (forall buckets meta params k,
      isSupportedAsset (toUpperCase (p_asset params)) = true ->
      nonNegative buckets ->
      ~ cashTargetOnCash buckets (toUpperCase (p_asset params))
          (clampPct (p_weight_raw params)) ->
      JsObj.get (fst (applySignalTargetPct buckets meta params)) k
      = specRebalanceValue flatOrFirstPosition buckets
          (toUpperCase (p_asset params)) (clampPct (p_weight_raw params)) k)
  /\ (forall buckets meta params,
        nonNegative buckets ->
        cashTargetOnCash buckets (toUpperCase (p_asset params))
          (clampPct (p_weight_raw params)) ->
        JsObj.get (fst (applySignalTargetPct buckets meta params)) "USD"
        = (if Qleb (clampPct (p_weight_raw params) * sumBuckets buckets) 0
           then None
           else Some (clampPct (p_weight_raw params) * sumBuckets buckets))
        /\ ~ optQeq
              (JsObj.get (fst (applySignalTargetPct buckets meta params))
                 "USD")
              (specRebalanceValue flatOrFirstPosition buckets
                 (toUpperCase (p_asset params))
                 (clampPct (p_weight_raw params)) "USD"))
  /\ normBuckets
       (fst (applySignalTargetPct [("BTC", 1)] [("BTC", mkPosMeta 1 1 false)]
               (mkSignalParams "ETH" 0 2 40)))
     = [("BTC", 3 # 5); ("ETH", 2 # 5)].
Proof.
  split; [|split].
  - exact applySignalTargetPct_get.
  - exact applySignalTargetPct_cash_on_cash.
  - vm_compute. reflexivity.
Qed.

Lemma applySignalTargetPct_implements_rebalance_witness :
  JsObj.get
    (fst (applySignalTargetPct [("BTC", 6 # 5); ("SOL", 0)]
            [("BTC", mkPosMeta 1 1 false)] (mkSignalParams "btc" 1 3 25)))
    "USD"
  = specRebalanceValue flatOrFirstPosition [("BTC", 6 # 5); ("SOL", 0)]
      "BTC" (clampPct 25) "USD".
Proof.
  apply (proj1 applySignalTargetPct_implements_rebalance
           [("BTC", 6 # 5); ("SOL", 0)] [("BTC", mkPosMeta 1 1 false)]
           (mkSignalParams "btc" 1 3 25) "USD").
  - reflexivity.
  - repeat constructor; simpl; discriminate.
  - intros (H & _). discriminate H.
Defined.

(** C2 as stated fails on two inputs. On holdings whose total is zero, such
    as the single bucket a leveraged loss floored at zero, the code starts
    over with [ETH = 1.0], while the stated rule ([desired = 0.4 * 0]) leaves
    no ETH bucket. On the cash holdings [{USD: 2.0}] a USD signal of weight
    40 leaves [USD = 0.8] in the code, while under the stated rule the cash
    bucket absorbs the shortfall 1.2 and holds 2.0. *)
Lemma rebalance_on_zero_equity_restarts :
  specFirstPosition [("BTC", 0)] = false
  /\ JsObj.get
       (fst (applySignalTargetPct [("BTC", 0)] [("BTC", mkPosMeta 1 5 false)]
               (mkSignalParams "ETH" 0 1 40)))
       "ETH" = Some 1
  /\ specRebalanceValue specFirstPosition [("BTC", 0)] "ETH" (clampPct 40) "ETH"
     = None
  /\ specFirstPosition [("USD", 2)] = false
  /\ option_map Qred
       (JsObj.get
          (fst (applySignalTargetPct [("USD", 2)] [("USD", CASH_META)]
                  (mkSignalParams "USD" 0 1 40)))
          "USD") = Some (4 # 5)
  /\ option_map Qred
       (specRebalanceValue specFirstPosition [("USD", 2)] "USD" (clampPct 40)
          "USD") = Some 2.
Proof. vm_compute. repeat split. Qed.

(** * Allocation closure (C1) *)

Lemma sumBuckets_nil : sumBuckets [] == 0.
Proof. reflexivity. Qed.

Lemma sumBuckets_app (a b : Buckets) :
  sumBuckets (a ++ b) == sumBuckets a + sumBuckets b.
Proof.
  induction a as [|[k v] r IH]; simpl.
  - rewrite sumBuckets_nil. ring.
  - rewrite !sumBuckets_cons, IH. ring.
Qed.

Lemma bucketOr0_notin (buckets : Buckets) k :
  ~ In k (JsObj.keys buckets) -> bucketOr0 buckets k = 0.
Proof.
  intros H. unfold bucketOr0. now rewrite JsObjFacts.get_notin.
Qed.

Lemma sumBuckets_set (buckets : Buckets) k v :
  sumBuckets (JsObj.set buckets k v)
  == sumBuckets buckets - bucketOr0 buckets k + v.
Proof.
  unfold bucketOr0.
  induction buckets as [|[k0 v0] r IH]; simpl.
  - rewrite sumBuckets_cons, sumBuckets_nil. ring.
  - destruct (String.eqb k0 k); rewrite !sumBuckets_cons.
    + ring.
    + rewrite IH. ring.
Qed.

Lemma del_notin (buckets : Buckets) k :
  ~ In k (JsObj.keys buckets) -> JsObj.del buckets k = buckets.
Proof.
  induction buckets as [|[k0 v0] r IH]; simpl; [reflexivity|].
  intros Hn. destruct (String.eqb k0 k) eqn:E.
  - apply String.eqb_eq in E. tauto.
  - f_equal. apply IH. tauto.
Qed.

Lemma sumBuckets_del (buckets : Buckets) k :
  JsObj.wf buckets ->
  sumBuckets (JsObj.del buckets k) == sumBuckets buckets - bucketOr0 buckets k.
Proof.
  unfold JsObj.wf, bucketOr0.
  induction buckets as [|[k0 v0] r IH]; simpl; intros Hnd.
  - rewrite sumBuckets_nil. ring.
  - inversion Hnd as [|? ? Hnotin Hnd']; subst.
    destruct (String.eqb k0 k) eqn:E; rewrite !sumBuckets_cons.
    + apply String.eqb_eq in E. subst. rewrite del_notin by assumption. ring.
    + rewrite IH by assumption. ring.
Qed.

Lemma scaleOthers_notin asset c (buckets : Buckets) :
  ~ In asset (JsObj.keys buckets) ->
  sumBuckets (scaleOthers asset c buckets) == c * sumBuckets buckets.
Proof.
  induction buckets as [|[k0 v0] r IH]; simpl; intros Hn.
  - rewrite sumBuckets_nil. ring.
  - destruct (String.eqb k0 asset) eqn:E.
    + apply String.eqb_eq in E. tauto.
    + simpl. rewrite !sumBuckets_cons, IH by tauto. ring.
Qed.

Lemma sumBuckets_scaleOthers asset c (buckets : Buckets) :
  JsObj.wf buckets ->
  sumBuckets (scaleOthers asset c buckets)
  == bucketOr0 buckets asset
     + c * (sumBuckets buckets - bucketOr0 buckets asset).
Proof.
  unfold JsObj.wf, bucketOr0.
  induction buckets as [|[k0 v0] r IH]; simpl; intros Hnd.
  - rewrite sumBuckets_nil. ring.
  - inversion Hnd as [|? ? Hnotin Hnd']; subst.
    destruct (String.eqb k0 asset) eqn:E; simpl; rewrite !sumBuckets_cons.
    + apply String.eqb_eq in E. subst.
      change (map _ r) with (scaleOthers asset c r).
      rewrite scaleOthers_notin by assumption. ring.
    + change (map _ r) with (scaleOthers asset c r).
      rewrite IH by assumption. ring.
Qed.

Lemma bucketOr0_scaleOthers asset c (buckets : Buckets) :
  bucketOr0 (scaleOthers asset c buckets) asset = bucketOr0 buckets asset.
Proof.
  unfold bucketOr0. now rewrite get_scaleOthers, String.eqb_refl.
Qed.

Lemma keys_scaleOthers asset c (buckets : Buckets) :
  JsObj.keys (scaleOthers asset c buckets) = JsObj.keys buckets.
Proof.
  unfold JsObj.keys, scaleOthers. rewrite map_map. apply map_ext.
  intros [k v]. simpl. now destruct (String.eqb k asset).
Qed.

Lemma keys_set_in (buckets : Buckets) k v :
  In k (JsObj.keys buckets) ->
  JsObj.keys (JsObj.set buckets k v) = JsObj.keys buckets.
Proof.
  induction buckets as [|[k0 v0] r IH]; simpl; [tauto|].
  intros Hin. destruct (String.eqb k0 k) eqn:E; simpl; [reflexivity|].
  f_equal. apply IH. destruct Hin as [H|H]; [|assumption].
  subst. rewrite String.eqb_refl in E. discriminate.
Qed.

Lemma keys_set_notin (buckets : Buckets) k v :
  ~ In k (JsObj.keys buckets) ->
  JsObj.keys (JsObj.set buckets k v) = JsObj.keys buckets ++ [k].
Proof.
  induction buckets as [|[k0 v0] r IH]; simpl; [reflexivity|].
  intros Hn. destruct (String.eqb k0 k) eqn:E; simpl.
  - apply String.eqb_eq in E. tauto.
  - f_equal. apply IH. tauto.
Qed.

Lemma wf_set (buckets : Buckets) k v :
  JsObj.wf buckets -> JsObj.wf (JsObj.set buckets k v).
Proof.
  unfold JsObj.wf. intros Hnd.
  destruct (in_dec string_dec k (JsObj.keys buckets)) as [Hin|Hn].
  - now rewrite keys_set_in.
  - rewrite keys_set_notin by assumption.
    apply NoDup_app; [assumption|repeat constructor; simpl; tauto|].
    intros x Hx [<-|[]]. contradiction.
Qed.

Lemma sumBuckets_keepOnly asset (buckets : Buckets) :
  JsObj.wf buckets ->
  sumBuckets (keepOnly asset buckets) == bucketOr0 buckets asset.
Proof.
  unfold JsObj.wf, bucketOr0.
  induction buckets as [|[k0 v0] r IH]; simpl; intros Hnd.
  - reflexivity.
  - inversion Hnd as [|? ? Hnotin Hnd']; subst.
    destruct (String.eqb k0 asset) eqn:E.
    + apply String.eqb_eq in E. subst. rewrite sumBuckets_cons.
      change (filter _ r) with (keepOnly asset r).
      rewrite IH by assumption.
      rewrite JsObjFacts.get_notin by assumption. ring.
    + now apply IH.
Qed.

Lemma clampPct_bounds w : 0 <= clampPct w <= 1.
Proof.
  unfold clampPct.
  set (z := Z.max 0 (Z.min 100 (Qfloor w))).
  assert (Hz : (0 <= z <= 100)%Z) by (subst z; lia).
  unfold Qdiv. split.
  - apply Qmult_le_0_compat; [|discriminate].
    change 0 with (inject_Z 0). rewrite <- Zle_Qle. lia.
  - apply Qle_shift_div_r; [reflexivity|].
    change (1 * 100) with (inject_Z 100). rewrite <- Zle_Qle. lia.
Qed.

(** On the first position, and whenever the total is not positive, the
    holdings become one unit in the signalled asset. *)
Lemma applySignalTargetPct_first_resets buckets meta params :
  isSupportedAsset (toUpperCase (p_asset params)) = true ->
  JsObj.wf buckets ->
  flatOrFirstPosition buckets = true ->
  sumBuckets (fst (applySignalTargetPct buckets meta params)) == 1.
Proof.
  intros Hsup Hwf Hfirst. unfold applySignalTargetPct.
  unfold flatOrFirstPosition in Hfirst.
  rewrite Hsup, isBrandNewSeed_spec, Hfirst. cbn [negb fst].
  rewrite sumBuckets_keepOnly by now apply wf_set.
  unfold bucketOr0. now rewrite JsObjFacts.get_set_same.
Qed.

(** The total is kept by every other signal, unless the signal is for USD
    and nothing but the USD bucket has value. *)
Lemma applySignalTargetPct_keeps_total buckets meta params :
  isSupportedAsset (toUpperCase (p_asset params)) = true ->
  JsObj.wf buckets ->
  nonNegative buckets ->
  flatOrFirstPosition buckets = false ->
  toUpperCase (p_asset params) <> "USD"
  \/ 0 < sumBuckets buckets - bucketOr0 buckets (toUpperCase (p_asset params)) ->
  sumBuckets (fst (applySignalTargetPct buckets meta params))
  == sumBuckets buckets.
Proof.
  intros Hsup Hwf Hnn Hflat Hcase. unfold applySignalTargetPct.
  unfold flatOrFirstPosition in Hflat.
  rewrite Hsup, isBrandNewSeed_spec, Hflat. cbn [negb]. cbv zeta.
  apply orb_false_iff in Hflat. destruct Hflat as [HT _].
  apply Qleb_gt in HT.
  set (asset := toUpperCase (p_asset params)) in *.
  pose proof (clampPct_bounds (p_weight_raw params)) as [Hp0 Hp1].
  set (pct := clampPct (p_weight_raw params)) in *.
  pose proof (bucketOr0_le_sum buckets asset Hnn) as Hcur.
  set (T := sumBuckets buckets) in *.
  set (cur := bucketOr0 buckets asset) in *.
  assert (Hd0 : 0 <= pct * T) by (apply Qmult_le_0_compat; lra).
  assert (Hd1 : pct * T <= T) by nra.
  destruct (Qltb 0 (T - cur)) eqn:Eo.
  - apply Qltb_lt in Eo.
    assert (Hs : sumBuckets (scaleOthers asset ((T - pct * T) / (T - cur)) buckets)
                 == cur + (T - pct * T)).
    { rewrite sumBuckets_scaleOthers by assumption. fold T cur. field. lra. }
    destruct (Qleb (pct * T) 0) eqn:Ed; cbn [fst].
    + apply Qleb_le in Ed.
      rewrite sumBuckets_del, bucketOr0_scaleOthers, Hs.
      * fold cur. lra.
      * unfold JsObj.wf. now rewrite keys_scaleOthers.
    + rewrite sumBuckets_set, bucketOr0_scaleOthers, Hs. fold cur. lra.
  - apply Qltb_ge in Eo.
    destruct Hcase as [Hne|Hpos]; [|lra].
    destruct (Qltb 0 (T - pct * T)) eqn:Edo.
    + assert (Hcur' : bucketOr0 (JsObj.set buckets "USD"
                         (bucketOr0 buckets "USD" + (T - pct * T))) asset = cur).
      { unfold bucketOr0 at 1. now rewrite JsObjFacts.get_set_other. }
      destruct (Qleb (pct * T) 0) eqn:Ed; cbn [fst].
      * apply Qleb_le in Ed.
        rewrite sumBuckets_del by now apply wf_set.
        rewrite Hcur', sumBuckets_set. fold T. lra.
      * rewrite sumBuckets_set, Hcur', sumBuckets_set. fold T. lra.
    + apply Qltb_ge in Edo.
      destruct (Qleb (pct * T) 0) eqn:Ed; cbn [fst].
      * apply Qleb_le in Ed. lra.
      * rewrite sumBuckets_set. fold T cur. lra.
Qed.

(** C1, at the input where the code loses the property: holdings that are
    all cash and not the seed, and a signal that sets USD to 40%. The
    shortfall is added to the USD bucket and then overwritten by the target,
    so the total drops from 2 to 0.8. *)
Theorem cash_target_on_cash_holdings_loses_equity :
  isSupportedAsset "USD" = true
  /\ flatOrFirstPosition [("USD", 2)] = false
  /\ sumBuckets [("USD", 2)] == 2
  /\ normBuckets
       (fst (applySignalTargetPct [("USD", 2)] [("USD", CASH_META)]
               (mkSignalParams "USD" 0 1 40)))
     = [("USD", 4 # 5)]
  /\ sumBuckets
       (fst (applySignalTargetPct [("USD", 2)] [("USD", CASH_META)]
               (mkSignalParams "USD" 0 1 40)))
     == 4 # 5.
Proof. vm_compute. repeat split. Qed.

(** * The at-or-before price lookup (C9) *)

Lemma StronglySorted_ascending ts : StronglySorted Z.le ts -> ascending ts.
Proof.
  induction 1 as [|a l Hs IH Hall]; intros i j x y Hij Hi Hj.
  - destruct i; discriminate.
  - destruct i as [|i], j as [|j]; simpl in *; try lia.
    + injection Hi as ->. injection Hj as ->. lia.
    + injection Hi as ->. apply nth_error_In in Hj.
      rewrite Forall_forall in Hall. now apply Hall.
    + apply (IH i j); auto. lia.
Qed.

Lemma shiftr1_bounds lo hi :
  (lo <= hi)%Z -> (lo <= Z.shiftr (lo + hi) 1 <= hi)%Z.
Proof.
  intros H. rewrite Z.shiftr_div_pow2 by lia. change (2 ^ 1)%Z with 2%Z.
  pose proof (Z.div_mod (lo + hi) 2 ltac:(lia)).
  pose proof (Z.mod_pos_bound (lo + hi) 2 ltac:(lia)). lia.
Qed.

(** The loop returns the last index whose timestamp is at or before [t]
    (or -1), on a series in ascending order. *)
Lemma bsearchLoop_spec ts t lo hi best :
  ascending ts ->
  (0 <= lo)%Z -> (hi < Z.of_nat (List.length ts))%Z -> (lo <= hi + 1)%Z ->
  (forall n x, (Z.of_nat n < lo)%Z -> nth_error ts n = Some x -> (x <= t)%Z) ->
  (forall n x, (hi < Z.of_nat n)%Z -> nth_error ts n = Some x -> (t < x)%Z) ->
  best = (lo - 1)%Z ->
  (-1 <= bsearchLoop ts t lo hi best < Z.of_nat (List.length ts))%Z
  /\ (forall n x, (Z.of_nat n <= bsearchLoop ts t lo hi best)%Z ->
                  nth_error ts n = Some x -> (x <= t)%Z)
  /\ (forall n x, (bsearchLoop ts t lo hi best < Z.of_nat n)%Z ->
                  nth_error ts n = Some x -> (t < x)%Z).
Proof.
  intros Hasc.
  apply (bsearchLoop_elim
    (fun ts t lo hi best r =>
       ascending ts ->
       (0 <= lo)%Z -> (hi < Z.of_nat (List.length ts))%Z -> (lo <= hi + 1)%Z ->
       (forall n x, (Z.of_nat n < lo)%Z -> nth_error ts n = Some x -> (x <= t)%Z) ->
       (forall n x, (hi < Z.of_nat n)%Z -> nth_error ts n = Some x -> (t < x)%Z) ->
       best = (lo - 1)%Z ->
       (-1 <= r < Z.of_nat (List.length ts))%Z
       /\ (forall n x, (Z.of_nat n <= r)%Z -> nth_error ts n = Some x -> (x <= t)%Z)
       /\ (forall n x, (r < Z.of_nat n)%Z -> nth_error ts n = Some x -> (t < x)%Z)));
    [| |exact Hasc]; clear.
  - intros ts t lo hi Hle best IH1 IH2 _ Hasc Hlo Hhi Hlh Hlow Hhigh Hbest.
    cbv zeta in *.
    pose proof (shiftr1_bounds lo hi Hle) as Hmid.
    set (mid := Z.shiftr (lo + hi) 1) in *.
    destruct (nth_error ts (Z.to_nat mid)) as [x|] eqn:Ex.
    2:{ apply nth_error_None in Ex. lia. }
    replace (0 <=? mid)%Z with true by (symmetry; apply Z.leb_le; lia).
    cbn [andb]. destruct (x <=? t)%Z eqn:Ext.
    + apply Z.leb_le in Ext. apply IH1; auto; try lia.
      intros n y Hn Hy. apply (Z.le_trans _ x); [|exact Ext].
      apply (Hasc n (Z.to_nat mid)); auto. lia.
    + apply Z.leb_gt in Ext. apply IH2; auto; try lia.
      intros n y Hn Hy. apply (Z.lt_le_trans _ x); [exact Ext|].
      apply (Hasc (Z.to_nat mid) n); auto. lia.
  - intros ts t lo hi Hgt best _ Hasc Hlo Hhi Hlh Hlow Hhigh ->.
    repeat split; try lia.
    + intros n x Hn. apply Hlow. lia.
    + intros n x Hn. apply Hhigh. lia.
Qed.

Lemma latestAtOrBefore_unique ts t i j :
  latestAtOrBefore ts t i -> latestAtOrBefore ts t j -> i = j.
Proof.
  intros [[x [Hx Hxt]] Hi] [[y [Hy Hyt]] Hj].
  destruct (Nat.lt_trichotomy i j) as [H|[H|H]]; [|assumption|].
  - specialize (Hi j y H Hy). lia.
  - specialize (Hj i x H Hx). lia.
Qed.

(** What the lookup returns, in terms of the latest sample at or before the
    query. *)
Lemma priceAtOrBefore_cases s t :
  StronglySorted Z.le (ps_ts s) ->
  List.length (ps_px s) = List.length (ps_ts s) ->
  (priceAtOrBefore (Some s) t = None
   /\ forall n x, nth_error (ps_ts s) n = Some x -> (t < x)%Z)
  \/ exists i p,
       latestAtOrBefore (ps_ts s) t i /\ nth_error (ps_px s) i = Some p
       /\ priceAtOrBefore (Some s) t = (if Qltb 0 p then Some p else None).
Proof.
  intros Hs Hlen. apply StronglySorted_ascending in Hs.
  unfold priceAtOrBefore.
  destruct (List.length (ps_ts s) =? 0)%nat eqn:E0.
  - left. split; [reflexivity|]. apply Nat.eqb_eq in E0.
    intros n x Hn.
    assert (n < List.length (ps_ts s))%nat by (apply nth_error_Some; congruence).
    lia.
  - apply Nat.eqb_neq in E0. cbv zeta.
    assert (Hspec := bsearchLoop_spec (ps_ts s) t 0
                       (Z.of_nat (List.length (ps_ts s)) - 1) (-1) Hs).
    destruct Hspec as [Hr [Hlow Hhigh]]; try lia.
    1:{ intros n x Hn Hx.
        assert (n < List.length (ps_ts s))%nat
          by (apply nth_error_Some; congruence).
        lia. }
    set (r := bsearchLoop _ _ _ _ _) in *.
    destruct (r <? 0)%Z eqn:Er.
    + apply Z.ltb_lt in Er. left. split; [reflexivity|].
      intros n x Hn. apply (Hhigh n x); [lia|assumption].
    + apply Z.ltb_ge in Er. right.
      destruct (nth_error (ps_px s) (Z.to_nat r)) as [p|] eqn:Ep.
      2:{ apply nth_error_None in Ep. lia. }
      exists (Z.to_nat r), p. repeat split; auto.
      * destruct (nth_error (ps_ts s) (Z.to_nat r)) as [x|] eqn:Ex.
        2:{ apply nth_error_None in Ex. lia. }
        exists x. split; [reflexivity|]. apply (Hlow (Z.to_nat r)); [lia|assumption].
      * intros j y Hj Hy. apply (Hhigh j y); [lia|assumption].
Qed.

(** The drift step changes a bucket only through a price at each endpoint. *)
Lemma driftEntry_get_unpriced series meta t0 t1 buckets entry sym :
  priceAtOrBefore (JsObj.get series sym) t0 = None
  \/ priceAtOrBefore (JsObj.get series sym) t1 = None ->
  JsObj.get (driftEntry series meta t0 t1 buckets entry) sym
  = JsObj.get buckets sym.
Proof.
  intros Hnone. unfold driftEntry.
  destruct (Qleb (snd entry) 0); [reflexivity|].
  destruct (isUsdAsset _); [reflexivity|].
  destruct (String.eqb (toUpperCase (fst entry)) sym) eqn:E.
  - apply String.eqb_eq in E. rewrite E.
    destruct Hnone as [-> | ->]; [reflexivity|].
    now destruct (priceAtOrBefore (JsObj.get series sym) t0).
  - apply String.eqb_neq in E. clear Hnone.
    destruct (priceAtOrBefore _ t0); [|reflexivity].
    destruct (priceAtOrBefore _ t1); [|reflexivity].
    destruct (Qleb q 0); [reflexivity|].
    apply JsObjFacts.get_set_other. congruence.
Qed.

Lemma drift_get_unpriced series meta t0 t1 buckets sym :
  priceAtOrBefore (JsObj.get series sym) t0 = None
  \/ priceAtOrBefore (JsObj.get series sym) t1 = None ->
  JsObj.get (drift series meta t0 t1 buckets) sym = JsObj.get buckets sym.
Proof.
  intros Hnone. unfold drift. destruct (t1 <=? t0)%Z; [reflexivity|].
  unfold JsObj.entries.
  generalize buckets at 1 as l. intros l. revert buckets.
  induction l as [|e r IH]; intros buckets; simpl; [reflexivity|].
  rewrite IH. now apply driftEntry_get_unpriced.
Qed.

(** C9: on a series in ascending order of timestamp, [priceAtOrBefore] is
    [null] exactly when no sample is at or before the query or the latest
    such sample has a price that is not strictly positive; a price it
    returns is that latest sample's, never an earlier one's; and a bucket
    whose latest price at either endpoint is not positive is left as it was
    by the drift step. *)
Theorem priceAtOrBefore_null_exactly (s : PriceSeries) (t : Z) :
  StronglySorted Z.le (ps_ts s) ->
  List.length (ps_px s) = List.length (ps_ts s) ->
  (priceAtOrBefore (Some s) t = None <->
     (forall n x, nth_error (ps_ts s) n = Some x -> (t < x)%Z)
     \/ exists i p, latestAtOrBefore (ps_ts s) t i
                    /\ nth_error (ps_px s) i = Some p /\ p <= 0)
  /\ (forall p, priceAtOrBefore (Some s) t = Some p ->
        exists i, latestAtOrBefore (ps_ts s) t i
                  /\ nth_error (ps_px s) i = Some p /\ 0 < p)
  /\ (forall series meta t0 t1 buckets sym i p,
        JsObj.get series sym = Some s ->
        t = t0 \/ t = t1 ->
        latestAtOrBefore (ps_ts s) t i ->
        nth_error (ps_px s) i = Some p -> p <= 0 ->
        JsObj.get (drift series meta t0 t1 buckets) sym
        = JsObj.get buckets sym).
Proof.
  intros Hs Hlen.
  assert (Hnull :
    (forall n x, nth_error (ps_ts s) n = Some x -> (t < x)%Z)
    \/ (exists i p, latestAtOrBefore (ps_ts s) t i
                    /\ nth_error (ps_px s) i = Some p /\ p <= 0) ->
    priceAtOrBefore (Some s) t = None).
  { intros Hcase.
    destruct (priceAtOrBefore_cases s t Hs Hlen)
      as [[Hn _]|[i [p [Hlat [Hp Heq]]]]]; [assumption|].
    rewrite Heq. destruct Hcase as [Hall|[j [q [Hlat' [Hq Hq0]]]]].
    - destruct Hlat as [[x [Hx Hxt]] _]. specialize (Hall i x Hx). lia.
    - assert (i = j) by eauto using latestAtOrBefore_unique. subst j.
      rewrite Hp in Hq. injection Hq as ->.
      apply Qltb_ge in Hq0. now rewrite Hq0. }
  split; [split; [|exact Hnull]|split].
  - intros Hnone.
    destruct (priceAtOrBefore_cases s t Hs Hlen)
      as [[_ Hall]|[i [p [Hlat [Hp Heq]]]]]; [now left|].
    right. exists i, p. repeat split; try apply Hlat; auto.
    rewrite Heq in Hnone. destruct (Qltb 0 p) eqn:E; [discriminate|].
    now apply Qltb_ge.
  - intros p Hsome.
    destruct (priceAtOrBefore_cases s t Hs Hlen)
      as [[Hn _]|[i [q [Hlat [Hq Heq]]]]]; [congruence|].
    rewrite Heq in Hsome. destruct (Qltb 0 q) eqn:E; [|discriminate].
    injection Hsome as ->. exists i. repeat split; try apply Hlat; auto.
    now apply Qltb_lt.
  - intros series meta t0 t1 buckets sym i p Hget Ht Hlat Hp Hp0.
    apply drift_get_unpriced. rewrite Hget.
    destruct Ht as [<-|<-]; [left|right]; apply Hnull; right; eauto.
Qed.

Lemma priceAtOrBefore_null_exactly_witness :
  priceAtOrBefore (Some (mkPriceSeries [0; 3600; 7200]%Z [100; 0; 80])) 5000
  = None
  /\ JsObj.get
       (drift [("BTC", mkPriceSeries [0; 3600; 7200]%Z [100; 0; 80])]
              [("BTC", mkPosMeta 1 2 false)] 5000 7200 [("BTC", 1)]) "BTC"
     = JsObj.get [("BTC", 1)] "BTC".
Proof.
  assert (Hs : StronglySorted Z.le [0; 3600; 7200]%Z).
  { repeat constructor; lia. }
  assert (Hlat : latestAtOrBefore [0; 3600; 7200]%Z 5000 1).
  { split.
    - exists 3600%Z. split; [reflexivity|lia].
    - intros [|[|[|[|j]]]] y Hj Hy; simpl in Hy; try lia; try discriminate.
      injection Hy as <-. lia. }
  pose proof (priceAtOrBefore_null_exactly
                (mkPriceSeries [0; 3600; 7200]%Z [100; 0; 80]) 5000 Hs eq_refl)
    as [Hiff [_ Hdrift]].
  split.
  - apply Hiff. right. exists 1%nat, 0.
    split; [exact Hlat|split; [reflexivity|apply Qle_refl]].
  - apply (Hdrift _ _ 5000%Z 7200%Z _ "BTC" 1%nat 0);
      [reflexivity|now left|exact Hlat|reflexivity|apply Qle_refl].
Defined.

(** * Price drift (C3) *)

Lemma driftEntry_get_other series meta t0 t1 buckets entry sym :
  toUpperCase (fst entry) <> sym ->
  JsObj.get (driftEntry series meta t0 t1 buckets entry) sym
  = JsObj.get buckets sym.
Proof.
  intros Hne. unfold driftEntry.
  destruct (Qleb (snd entry) 0); [reflexivity|].
  destruct (isUsdAsset _); [reflexivity|].
  destruct (priceAtOrBefore _ t0); [|reflexivity].
  destruct (priceAtOrBefore _ t1); [|reflexivity].
  destruct (Qleb q 0); [reflexivity|].
  apply JsObjFacts.get_set_other. congruence.
Qed.

Lemma driftEntry_get_own series meta t0 t1 buckets k val :
  toUpperCase k = k ->
  JsObj.get (driftEntry series meta t0 t1 buckets (k, val)) k
  = match driftedValue series meta t0 t1 k val with
    | Some x => Some x
    | None => JsObj.get buckets k
    end.
Proof.
  intros Hk. unfold driftEntry, driftedValue, driftMeta. cbn [fst snd].
  rewrite Hk.
  destruct (Qleb val 0); [reflexivity|].
  destruct (isUsdAsset k); [reflexivity|].
  destruct (priceAtOrBefore _ t0); [|reflexivity].
  destruct (priceAtOrBefore _ t1); [|reflexivity].
  destruct (Qleb q 0); [reflexivity|].
  cbv zeta. apply JsObjFacts.get_set_same.
Qed.

Lemma drift_fold_get series meta t0 t1 (l buckets : Buckets) sym :
  JsObj.wf l -> upperKeys l ->
  JsObj.get (fold_left (driftEntry series meta t0 t1) l buckets) sym
  = match JsObj.get l sym with
    | Some val =>
        match driftedValue series meta t0 t1 sym val with
        | Some x => Some x
        | None => JsObj.get buckets sym
        end
    | None => JsObj.get buckets sym
    end.
Proof.
  unfold JsObj.wf. revert buckets.
  induction l as [|[k val] r IH]; intros buckets Hnd Hup; [reflexivity|].
  inversion Hnd as [|? ? Hnotin Hnd']; subst.
  inversion Hup as [|? ? Hk Hup']; subst. cbn [fst] in Hk.
  cbn [fold_left JsObj.get]. rewrite IH by assumption.
  destruct (String.eqb k sym) eqn:E.
  - apply String.eqb_eq in E. subst k.
    rewrite JsObjFacts.get_notin by assumption.
    now apply driftEntry_get_own.
  - apply String.eqb_neq in E.
    rewrite driftEntry_get_other by (cbn [fst]; congruence).
    reflexivity.
Qed.

(** C3: over [t0 < t1] the drift step multiplies a non-cash bucket by
    [max(0, 1 + direction * leverage * (p1 - p0) / p0)], the prices being
    those of [priceAtOrBefore] at the two endpoints, so its value stays at or
    above zero; a cash bucket, and a bucket with no (positive) price at either
    endpoint, keeps its value. *)
Theorem drift_multiplies_and_floors
  (series : JsObj.t PriceSeries) (meta : Metas) (t0 t1 : Z)
  (buckets : Buckets) (sym : string) (v : Q) :
  (t0 < t1)%Z ->
  JsObj.wf buckets -> upperKeys buckets ->
  JsObj.get buckets sym = Some v -> 0 <= v ->
  exists v',
    JsObj.get (drift series meta t0 t1 buckets) sym = Some v'
    /\ 0 <= v'
    /\ match isUsdAsset sym,
             priceAtOrBefore (JsObj.get series sym) t0,
             priceAtOrBefore (JsObj.get series sym) t1 with
       | false, Some p0, Some p1 =>
           v' == v * Qmax 0 (1 + inject_Z (pm_direction (driftMeta meta sym))
                                 * pm_leverage (driftMeta meta sym)
                                 * ((p1 - p0) / p0))
       | _, _, _ => v' = v
       end.
Proof.
  intros Ht Hwf Hup Hget Hv. unfold drift.
  replace (t1 <=? t0)%Z with false by (symmetry; apply Z.leb_gt; lia).
  unfold JsObj.entries. rewrite drift_fold_get, Hget by assumption.
  unfold driftedValue.
  destruct (Qleb v 0) eqn:Ev0.
  - apply Qleb_le in Ev0. exists v. repeat split; auto.
    destruct (isUsdAsset sym); [reflexivity|].
    destruct (priceAtOrBefore _ t0); [|reflexivity].
    destruct (priceAtOrBefore _ t1); [|reflexivity].
    assert (Hz : v == 0) by lra. rewrite Hz. ring.
  - apply Qleb_gt in Ev0.
    destruct (isUsdAsset sym); [exists v; auto|].
    destruct (priceAtOrBefore (JsObj.get series sym) t0) as [p0|] eqn:E0;
      [|exists v; auto].
    destruct (priceAtOrBefore (JsObj.get series sym) t1) as [p1|] eqn:E1;
      [|exists v; auto].
    assert (Hp0 : Qleb p0 0 = false).
    { destruct (JsObj.get series sym) as [s|]; [|discriminate].
      unfold priceAtOrBefore in E0.
      destruct (_ =? _)%nat; [discriminate|]. cbv zeta in E0.
      destruct (_ <? 0)%Z; [discriminate|].
      destruct (nth_error _ _); [|discriminate].
      destruct (Qltb 0 q) eqn:Eq; [|discriminate].
      injection E0 as ->. apply Qltb_lt in Eq. now apply Qleb_gt. }
    rewrite Hp0. cbv zeta.
    set (mult := 1 + _ * _ * _).
    destruct (Qleb mult 0) eqn:Em.
    + apply Qleb_le in Em. exists 0. repeat split; [apply Qle_refl|].
      rewrite Q.max_l by assumption. ring.
    + apply Qleb_gt in Em. exists (v * mult). repeat split.
      * apply Qmult_le_0_compat; lra.
      * rewrite Q.max_r by lra. reflexivity.
Qed.

Lemma drift_multiplies_and_floors_witness :
  exists v',
    JsObj.get
      (drift [("BTC", mkPriceSeries [0; 3600]%Z [100; 70])]
             [("BTC", mkPosMeta 1 5 false)] 0 3600 [("BTC", 1); ("USD", 1 # 2)])
      "BTC" = Some v'
    /\ 0 <= v'
    /\ v' == 1 * Qmax 0 (1 + inject_Z 1 * 5 * ((70 - 100) / 100)).
Proof.
  apply (drift_multiplies_and_floors
           [("BTC", mkPriceSeries [0; 3600]%Z [100; 70])]
           [("BTC", mkPosMeta 1 5 false)] 0 3600
           [("BTC", 1); ("USD", 1 # 2)] "BTC" 1).
  - reflexivity.
  - repeat constructor; simpl; intuition discriminate.
  - repeat constructor.
  - reflexivity.
  - discriminate.
Defined.

(** * Position snapshots of the replay (C10) *)

Lemma snapshotPosition_percent meta total e p :
  0 < total -> 0 < snd e ->
  snapshotPosition meta total e = Some p ->
  0 < pos_percent p /\ isSupportedAsset (toUpperCase (fst e)) = true.
Proof.
  intros Ht Hv. unfold snapshotPosition.
  destruct (isSupportedAsset (toUpperCase (fst e))); [|discriminate].
  cbn [negb]. intros [= <-]. cbn [pos_percent]. split; [|reflexivity].
  apply Qmult_lt_0_compat; [|reflexivity].
  unfold Qdiv. apply Qmult_lt_0_compat; [assumption|].
  now apply Qinv_lt_0_compat.
Qed.

Lemma filterNonNull_positions meta total (l : list (string * Q)) :
  0 < total -> Forall (fun e => 0 < snd e) l ->
  Forall (fun p => 0 < pos_percent p)
         (filterNonNull (map (snapshotPosition meta total) l))
  /\ (filterNonNull (map (snapshotPosition meta total) l) <> [] ->
      exists e, In e l /\ isSupportedAsset (toUpperCase (fst e)) = true).
Proof.
  intros Ht. induction 1 as [|e r He Hr [IH1 IH2]]; simpl.
  - split; [constructor|congruence].
  - destruct (snapshotPosition meta total e) as [p|] eqn:Ep.
    + destruct (snapshotPosition_percent meta total e p Ht He Ep) as [Hp Hs].
      split; [now constructor|]. intros _. exists e. auto.
    + split; [assumption|]. intros Hne.
      destruct (IH2 Hne) as [e' [Hin Hs]]. exists e'. auto.
Qed.

Lemma keepOnly_notin asset (buckets : Buckets) :
  ~ In asset (JsObj.keys buckets) -> keepOnly asset buckets = [].
Proof.
  induction buckets as [|[k0 v0] r IH]; simpl; [reflexivity|].
  intros Hn. destruct (String.eqb k0 asset) eqn:E.
  - apply String.eqb_eq in E. tauto.
  - apply IH. tauto.
Qed.

(** Setting a key and deleting every other key leaves that one entry. *)
Lemma keepOnly_set asset v (buckets : Buckets) :
  JsObj.wf buckets -> keepOnly asset (JsObj.set buckets asset v) = [(asset, v)].
Proof.
  unfold JsObj.wf.
  induction buckets as [|[k0 v0] r IH]; simpl; intros Hnd.
  - now rewrite String.eqb_refl.
  - inversion Hnd as [|? ? Hnotin Hnd']; subst.
    destruct (String.eqb k0 asset) eqn:E; simpl; rewrite E.
    + apply String.eqb_eq in E. subst k0.
      change (filter _ r) with (keepOnly asset r).
      now rewrite keepOnly_notin.
    + now apply IH.
Qed.

(** C10 (as amended): [recordPositionSnapshot] writes only when the bucket
    total is strictly positive and some supported bucket has positive value,
    and every percentage it writes is strictly positive; with a total at or
    below zero when it runs it writes nothing. Zero equity before a signal
    does not rule a snapshot out: a supported signal applied to holdings
    whose total is at or below zero restarts them as the single bucket
    [asset = 1.0], and the recorder run on these writes the one position of
    that asset at 100%. *)
Theorem recordPositionSnapshot_positive_only
  (id : Z) (buckets : Buckets) (meta : Metas) (signalTs : Z) (db : Db) :
  (sumBuckets buckets <= 0 ->
     recordPositionSnapshot id buckets meta signalTs db = db)
  /\ (snapshotPositions buckets meta = None ->
        recordPositionSnapshot id buckets meta signalTs db = db)
  /\ (forall positions,
        snapshotPositions buckets meta = Some positions ->
        recordPositionSnapshot id buckets meta signalTs db
        = upsertPositionSnapshotStmt db id signalTs positions
        /\ 0 < sumBuckets buckets
        /\ (exists e, In e buckets /\ 0 < snd e
                      /\ isSupportedAsset (toUpperCase (fst e)) = true)
        /\ Forall (fun p => 0 < pos_percent p) positions)
  /\ (forall params,
        isSupportedAsset (toUpperCase (p_asset params)) = true ->
        JsObj.wf buckets ->
        sumBuckets buckets <= 0 ->
        fst (applySignalTargetPct buckets meta params)
        = [(toUpperCase (p_asset params), 1)]
        /\ exists p,
             recordPositionSnapshot id
               (fst (applySignalTargetPct buckets meta params))
               (snd (applySignalTargetPct buckets meta params)) signalTs db
             = upsertPositionSnapshotStmt db id signalTs [p]
             /\ pos_asset p = toUpperCase (p_asset params)
             /\ pos_percent p == 100).
Proof.
  split; [|split; [|split]].
  - unfold recordPositionSnapshot. intros Hle. unfold snapshotPositions.
    apply Qleb_le in Hle. now rewrite Hle.
  - unfold recordPositionSnapshot. now intros ->.
  - unfold recordPositionSnapshot. intros positions H. rewrite H.
    split; [reflexivity|].
    unfold snapshotPositions in H.
    destruct (Qleb (sumBuckets buckets) 0) eqn:E; [discriminate|].
    apply Qleb_gt in E. cbv zeta in H.
    set (l := filter _ _) in H.
    assert (Hl : Forall (fun e => 0 < snd e) l).
    { apply Forall_forall. intros e He. apply filter_In in He.
      now apply Qltb_lt. }
    destruct (filterNonNull_positions meta (sumBuckets buckets) l E Hl)
      as [Hall Hex].
    destruct (filterNonNull _) eqn:Ef; [discriminate|].
    injection H as <-.
    split; [exact E|]. split; [|exact Hall].
    destruct Hex as [e [Hin Hs]]; [discriminate|].
    exists e. apply filter_In in Hin. destruct Hin as [Hin Hpos].
    apply Qltb_lt in Hpos. auto.
  - intros params Hsup Hwf Hle.
    unfold applySignalTargetPct. rewrite Hsup. cbn [negb].
    apply Qleb_le in Hle. rewrite Hle. cbn [orb fst snd].
    rewrite keepOnly_set by exact Hwf.
    split; [reflexivity|].
    set (asset := toUpperCase (p_asset params)) in *.
    unfold recordPositionSnapshot, snapshotPositions.
    change (sumBuckets [(asset, 1)]) with (0 + 1).
    change (Qleb (0 + 1) 0) with false. cbv zeta.
    cbn [JsObj.entries filter snd map].
    change (Qltb 0 1) with true. cbn [map filterNonNull].
    unfold snapshotPosition. cbn [fst snd].
    assert (Hup : toUpperCase asset = asset)
      by (subst asset; apply toUpperCase_idem).
    rewrite Hup, Hsup. cbn [negb filterNonNull].
    eexists. split; [reflexivity|]. cbn [pos_asset pos_percent].
    split; reflexivity.
Qed.

(** * The statistics rows (C6, C7, C5) *)

Lemma findIndex_None {A : Type} (f : A -> bool) (l : list A) :
  findIndex f l = None <-> forall x, In x l -> f x = false.
Proof.
  induction l as [|a r IH]; simpl.
  - split; [intros _ x []|reflexivity].
  - destruct (f a) eqn:E.
    + split; [discriminate|]. intros H. rewrite (H a) in E by now left.
      discriminate.
    + destruct (findIndex f r); simpl.
      * split; [discriminate|]. intros H.
        assert (Hn : Some n = None)
          by (apply IH; intros x Hx; apply H; now right).
        discriminate.
      * split; [|reflexivity]. intros _ x [<-|Hx]; [assumption|].
        now apply IH.
Qed.

Lemma findIndex_app_first {A : Type} (f : A -> bool) (pre : list A) a post :
  (forall x, In x pre -> f x = false) -> f a = true ->
  findIndex f (pre ++ a :: post) = Some (List.length pre).
Proof.
  intros Hpre Ha. induction pre as [|b r IH]; simpl.
  - now rewrite Ha.
  - rewrite (Hpre b) by now left. rewrite IH; [reflexivity|].
    intros x Hx. apply Hpre. now right.
Qed.

Lemma nth_pred_length_map {A : Type} (f : A -> Q) (l : list A) (x : A) d :
  l <> [] -> nth (List.length l - 1) (map f l) d = f (last l x).
Proof.
  induction l as [|a r IH]; [congruence|]. intros _.
  destruct r as [|b r']; [reflexivity|].
  replace (List.length (a :: b :: r') - 1)%nat
    with (S (List.length (b :: r') - 1)) by (simpl; lia).
  change (map f (a :: b :: r')) with (f a :: map f (b :: r')).
  cbn [nth]. rewrite IH by discriminate. reflexivity.
Qed.

Lemma collectWindow_app segs th wh :
  snd (collectWindow segs th wh) = wh ++ snd (collectWindow segs 0 []).
Proof.
  revert th wh. induction segs as [|s r IH]; intros th wh; simpl.
  - now rewrite app_nil_r.
  - destruct (Qleb _ 0).
    + apply IH.
    + rewrite IH, (IH _ [_]). now rewrite app_assoc.
Qed.


Lemma Qmaxb_max x y : Qmaxb x y == Qmax x y.
Proof.
  unfold Qmaxb. destruct (Qleb x y) eqn:E.
  - apply Qleb_le in E. now rewrite Q.max_r.
  - apply Qleb_gt in E. rewrite Q.max_l; [reflexivity|lra].
Qed.

Lemma Qminb_min x y : Qminb x y == Qmin x y.
Proof.
  unfold Qminb. destruct (Qleb x y) eqn:E.
  - apply Qleb_le in E. now rewrite Q.min_l.
  - apply Qleb_gt in E. rewrite Q.min_r; [reflexivity|lra].
Qed.

Lemma maturityMultiplier_clamp h :
  maturityMultiplier h == clamp01 (h / 720).
Proof.
  unfold maturityMultiplier, clamp01.
  change SHARPE_MATURITY_HOURS with 720.
  destruct (Qleb h 0) eqn:E.
  - apply Qleb_le in E.
    assert (H : h / 720 <= 0).
    { unfold Qdiv. setoid_replace 0 with (0 * / 720) by ring.
      apply Qmult_le_compat_r; [assumption|discriminate]. }
    rewrite Q.min_r by lra. rewrite Q.max_l by assumption. reflexivity.
  - rewrite Qmaxb_max. apply Q.max_compat; [reflexivity|apply Qminb_min].
Qed.

Section StatsFacts.
Variable sqrt : Q -> Q.
Variable ln : Q -> Q.

Lemma windowStatsRow_key id segments nowSec window :
  ss_strategy_id (windowStatsRow sqrt ln id segments nowSec window) = id
  /\ ss_window (windowStatsRow sqrt ln id segments nowSec window)
     = w_id window
  /\ ss_last_updated_ts (windowStatsRow sqrt ln id segments nowSec window)
     = nowSec.
Proof.
  unfold windowStatsRow. cbv zeta.
  destruct (windowStart segments nowSec window); [|now repeat split].
  repeat match goal with
         | |- context [if ?c then _ else _] => destruct c
         end; now repeat split.
Qed.

Lemma find_upsertBy_same {A : Type} (same q : A -> bool) (row : A)
  (l : list A) :
  (forall r, q r = same r) -> q row = true ->
  find q (upsertBy same row l) = Some row.
Proof.
  intros Hq Hrow. unfold upsertBy.
  destruct (existsb same l) eqn:Ex.
  - induction l as [|a r IH]; simpl in *; [discriminate|].
    destruct (same a) eqn:Ea.
    + now rewrite Hrow.
    + rewrite Hq, Ea. now apply IH.
  - induction l as [|a r IH]; simpl in *.
    + now rewrite Hrow.
    + apply orb_false_iff in Ex. destruct Ex as [Ea Er].
      rewrite Hq, Ea. now apply IH.
Qed.

Lemma find_upsertBy_other {A : Type} (same q : A -> bool) (row : A)
  (l : list A) :
  q row = false -> (forall r, same r = true -> q r = false) ->
  find q (upsertBy same row l) = find q l.
Proof.
  intros Hrow Hq. unfold upsertBy.
  destruct (existsb same l).
  - induction l as [|a r IH]; simpl; [reflexivity|].
    destruct (same a) eqn:Ea.
    + now rewrite Hrow, (Hq a Ea).
    + now rewrite IH.
  - induction l as [|a r IH]; simpl.
    + now rewrite Hrow.
    + now rewrite IH.
Qed.

(** After an upsert the store answers with the new row for its key, and as
    before for every other key. *)
Lemma getStatsRow_upsert db row id win :
  getStatsRow (upsertStatsStmt db row) id win
  = if (ss_strategy_id row =? id)%Z && String.eqb (ss_window row) win
    then Some row
    else getStatsRow db id win.
Proof.
  unfold getStatsRow, upsertStatsStmt, withStats. cbn [db_stats].
  destruct ((ss_strategy_id row =? id)%Z && String.eqb (ss_window row) win)
    eqn:E.
  - apply find_upsertBy_same; [|assumption].
    apply andb_true_iff in E. destruct E as [E1 E2].
    apply Z.eqb_eq in E1. apply String.eqb_eq in E2. now subst.
  - apply find_upsertBy_other; [assumption|].
    intros r Hr. apply andb_true_iff in Hr. destruct Hr as [H1 H2].
    apply Z.eqb_eq in H1. apply String.eqb_eq in H2. now rewrite H1, H2.
Qed.

(** C6 (as amended): for a strategy with at least one segment, a pass
    upserts the row of each of the six windows, and the row of a window no
    segment qualifies for is the neutral one. With no segment at all the
    pass writes nothing. *)
Theorem stats_row_written_for_each_window
  (id : Z) (segments : list SegmentRow) (nowSec : Z) (db : Db)
  (window : StatWindow) :
  segments <> [] ->
  In window STAT_WINDOWS ->
  getStatsRow (recomputeStatsForStrategy sqrt ln id segments nowSec db)
              id (w_id window)
  = Some (windowStatsRow sqrt ln id segments nowSec window)
  /\ ss_last_updated_ts (windowStatsRow sqrt ln id segments nowSec window)
     = nowSec
  /\ (forall seconds,
        w_seconds window = Some seconds ->
        (forall s, In s segments -> (seg_end_ts s < nowSec - seconds)%Z) ->
        windowStatsRow sqrt ln id segments nowSec window
        = mkStatsDbRow id (w_id window) nowSec None None None 0 0).
Proof.
  intros Hne Hin. split; [|split].
  - unfold recomputeStatsForStrategy.
    destruct segments as [|s0 rest]; [contradiction|].
    set (segs := s0 :: rest).
    unfold STAT_WINDOWS in *. cbn [fold_left].
    assert (Hid : forall w,
      ss_strategy_id (windowStatsRow sqrt ln id segs nowSec w) = id)
      by (intros w; apply windowStatsRow_key).
    assert (Hwin : forall w,
      ss_window (windowStatsRow sqrt ln id segs nowSec w) = w_id w)
      by (intros w; apply windowStatsRow_key).
    simpl in Hin.
    repeat (destruct Hin as [<-|Hin];
            [rewrite !getStatsRow_upsert, !Hid, !Hwin, !Z.eqb_refl;
             reflexivity|]).
    contradiction.
  - apply windowStatsRow_key.
  - intros seconds Hsec Hall. unfold windowStatsRow, windowStart.
    rewrite Hsec.
    replace (findIndex _ segments) with (@None nat); [reflexivity|].
    symmetry. apply findIndex_None. intros s Hs. apply Z.leb_gt. auto.
Qed.

(** C7 (as amended): the window slice starts at the first segment whose
    [end_ts] is at or after the cutoff; the base value is the
    [value_index_end] of the segment just before it, or 1.0 when there is
    none; and the row's total return is [final / base - 1] when base and
    final value are both strictly positive, and 0 otherwise. For the ALL
    window the base is 1.0. *)
Theorem window_base_value_and_total_return
  (id nowSec : Z) (window : StatWindow)
  (pre : list SegmentRow) (s : SegmentRow) (post : list SegmentRow) :
  match w_seconds window with
  | Some seconds =>
      (forall x, In x pre -> (seg_end_ts x < nowSec - seconds)%Z)
      /\ (nowSec - seconds <= seg_end_ts s)%Z
  | None => pre = []
  end ->
  windowStart (pre ++ s :: post) nowSec window = Some (List.length pre)
  /\ windowBaseValue (map seg_value_index_end (pre ++ s :: post))
                     (List.length pre)
     = match pre with
       | [] => 1
       | _ => seg_value_index_end (last pre s)
       end
  /\ ss_total_return
       (windowStatsRow sqrt ln id (pre ++ s :: post) nowSec window)
     = (if Qleb (match pre with
                 | [] => 1
                 | _ => seg_value_index_end (last pre s)
                 end) 0
           || Qleb (seg_value_index_end (last (s :: post) s)) 0
        then 0
        else seg_value_index_end (last (s :: post) s)
             / match pre with
               | [] => 1
               | _ => seg_value_index_end (last pre s)
               end - 1)
  /\ (w_seconds window = None ->
      0 < seg_value_index_end (last (s :: post) s) ->
      ss_total_return
        (windowStatsRow sqrt ln id (pre ++ s :: post) nowSec window)
      = seg_value_index_end (last (s :: post) s) / 1 - 1).
Proof.
  intros Hcut.
  assert (Hstart :
    windowStart (pre ++ s :: post) nowSec window = Some (List.length pre)).
  { unfold windowStart. destruct (w_seconds window) as [seconds|].
    - destruct Hcut as [Hpre Hs]. apply findIndex_app_first.
      + intros x Hx. apply Z.leb_gt. auto.
      + now apply Z.leb_le.
    - now subst pre. }
  assert (Hbase :
    windowBaseValue (map seg_value_index_end (pre ++ s :: post))
                    (List.length pre)
    = match pre with
      | [] => 1
      | _ => seg_value_index_end (last pre s)
      end).
  { unfold windowBaseValue. destruct pre as [|p0 pre']; [reflexivity|].
    set (pre := p0 :: pre') in *.
    replace (0 <? List.length pre)%nat with true by reflexivity.
    rewrite map_app, app_nth1.
    - apply nth_pred_length_map. discriminate.
    - rewrite length_map. simpl. lia. }
  assert (Hfinal :
    nth (List.length (pre ++ s :: post) - 1)
        (map seg_value_index_end (pre ++ s :: post)) 0
    = seg_value_index_end (last (s :: post) s)).
  { rewrite map_app, app_nth2 by (rewrite length_app, length_map; simpl; lia).
    rewrite length_app, length_map.
    replace (List.length pre + List.length (s :: post) - 1 - List.length pre)%nat
      with (List.length (s :: post) - 1)%nat by (simpl; lia).
    apply nth_pred_length_map. discriminate. }
  assert (Htr :
    ss_total_return
      (windowStatsRow sqrt ln id (pre ++ s :: post) nowSec window)
    = (if Qleb (match pre with
                | [] => 1
                | _ => seg_value_index_end (last pre s)
                end) 0
          || Qleb (seg_value_index_end (last (s :: post) s)) 0
       then 0
       else seg_value_index_end (last (s :: post) s)
            / match pre with
              | [] => 1
              | _ => seg_value_index_end (last pre s)
              end - 1)).
  { unfold windowStatsRow. cbv zeta. rewrite Hstart, Hbase, Hfinal.
    destruct (Qleb _ 0 || Qleb _ 0); [reflexivity|].
    repeat match goal with
           | |- context [if ?c then _ else _] => destruct c
           end; reflexivity. }
  repeat split; try assumption.
  intros Hall Hpos. rewrite Htr. rewrite Hall in Hcut. subst pre.
  replace (Qleb 1 0) with false by reflexivity. cbn [orb].
  apply Qleb_gt in Hpos. now rewrite Hpos.
Qed.

End StatsFacts.

Lemma stats_row_written_for_each_window_witness :
  getStatsRow
    (recomputeStatsForStrategy sqrtApprox lnApprox 1 dayOfSegments 86400 emptyDb)
    1 "1W"
  = Some (windowStatsRow sqrtApprox lnApprox 1 dayOfSegments 86400 WEEK_WINDOW).
Proof.
  apply (stats_row_written_for_each_window sqrtApprox lnApprox 1 dayOfSegments
           86400 emptyDb WEEK_WINDOW).
  - discriminate.
  - simpl. auto.
Defined.

(** C6 as stated fails for a strategy with no segment: the pass returns
    before the loop over the windows, and the store holds no row for it. *)
Lemma no_stats_row_without_segments :
  recomputeStatsForStrategy sqrtApprox lnApprox 1 [] 86400 emptyDb = emptyDb
  /\ getStatsRow
       (recomputeStatsForStrategy sqrtApprox lnApprox 1 [] 86400 emptyDb)
       1 "ALL" = None.
Proof. split; reflexivity. Qed.

Lemma window_base_value_and_total_return_witness :
  ss_total_return
    (windowStatsRow sqrtApprox lnApprox 1
       ([mkSegmentRow 0 3600 3600 (1 # 10) (1 # 10) (11 # 10)]
        ++ mkSegmentRow 3600 7200 3600 0 0 (11 # 10)
           :: [mkSegmentRow 7200 10800 3600 (1 # 11) (1 # 11) (12 # 10)])
       612000 WEEK_WINDOW)
  = (12 # 10) / (11 # 10) - 1.
Proof.
  apply (window_base_value_and_total_return sqrtApprox lnApprox 1 612000
           WEEK_WINDOW
           [mkSegmentRow 0 3600 3600 (1 # 10) (1 # 10) (11 # 10)]
           (mkSegmentRow 3600 7200 3600 0 0 (11 # 10))
           [mkSegmentRow 7200 10800 3600 (1 # 11) (1 # 11) (12 # 10)]).
  cbn [w_seconds WEEK_WINDOW]. split.
  - intros x [<-|[]]. reflexivity.
  - discriminate.
Defined.

(** C7 as stated fails once the value index is zero: the day that ends in
    liquidation has final value 0 and base 1, so [final / base - 1] is -1,
    but the row reports a total return of 0. *)
Lemma total_return_of_liquidated_strategy_is_zero :
  seg_value_index_end (last dayEndingInLiquidation (mkSegmentRow 0 0 0 0 0 0))
  == 0
  /\ windowBaseValue (map seg_value_index_end dayEndingInLiquidation) 0 = 1
  /\ ss_total_return
       (windowStatsRow sqrtApprox lnApprox 1 dayEndingInLiquidation 86400
          ALL_WINDOW) = 0
  /\ seg_value_index_end
       (last dayEndingInLiquidation (mkSegmentRow 0 0 0 0 0 0)) / 1 - 1
     == - (1).
Proof. vm_compute. repeat split. Qed.



(** * Replay: what a pass may change (C4) *)

Lemma sameButSnapshots_refl a : sameButSnapshots a a.
Proof. repeat split. Qed.

Lemma sameButSnapshots_trans a b c :
  sameButSnapshots a b -> sameButSnapshots b c -> sameButSnapshots a c.
Proof.
  unfold sameButSnapshots. intuition congruence.
Qed.

Lemma recordPositionSnapshot_same id buckets meta ts db :
  sameButSnapshots db (recordPositionSnapshot id buckets meta ts db).
Proof.
  unfold recordPositionSnapshot.
  destruct (snapshotPositions buckets meta); repeat split.
Qed.

Lemma applyDueSignals_same id tStart st :
  sameButSnapshots (rp_db st) (rp_db (applyDueSignals id tStart st))
  /\ rp_valueIndex (applyDueSignals id tStart st) = rp_valueIndex st.
Proof.
  apply (applyDueSignals_elim
    (fun id tStart st r =>
       sameButSnapshots (rp_db st) (rp_db r)
       /\ rp_valueIndex r = rp_valueIndex st)); clear.
  - intros. split; [apply sameButSnapshots_refl|reflexivity].
  - intros id tStart buckets meta s rest valueIndex db IH.
    destruct (sg_timestamp s <=? tStart)%Z.
    + destruct IH as [IH1 IH2]. cbn [rp_db rp_valueIndex] in *. split.
      * eapply sameButSnapshots_trans; [|exact IH1].
        unfold dueTurn. cbn [rp_db]. apply recordPositionSnapshot_same.
      * rewrite IH2. reflexivity.
    + split; [apply sameButSnapshots_refl|reflexivity].
Qed.

Lemma applyIntraSignals_same id tEnd series cursorTs st :
  sameButSnapshots (rp_db st)
    (rp_db (fst (applyIntraSignals id tEnd series cursorTs st)))
  /\ rp_valueIndex (fst (applyIntraSignals id tEnd series cursorTs st))
     = rp_valueIndex st.
Proof.
  apply (applyIntraSignals_elim
    (fun id tEnd series cursorTs st r =>
       sameButSnapshots (rp_db st) (rp_db (fst r))
       /\ rp_valueIndex (fst r) = rp_valueIndex st)); clear.
  - intros. split; [apply sameButSnapshots_refl|reflexivity].
  - intros id tEnd series cursorTs buckets meta s rest valueIndex db IH.
    destruct (sg_timestamp s <=? tEnd)%Z.
    + destruct IH as [IH1 IH2]. cbn [rp_db rp_valueIndex fst] in *. split.
      * eapply sameButSnapshots_trans; [|exact IH1].
        unfold intraTurn. cbn [rp_db fst]. apply recordPositionSnapshot_same.
      * rewrite IH2. reflexivity.
    + split; [apply sameButSnapshots_refl|reflexivity].
Qed.

Lemma insertSegmentStmt_effect db id s e d r h v :
  db_strategies (insertSegmentStmt db id s e d r h v) = db_strategies db
  /\ (db_segments (insertSegmentStmt db id s e d r h v) = db_segments db
      \/ db_segments (insertSegmentStmt db id s e d r h v)
         = db_segments db ++ [mkSegmentDbRow id (mkSegmentRow s e d r h v)]).
Proof.
  unfold insertSegmentStmt. destruct (existsb _ _); simpl; auto.
Qed.

Lemma segmentStep_effect strat series st iv :
  (segmentStep strat series st iv = st
   /\ ((snd iv <= fst iv)%Z \/ (snd iv <= st_first_signal_ts strat)%Z))
  \/ ((fst iv < snd iv)%Z /\ (st_first_signal_ts strat < snd iv)%Z
      /\ wroteInterval (st_id strat) iv (rp_db st)
           (rp_db (segmentStep strat series st iv))).
Proof.
  unfold segmentStep. cbv zeta.
  destruct (snd iv <=? fst iv)%Z eqn:E1.
  { left. split; [reflexivity|]. left. now apply Z.leb_le. }
  destruct (snd iv <=? st_first_signal_ts strat)%Z eqn:E2.
  { left. split; [reflexivity|]. right. now apply Z.leb_le. }
  apply Z.leb_gt in E1, E2. right. split; [assumption|split; [assumption|]].
  destruct (applyDueSignals_same (st_id strat) (fst iv) st)
    as [(_ & Hst & _ & Hseg & _) _].
  set (st1 := applyDueSignals (st_id strat) (fst iv) st) in *.
  destruct (Qleb (sumBuckets (rp_buckets st1)) 0).
  - cbn [rp_db]. unfold wroteInterval.
    match goal with
    | |- context [insertSegmentStmt ?db ?i ?s ?e ?d ?r ?h ?v] =>
        destruct (insertSegmentStmt_effect db i s e d r h v) as [Hs' Hg'];
        set (db2 := insertSegmentStmt db i s e d r h v) in *
    end.
    split.
    + eexists. unfold markStrategy, updateStrategyAfterSegmentsStmt.
      cbn [db_strategies withStrategies]. rewrite Hs', <- Hst. reflexivity.
    + cbn [db_segments updateStrategyAfterSegmentsStmt withStrategies].
      rewrite Hseg. destruct Hg' as [->| ->]; [now left|right].
      eexists. split; [reflexivity|split; reflexivity].
  - destruct (applyIntraSignals_same (st_id strat) (snd iv) series (fst iv) st1)
      as [(_ & Hst2 & _ & Hseg2 & _) _].
    set (r := applyIntraSignals (st_id strat) (snd iv) series (fst iv) st1) in *.
    cbn [rp_db]. unfold wroteInterval.
    match goal with
    | |- context [insertSegmentStmt ?db ?i ?s ?e ?d ?r ?h ?v] =>
        destruct (insertSegmentStmt_effect db i s e d r h v) as [Hs' Hg'];
        set (db2 := insertSegmentStmt db i s e d r h v) in *
    end.
    split.
    + eexists. unfold markStrategy, updateStrategyAfterSegmentsStmt.
      cbn [db_strategies withStrategies].
      rewrite Hs', <- Hst2, <- Hst. reflexivity.
    + cbn [db_segments updateStrategyAfterSegmentsStmt withStrategies].
      rewrite Hseg, Hseg2. destruct Hg' as [->| ->]; [now left|right].
      eexists. split; [reflexivity|split; reflexivity].
Qed.

Lemma fold_segmentStep_appends strat series (P : SegmentDbRow -> Prop) l st :
  (forall iv row, In iv l -> (fst iv < snd iv)%Z ->
     seg_start_ts row = fst iv -> seg_end_ts row = snd iv ->
     P (mkSegmentDbRow (st_id strat) row)) ->
  exists new,
    db_segments (rp_db (fold_left (segmentStep strat series) l st))
    = db_segments (rp_db st) ++ new
    /\ Forall P new.
Proof.
  revert st. induction l as [|iv r IH]; intros st HP; simpl.
  - exists []. now rewrite app_nil_r.
  - destruct (IH (segmentStep strat series st iv)) as [new [Hnew HF]].
    { intros iv' row Hin. apply HP. now right. }
    rewrite Hnew.
    destruct (segmentStep_effect strat series st iv)
      as [[-> _]|(Hlt & _ & _ & [->|[row [-> [Hs He]]]])].
    + now exists new.
    + now exists new.
    + exists (mkSegmentDbRow (st_id strat) row :: new).
      rewrite <- app_assoc. split; [reflexivity|].
      constructor; [|assumption]. apply (HP iv row); auto. now left.
Qed.

Lemma markStrategy_watermark id vi e rows r :
  In r (markStrategy id vi e rows) -> st_id r = id ->
  st_last_segment_end_ts r = Some e.
Proof.
  unfold markStrategy, updateStrategyAfterSegmentsStmt.
  cbn [db_strategies withStrategies emptyDb].
  intros Hin Hid. apply in_map_iff in Hin. destruct Hin as [s [Hs _]].
  destruct (st_id s =? id)%Z eqn:E.
  - subst r. reflexivity.
  - subst r. apply Z.eqb_neq in E. contradiction.
Qed.

Lemma persistHoldings_frame id buckets meta db :
  db_strategies (persistHoldings id buckets meta db) = db_strategies db
  /\ db_segments (persistHoldings id buckets meta db) = db_segments db.
Proof.
  unfold persistHoldings.
  set (db0 := deleteHoldingsForStrategyStmt db id).
  change (db_strategies db) with (db_strategies db0).
  change (db_segments db) with (db_segments db0).
  generalize db0. clear db0.
  induction (JsObj.entries buckets) as [|e r IH]; intros db0; simpl.
  - auto.
  - destruct (Qleb (snd e) 0); [apply IH|].
    destruct (IH (upsertHoldingStmt db0 id (toUpperCase (fst e)) (snd e)
                    (pm_direction
                       match JsObj.get meta (toUpperCase (fst e)) with
                       | Some m => m
                       | None => mkPosMeta (if isUsdAsset (fst e) then 0 else 1)
                                           1 (isUsdAsset (fst e))
                       end)
                    (pm_leverage
                       match JsObj.get meta (toUpperCase (fst e)) with
                       | Some m => m
                       | None => mkPosMeta (if isUsdAsset (fst e) then 0 else 1)
                                           1 (isUsdAsset (fst e))
                       end)
                    (if pm_isUsd
                          match JsObj.get meta (toUpperCase (fst e)) with
                          | Some m => m
                          | None => mkPosMeta (if isUsdAsset (fst e) then 0 else 1)
                                              1 (isUsdAsset (fst e))
                          end
                     then 1 else 0)%Z)) as [H1 H2].
    split; [exact H1|exact H2].
Qed.

(** ** The hourly grid *)

Lemma insertUniq_In x y l : In y (insertUniq x l) -> y = x \/ In y l.
Proof.
  induction l as [|a r IH]; simpl.
  - intros [<-|[]]. now left.
  - destruct (x <? a)%Z.
    + intros [<-|H]; auto.
    + destruct (x =? a)%Z; [auto|].
      intros [<-|H]; [auto|]. destruct (IH H); auto.
Qed.

Lemma insertUniq_sorted x l :
  StronglySorted Z.lt l -> StronglySorted Z.lt (insertUniq x l).
Proof.
  induction 1 as [|a r Hs IH Hall]; simpl.
  - repeat constructor.
  - destruct (x <? a)%Z eqn:E1.
    + apply Z.ltb_lt in E1. constructor; [now constructor|].
      constructor; [assumption|].
      eapply Forall_impl; [|exact Hall]. intros; simpl in *; lia.
    + destruct (x =? a)%Z eqn:E2; [now constructor|].
      apply Z.ltb_ge in E1. apply Z.eqb_neq in E2.
      constructor; [assumption|].
      apply Forall_forall. intros y Hy.
      destruct (insertUniq_In _ _ _ Hy) as [->|Hin]; [lia|].
      rewrite Forall_forall in Hall. auto.
Qed.

Lemma hourlyTimestamps_sorted priceRows :
  StronglySorted Z.lt (hourlyTimestamps priceRows).
Proof.
  unfold hourlyTimestamps.
  assert (H : StronglySorted Z.lt []) by constructor.
  revert H. generalize (@nil Z).
  induction priceRows as [|row r IH]; intros acc Hacc; simpl; [assumption|].
  apply IH. destruct (_ =? 0)%Z; [now apply insertUniq_sorted|assumption].
Qed.

Lemma gridMax_cons t0 t1 r : gridMax (t0 :: t1 :: r) = gridMax (t1 :: r).
Proof.
  unfold gridMax. cbn [List.length].
  replace (S (S (List.length r)) - 1)%nat with (S (S (List.length r) - 1))
    by lia.
  reflexivity.
Qed.

Lemma gridIntervals_bounds grid iv m :
  StronglySorted Z.lt grid -> gridMax grid = Some m ->
  In iv (gridIntervals grid) ->
  (fst iv < snd iv)%Z /\ (fst iv < m)%Z /\ In (fst iv) grid.
Proof.
  intros Hs. revert m iv.
  induction Hs as [|t0 rest Hs IH Hall]; intros m iv Hm Hin; [destruct Hin|].
  destruct rest as [|t1 r]; [destruct Hin|].
  rewrite gridMax_cons in Hm.
  change (gridIntervals (t0 :: t1 :: r))
    with ((t0, t1) :: gridIntervals (t1 :: r)) in Hin.
  rewrite Forall_forall in Hall.
  assert (Hmin : In m (t1 :: r)) by (apply nth_error_In in Hm; exact Hm).
  destruct Hin as [<-|Hin].
  - cbn [fst snd]. repeat split.
    + apply Hall. now left.
    + now apply Hall.
    + now left.
  - destruct (IH m iv Hm Hin) as (H1 & H2 & H3). repeat split; auto.
    now right.
Qed.

Lemma gridIntervals_last grid :
  gridIntervals grid <> [] ->
  exists l a m, gridIntervals grid = l ++ [(a, m)] /\ gridMax grid = Some m.
Proof.
  induction grid as [|t0 rest IH]; [intros H; now elim H|].
  destruct rest as [|t1 r]; [intros H; now elim H|]. intros _.
  rewrite gridMax_cons.
  change (gridIntervals (t0 :: t1 :: r))
    with ((t0, t1) :: gridIntervals (t1 :: r)).
  destruct (gridIntervals (t1 :: r)) as [|iv l'] eqn:E.
  - exists [], t0, t1. split; [reflexivity|].
    destruct r as [|t2 r']; [reflexivity|]. discriminate.
  - destruct IH as (l & a & m & Hl & Hm); [discriminate|].
    exists ((t0, t1) :: l), a, m. rewrite Hl. auto.
Qed.

Lemma gridIntervals_increasing grid :
  StronglySorted Z.lt grid ->
  StronglySorted (fun a b => (fst a < fst b)%Z) (gridIntervals grid).
Proof.
  induction 1 as [|t0 rest Hs IH Hall]; [constructor|].
  destruct rest as [|t1 r]; [constructor|].
  change (gridIntervals (t0 :: t1 :: r))
    with ((t0, t1) :: gridIntervals (t1 :: r)).
  constructor; [assumption|].
  apply Forall_forall. intros iv Hiv. cbn [fst].
  destruct (gridMax (t1 :: r)) as [m|] eqn:Em.
  - destruct (gridIntervals_bounds (t1 :: r) iv m Hs Em Hiv) as (_ & _ & Hin).
    rewrite Forall_forall in Hall. now apply Hall.
  - unfold gridMax in Em. apply nth_error_None in Em. simpl in Em. lia.
Qed.

Lemma findIndex_Some {A : Type} (f : A -> bool) (l : list A) i :
  findIndex f l = Some i ->
  exists pre x post,
    l = pre ++ x :: post /\ List.length pre = i /\ f x = true.
Proof.
  revert i. induction l as [|a r IH]; intros i; simpl; [discriminate|].
  destruct (f a) eqn:E.
  - intros [= <-]. exists [], a, r. auto.
  - destruct (findIndex f r) as [j|]; [|discriminate]. intros [= <-].
    destruct (IH j eq_refl) as (pre & x & post & -> & <- & Hx).
    exists (a :: pre), x, post. auto.
Qed.

(** ** A pass, and the pass after it *)

Lemma extend_returnsEarly strat grid series db :
  returnsEarly strat grid db ->
  extendSegmentsForStrategy strat grid series db = db.
Proof.
  unfold extendSegmentsForStrategy, returnsEarly. fold (gridMax grid).
  intros [->|[(m & -> & Hm)| ->]]; [reflexivity| |].
  - destruct (getSignalsForStrategyStmt _ _ _); [reflexivity|].
    now replace (m <=? st_first_signal_ts strat)%Z with true
      by (symmetry; now apply Z.leb_le).
  - destruct (getSignalsForStrategyStmt _ _ _); [reflexivity|].
    now destruct (match gridMax grid with Some _ => _ | None => _ end).
Qed.

Lemma extend_shape strat grid series db :
  returnsEarly strat grid db
  \/ exists i st0,
       findStartIdx strat grid = Some i
       /\ (forall m, gridMax grid = Some m -> (st_first_signal_ts strat < m)%Z)
       /\ rp_db st0 = db
       /\ extendSegmentsForStrategy strat grid series db
          = persistHoldings (st_id strat)
              (rp_buckets (fold_left (segmentStep strat series)
                             (skipn i (gridIntervals grid)) st0))
              (rp_meta (fold_left (segmentStep strat series)
                          (skipn i (gridIntervals grid)) st0))
              (rp_db (fold_left (segmentStep strat series)
                        (skipn i (gridIntervals grid)) st0)).
Proof.
  unfold extendSegmentsForStrategy, returnsEarly. fold (gridMax grid).
  destruct (getSignalsForStrategyStmt _ _ _) as [|s0 sigs];
    [left; left; reflexivity|].
  destruct (gridMax grid) as [m|] eqn:Em.
  - destruct (m <=? st_first_signal_ts strat)%Z eqn:E.
    + left. right. left. exists m. split; [reflexivity|now apply Z.leb_le].
    + destruct (findStartIdx strat grid) as [i|]; [|left; right; right; reflexivity].
      right. eexists i, (mkReplay _ _ _ _ db). apply Z.leb_gt in E.
      split; [reflexivity|]. split; [now intros ? [= <-]|].
      split; reflexivity.
  - destruct (findStartIdx strat grid) as [i|]; [|left; right; right; reflexivity].
    right. eexists i, (mkReplay _ _ _ _ db).
    split; [reflexivity|]. split; [discriminate|]. split; reflexivity.
Qed.

Lemma StronglySorted_after {A : Type} (R : A -> A -> Prop) pre x post :
  StronglySorted R (pre ++ x :: post) -> Forall (R x) post.
Proof.
  induction pre as [|a r IH]; simpl; intros H.
  - now apply StronglySorted_inv in H.
  - apply IH. now apply StronglySorted_inv in H.
Qed.

Lemma suffix_keeps_last {A : Type} (pre s l0 : list A) (z : A) :
  pre ++ s = l0 ++ [z] -> s <> [] -> exists l', s = l' ++ [z].
Proof.
  intros Heq Hs. destruct (exists_last Hs) as (l' & z' & ->).
  rewrite app_assoc in Heq. apply app_inj_tail in Heq.
  destruct Heq as [_ ->]. now exists l'.
Qed.

(** The intervals a pass walks: they lie in the grid, none starts before
    the watermark, and the last one ends at the grid's last timestamp. *)
Lemma startIntervals strat grid i :
  StronglySorted Z.lt grid ->
  findStartIdx strat grid = Some i ->
  (forall iv, In iv (skipn i (gridIntervals grid)) ->
     In iv (gridIntervals grid)
     /\ forall w, st_last_segment_end_ts strat = Some w -> (w <= fst iv)%Z)
  /\ exists l a m,
       skipn i (gridIntervals grid) = l ++ [(a, m)] /\ gridMax grid = Some m.
Proof.
  intros Hs Hfind.
  assert (Hinc := gridIntervals_increasing grid Hs).
  assert (Hsplit : exists pre x post,
            gridIntervals grid = pre ++ x :: post /\ List.length pre = i
            /\ forall w, st_last_segment_end_ts strat = Some w ->
                         (w <= fst x)%Z).
  { unfold findStartIdx in Hfind.
    destruct (st_last_segment_end_ts strat) as [w|].
    - apply findIndex_Some in Hfind.
      destruct Hfind as (pre & x & post & Hl & Hi & Hx).
      exists pre, x, post. repeat split; auto.
      intros w' [= <-]. now apply Z.leb_le.
    - destruct (findIndex _ (gridIntervals grid)) as [j|] eqn:Ej.
      + injection Hfind as <-. apply findIndex_Some in Ej.
        destruct Ej as (pre & x & post & Hl & Hi & Hx).
        exists pre, x, post. repeat split; auto. discriminate.
      + destruct (2 <=? List.length grid)%nat eqn:E2; [|discriminate].
        injection Hfind as <-.
        destruct grid as [|t0 [|t1 r]]; try discriminate.
        cbn [gridIntervals]. exists [], (t0, t1), (gridIntervals (t1 :: r)).
        repeat split; auto. discriminate. }
  destruct Hsplit as (pre & x & post & Hl & Hi & Hx).
  assert (Hskip : skipn i (gridIntervals grid) = x :: post).
  { rewrite Hl, <- Hi. rewrite skipn_app, skipn_all, Nat.sub_diag. reflexivity. }
  rewrite Hskip. split.
  - intros iv Hiv. split.
    + rewrite Hl. apply in_or_app. now right.
    + intros w Hw. specialize (Hx w Hw).
      destruct Hiv as [<-|Hiv]; [assumption|].
      rewrite Hl in Hinc. apply StronglySorted_after in Hinc.
      rename Hinc into Hall. rewrite Forall_forall in Hall. specialize (Hall iv Hiv). lia.
  - destruct (gridIntervals_last grid) as (l0 & a & m & Hl0 & Hm).
    { rewrite Hl. now destruct pre. }
    destruct (suffix_keeps_last pre (x :: post) l0 (a, m)) as [l' Hl'].
    + now rewrite <- Hl.
    + discriminate.
    + exists l', a, m. auto.
Qed.

(** C4: a second pass over the same hourly grid, with the strategy row
    re-read from the store, changes nothing in the store (no segment
    inserted, holdings and watermark as they were); and any pass keeps every
    existing segment row in place and appends only segments of this strategy
    that start at or after the previous watermark and end after it. *)
Theorem extension_pass_idempotent_and_append_only
  (strat : StrategyRow) (priceRows : list PriceRow)
  (series : JsObj.t PriceSeries) (db : Db) :
  getStrategyById db (st_id strat) = Some strat ->
  (forall strat1 series',
      getStrategyById
        (extendSegmentsForStrategy strat (hourlyTimestamps priceRows) series db)
        (st_id strat) = Some strat1 ->
      extendSegmentsForStrategy strat1 (hourlyTimestamps priceRows) series'
        (extendSegmentsForStrategy strat (hourlyTimestamps priceRows) series db)
      = extendSegmentsForStrategy strat (hourlyTimestamps priceRows) series db)
  /\ exists new,
       db_segments
         (extendSegmentsForStrategy strat (hourlyTimestamps priceRows) series db)
       = db_segments db ++ new
       /\ Forall
            (fun r =>
               sgd_strategy_id r = st_id strat
               /\ forall w, st_last_segment_end_ts strat = Some w ->
                    (w <= seg_start_ts (sgd_segment r)
                     < seg_end_ts (sgd_segment r))%Z)
            new.
Proof.
  intros Hrow.
  pose proof (hourlyTimestamps_sorted priceRows) as Hs.
  set (grid := hourlyTimestamps priceRows) in *.
  destruct (extend_shape strat grid series db)
    as [Hearly|(i & st0 & Hfind & Hbeyond & Hdb & Heq)].
  - rewrite (extend_returnsEarly strat grid series db Hearly). split.
    + intros strat1 series' H1. rewrite Hrow in H1. injection H1 as <-.
      now apply extend_returnsEarly.
    + exists []. now rewrite app_nil_r.
  - rewrite Heq.
    destruct (startIntervals strat grid i Hs Hfind)
      as [Hivs (l & a & m & Hl & Hm)].
    set (stF := fold_left (segmentStep strat series)
                  (skipn i (gridIntervals grid)) st0) in *.
    destruct (persistHoldings_frame (st_id strat) (rp_buckets stF)
                (rp_meta stF) (rp_db stF)) as [Hpst Hpsg].
    split.
    + intros strat1 series' H1. apply extend_returnsEarly.
      right. right.
      assert (Hwm : st_last_segment_end_ts strat1 = Some m).
      { unfold getStrategyById in H1. rewrite Hpst in H1.
        apply find_some in H1. destruct H1 as [Hin Hid].
        apply Z.eqb_eq in Hid.
        subst stF. rewrite Hl, fold_left_app in Hin. cbn [fold_left] in Hin.
        destruct (gridIntervals_bounds grid (a, m) m Hs Hm) as (Ham & _ & _).
        { apply Hivs. rewrite Hl. apply in_or_app. right. now left. }
        cbn [fst snd] in Ham.
        destruct (segmentStep_effect strat series
                    (fold_left (segmentStep strat series) l st0) (a, m))
          as [[_ [Hbad|Hbad]]|(_ & _ & [[vi Hmark] _])];
          cbn [fst snd] in *.
        - lia.
        - specialize (Hbeyond m Hm). lia.
        - rewrite Hmark in Hin.
          eapply markStrategy_watermark; eauto. }
      unfold findStartIdx. rewrite Hwm.
      apply findIndex_None. intros iv Hiv. apply Z.leb_gt.
      now destruct (gridIntervals_bounds grid iv m Hs Hm Hiv) as (_ & ? & _).
    + rewrite Hpsg. subst stF. rewrite <- Hdb.
      apply fold_segmentStep_appends.
      intros iv row Hin Hlt Hstart Hend. cbn [sgd_strategy_id sgd_segment].
      split; [reflexivity|]. intros w Hw.
      destruct (Hivs iv Hin) as [_ Hge]. specialize (Hge w Hw). lia.
Qed.

Lemma extension_pass_idempotent_and_append_only_witness :
  extendSegmentsForStrategy liquidationStrategyReread
    (hourlyTimestamps (db_prices liquidationDb)) []
    (extendSegmentsForStrategy liquidationStrategy
       (hourlyTimestamps (db_prices liquidationDb))
       (buildPriceSeries (db_prices liquidationDb)) liquidationDb)
  = extendSegmentsForStrategy liquidationStrategy
      (hourlyTimestamps (db_prices liquidationDb))
      (buildPriceSeries (db_prices liquidationDb)) liquidationDb.
Proof.
  assert (H0 : getStrategyById liquidationDb (st_id liquidationStrategy)
               = Some liquidationStrategy) by reflexivity.
  assert (H1 : getStrategyById
                 (extendSegmentsForStrategy liquidationStrategy
                    (hourlyTimestamps (db_prices liquidationDb))
                    (buildPriceSeries (db_prices liquidationDb)) liquidationDb)
                 (st_id liquidationStrategy)
               = Some liquidationStrategyReread)
    by (vm_compute; reflexivity).
  exact (proj1 (extension_pass_idempotent_and_append_only liquidationStrategy
                  (db_prices liquidationDb)
                  (buildPriceSeries (db_prices liquidationDb)) liquidationDb
                  H0)
           liquidationStrategyReread [] H1).
Defined.

Example liquidation_replay_twice :
  extendAllStrategySegments (extendAllStrategySegments liquidationDb)
  = extendAllStrategySegments liquidationDb.
Proof. vm_compute. reflexivity. Qed.

(** C10 as stated fails for its last part: the strategy of [liquidationDb]
    has lost all equity by 3600 (value index 0 from then on), and a pass
    over the three hours still writes the exact snapshot of its signal at
    5000, 100% ETH: that pass applies the signal at the start of the third
    hour, which restarts the holdings, before the snapshot is taken. *)
Lemma zero_equity_strategy_gets_replay_snapshot :
  segmentSummary (extendAllStrategySegments liquidationDb)
  = [(0%Z, 3600%Z, - (1), 0); (3600%Z, 7200%Z, 0, 0);
     (7200%Z, 10800%Z, 1 # 10, 0)]
  /\ snapshotSummary (extendAllStrategySegments liquidationDb)
     = [(0%Z, [("BTC", 100)]); (5000%Z, [("ETH", 100)])].
Proof. vm_compute. split; reflexivity. Qed.

(** The input of C1 is reached by a replay: all in cash with equity 2 at
    7200, the USD signal at 9000 costs the strategy 60% of its equity. *)
Example cash_target_replay :
  segmentSummary (extendAllStrategySegments cashTargetDb)
  = [(0%Z, 3600%Z, 1, 2); (3600%Z, 7200%Z, 0, 2);
     (7200%Z, 10800%Z, - (3 # 5), 4 # 5)]
  /\ snapshotSummary (extendAllStrategySegments cashTargetDb)
     = [(0%Z, [("BTC", 100)]); (3600%Z, [("USD", 100)]);
        (9000%Z, [("USD", 100)])].
Proof. vm_compute. split; reflexivity. Qed.

(** * Further properties of the engine *)

(** ** Clamping and the numeric helpers *)

Lemma Qfloor_lt_Z w (z : Z) : w < inject_Z z <-> (Qfloor w < z)%Z.
Proof.
  split; intros H.
  - pose proof (Qfloor_le w) as Hf.
    assert (Hlt : inject_Z (Qfloor w) < inject_Z z) by lra.
    now rewrite <- Zlt_Qlt in Hlt.
  - pose proof (Qlt_floor w) as Hlt.
    assert (Hz : inject_Z (Qfloor w + 1) <= inject_Z z)
      by (rewrite <- Zle_Qle; lia).
    lra.
Qed.

Lemma Qfloor_ge_Z w (z : Z) : inject_Z z <= w <-> (z <= Qfloor w)%Z.
Proof.
  split; intros H.
  - rewrite <- (Qfloor_Z z). now apply Qfloor_resp_le.
  - pose proof (Qfloor_le w) as Hle.
    assert (Hz : inject_Z z <= inject_Z (Qfloor w))
      by (rewrite <- Zle_Qle; lia).
    lra.
Qed.

Lemma Qdiv100_le0 (z : Z) : inject_Z z / 100 <= 0 <-> (z <= 0)%Z.
Proof.
  rewrite Zle_Qle. change (inject_Z 0) with 0. split; intros H.
  - assert (H' : inject_Z z / 100 * 100 <= 0 * 100)
      by (apply Qmult_le_compat_r; [assumption|discriminate]).
    assert (E : inject_Z z / 100 * 100 == inject_Z z) by field.
    rewrite E in H'. lra.
  - apply Qle_shift_div_r; [reflexivity|lra].
Qed.

Lemma Qdiv100_ge1 (z : Z) : 1 <= inject_Z z / 100 <-> (100 <= z)%Z.
Proof.
  rewrite Zle_Qle. change (inject_Z 100) with 100. split; intros H.
  - assert (H' : 1 * 100 <= inject_Z z / 100 * 100)
      by (apply Qmult_le_compat_r; [assumption|discriminate]).
    assert (E : inject_Z z / 100 * 100 == inject_Z z) by field.
    rewrite E in H'. lra.
  - apply Qle_shift_div_l; [reflexivity|lra].
Qed.

(** X1: [clampPct] gives a fraction between 0 and 1 in steps of 1/100: 0 for
    every weight below 1 (so a fractional weight is a full exit), 1 from 100
    on, and [floor(w)/100] in between. *)
Theorem clampPct_steps (w : Q) :
  0 <= clampPct w <= 1
  /\ (exists n, (0 <= n <= 100)%Z /\ clampPct w = inject_Z n / 100)
  /\ (w < 1 <-> clampPct w <= 0)
  /\ (100 <= w <-> 1 <= clampPct w)
  /\ (1 <= w -> w < 100 -> clampPct w = inject_Z (Qfloor w) / 100).
Proof.
  split; [apply clampPct_bounds|].
  unfold clampPct. cbv zeta.
  pose proof (Qfloor_lt_Z w 1) as Hlt1.
  pose proof (Qfloor_ge_Z w 100) as Hge100.
  pose proof (Qfloor_ge_Z w 1) as Hge1.
  pose proof (Qfloor_lt_Z w 100) as Hlt100.
  change (inject_Z 1) with 1 in *. change (inject_Z 100) with 100 in *.
  set (z := Z.max 0 (Z.min 100 (Qfloor w))).
  assert (Hz : z = Z.max 0 (Z.min 100 (Qfloor w))) by reflexivity.
  clearbody z.
  repeat split.
  - exists z. split; [lia|reflexivity].
  - intros H. apply (proj2 (Qdiv100_le0 z)). apply (proj1 Hlt1) in H. lia.
  - intros H. apply (proj1 (Qdiv100_le0 z)) in H. apply (proj2 Hlt1). lia.
  - intros H. apply (proj2 (Qdiv100_ge1 z)). apply (proj1 Hge100) in H. lia.
  - intros H. apply (proj1 (Qdiv100_ge1 z)) in H. apply (proj2 Hge100). lia.
  - intros H1 H100. apply (proj1 Hge1) in H1. apply (proj1 Hlt100) in H100.
    now replace z with (Qfloor w) by lia.
Qed.

Lemma clampLeverage_range (leverage : Q) :
  (exists n, (1 <= n <= 5)%Z /\ clampLeverage leverage = inject_Z n)
  /\ (leverage < 2 -> clampLeverage leverage = 1)
  /\ (5 <= leverage -> clampLeverage leverage = 5)
  /\ (1 <= leverage -> leverage < 6 ->
      clampLeverage leverage = inject_Z (Qfloor leverage)).
Proof.
  unfold clampLeverage.
  pose proof (Qfloor_lt_Z leverage 2) as Hlt2.
  pose proof (Qfloor_ge_Z leverage 5) as Hge5.
  pose proof (Qfloor_ge_Z leverage 1) as Hge1.
  pose proof (Qfloor_lt_Z leverage 6) as Hlt6.
  change (inject_Z 1) with 1 in *. change (inject_Z 2) with 2 in *.
  change (inject_Z 5) with 5 in *. change (inject_Z 6) with 6 in *.
  repeat split.
  - exists (Z.max 1 (Z.min 5 (Qfloor leverage))). split; [lia|reflexivity].
  - intros H. apply (proj1 Hlt2) in H.
    now replace (Z.max 1 (Z.min 5 (Qfloor leverage))) with 1%Z by lia.
  - intros H. apply (proj1 Hge5) in H.
    now replace (Z.max 1 (Z.min 5 (Qfloor leverage))) with 5%Z by lia.
  - intros H1 H6. apply (proj1 Hge1) in H1. apply (proj1 Hlt6) in H6.
    now replace (Z.max 1 (Z.min 5 (Qfloor leverage))) with (Qfloor leverage)
      by lia.
Qed.

(** X2: The maturity multiplier is 0 up to zero hours, grows as [hours / 720],
    is 1 from 720 hours on, and never decreases with the hours. *)
Theorem maturityMultiplier_ramp (h h' : Q) :
  0 <= maturityMultiplier h <= 1
  /\ (h <= 0 -> maturityMultiplier h = 0)
  /\ (0 < h -> h <= 720 -> maturityMultiplier h == h / 720)
  /\ (720 <= h -> maturityMultiplier h == 1)
  /\ (h <= h' -> maturityMultiplier h <= maturityMultiplier h').
Proof.
  assert (Hval : forall x,
    (x <= 0 -> maturityMultiplier x = 0)
    /\ (0 < x -> x <= 720 -> maturityMultiplier x == x / 720)
    /\ (720 <= x -> maturityMultiplier x == 1)).
  { intros x. repeat split.
    - intros H. unfold maturityMultiplier. apply Qleb_le in H. now rewrite H.
    - intros H0 H1. rewrite maturityMultiplier_clamp. unfold clamp01.
      assert (x / 720 <= 1) by (apply Qle_shift_div_r; [reflexivity|lra]).
      assert (0 <= x / 720) by (apply Qle_shift_div_l; [reflexivity|lra]).
      rewrite Q.min_r by assumption. now rewrite Q.max_r.
    - intros H. rewrite maturityMultiplier_clamp. unfold clamp01.
      assert (1 <= x / 720) by (apply Qle_shift_div_l; [reflexivity|lra]).
      rewrite Q.min_l by assumption. now rewrite Q.max_r. }
  assert (Hrange : forall x, 0 <= maturityMultiplier x <= 1).
  { intros x. destruct (Hval x) as (H0 & H1 & H2).
    destruct (Qlt_le_dec 0 x) as [Hpos|Hneg].
    - destruct (Qlt_le_dec 720 x) as [Hbig|Hsmall].
      + rewrite H2 by lra. lra.
      + rewrite H1 by assumption.
        split; [apply Qle_shift_div_l|apply Qle_shift_div_r];
          try reflexivity; lra.
    - rewrite H0 by assumption. lra. }
  destruct (Hval h) as (H0 & H1 & H2).
  split; [apply Hrange|]. split; [exact H0|]. split; [exact H1|].
  split; [exact H2|].
  intros Hle. destruct (Hval h') as (H0' & H1' & H2').
  destruct (Qlt_le_dec 0 h) as [Hpos|Hneg].
  - destruct (Qlt_le_dec 720 h') as [Hbig'|Hsmall'].
    + rewrite (H2' ltac:(lra)). apply Hrange.
    + rewrite H1, H1' by lra. unfold Qdiv.
      apply Qmult_le_compat_r; [assumption|discriminate].
  - rewrite H0 by assumption. apply Hrange.
Qed.

Lemma maxDrawdownLoop_range vals baseValue peak maxDD :
  0 < baseValue -> Forall (fun v => 0 <= v) vals ->
  1 <= peak -> 0 <= maxDD <= 1 ->
  0 <= maxDrawdownLoop vals baseValue peak maxDD <= 1.
Proof.
  intros Hb Hall. revert peak maxDD.
  induction Hall as [|v r Hv _ IH]; intros peak maxDD Hp Hm; simpl;
    [assumption|].
  assert (Heq : 0 <= v / baseValue)
    by (apply Qle_shift_div_l; [assumption|lra]).
  set (eq := v / baseValue) in *.
  set (peak' := if Qltb peak eq then eq else peak).
  assert (Hp' : 1 <= peak' /\ eq <= peak').
  { subst peak'. destruct (Qltb peak eq) eqn:E.
    - apply Qltb_lt in E. lra.
    - apply Qltb_ge in E. lra. }
  destruct Hp' as [Hp1 Hp2].
  assert (Hdd : 0 <= (peak' - eq) / peak' <= 1).
  { split; [apply Qle_shift_div_l|apply Qle_shift_div_r]; lra. }
  apply IH; [assumption|].
  destruct (Qltb maxDD ((peak' - eq) / peak')); assumption.
Qed.

Lemma maxDrawdownLoop_rising vals baseValue peak :
  0 < baseValue -> 1 <= peak ->
  StronglySorted Qle vals ->
  Forall (fun v => peak <= v / baseValue) vals ->
  maxDrawdownLoop vals baseValue peak 0 = 0.
Proof.
  intros Hb. revert peak.
  induction vals as [|v r IH]; intros peak Hp Hs Hall; simpl; [reflexivity|].
  inversion Hs as [|? ? Hs' Hle]; subst.
  inversion Hall as [|? ? Hv Hall']; subst.
  set (eq := v / baseValue) in *.
  set (peak' := if Qltb peak eq then eq else peak).
  assert (Hp' : peak' == eq).
  { subst peak'. destruct (Qltb peak eq) eqn:E; [reflexivity|].
    apply Qltb_ge in E. lra. }
  assert (Hdd : Qltb 0 ((peak' - eq) / peak') = false).
  { apply Qltb_ge. rewrite Hp'. unfold Qdiv.
    setoid_replace (eq - eq) with 0 by ring. rewrite Qmult_0_l. lra. }
  rewrite Hdd. apply IH; [|assumption|].
  - subst peak'. destruct (Qltb peak eq) eqn:E; [|assumption].
    apply Qltb_lt in E. lra.
  - apply Forall_forall. intros x Hx.
    rewrite Forall_forall in Hle. specialize (Hle x Hx).
    rewrite Hp'. subst eq. unfold Qdiv.
    apply Qmult_le_compat_r; [assumption|].
    apply Qlt_le_weak. now apply Qinv_lt_0_compat.
Qed.

(** X3: The maximum drawdown of a window lies between 0 and 1 when no value
    index is negative and the base value is positive, and it is 0 when the
    value index never falls (it starts at or above the base and never
    decreases). *)
Theorem computeMaxDrawdown_range (valueIdx : list Q) (i0 : nat) (baseValue : Q) :
  0 < baseValue ->
  Forall (fun v => 0 <= v) valueIdx ->
  0 <= computeMaxDrawdown valueIdx i0 baseValue <= 1
  /\ (StronglySorted Qle (skipn i0 valueIdx) ->
      Forall (fun v => baseValue <= v) (skipn i0 valueIdx) ->
      computeMaxDrawdown valueIdx i0 baseValue = 0).
Proof.
  intros Hb Hall. unfold computeMaxDrawdown.
  assert (Hskip : Forall (fun v => 0 <= v) (skipn i0 valueIdx)).
  { apply Forall_forall. intros x Hx. rewrite Forall_forall in Hall.
    apply Hall. rewrite <- (firstn_skipn i0 valueIdx).
    apply in_or_app. now right. }
  split.
  - apply maxDrawdownLoop_range; auto; lra.
  - intros Hs Hge. apply maxDrawdownLoop_rising; auto; [lra|].
    eapply Forall_impl; [|exact Hge]. intros v Hv. cbv beta in *.
    apply Qle_shift_div_l; lra.
Qed.

Lemma computeMaxDrawdown_range_witness :
  0 <= computeMaxDrawdown [11 # 10; 9 # 10; 12 # 10] 0 1 <= 1.
Proof.
  apply (computeMaxDrawdown_range [11 # 10; 9 # 10; 12 # 10] 0 1).
  - reflexivity.
  - repeat constructor; discriminate.
Defined.

(** ** Holdings stay valid *)

Lemma upperKeys_keys {V : Type} (o : JsObj.t V) :
  upperKeys o <-> Forall (fun k => toUpperCase k = k) (JsObj.keys o).
Proof.
  unfold upperKeys, JsObj.keys. now rewrite Forall_map.
Qed.

Lemma keys_del_incl {V : Type} (o : JsObj.t V) k x :
  In x (JsObj.keys (JsObj.del o k)) -> In x (JsObj.keys o).
Proof.
  induction o as [|[k0 v0] r IH]; simpl; [tauto|].
  destruct (String.eqb k0 k); simpl; intuition.
Qed.

Lemma wf_del {V : Type} (o : JsObj.t V) k :
  JsObj.wf o -> JsObj.wf (JsObj.del o k).
Proof.
  unfold JsObj.wf. induction o as [|[k0 v0] r IH]; simpl; intros Hnd;
    [constructor|].
  inversion Hnd as [|? ? Hnotin Hnd']; subst.
  destruct (String.eqb k0 k); [auto|]. simpl. constructor; [|auto].
  intros Hin. apply Hnotin. eapply keys_del_incl; eauto.
Qed.

Lemma del_Forall {V : Type} (P : string * V -> Prop) (o : JsObj.t V) k :
  Forall P o -> Forall P (JsObj.del o k).
Proof.
  induction 1 as [|[k0 v0] r Hx _ IH]; simpl; [constructor|].
  destruct (String.eqb k0 k); [assumption|now constructor].
Qed.

Lemma set_Forall {V : Type} (P : string * V -> Prop) (o : JsObj.t V) k v :
  Forall P o -> (forall k', P (k', v)) -> Forall P (JsObj.set o k v).
Proof.
  intros Ho Hv. induction Ho as [|[k0 v0] r Hx Hr IH]; simpl.
  - repeat constructor. apply Hv.
  - destruct (String.eqb k0 k); constructor; auto.
Qed.

Lemma upperKeys_set {V : Type} (o : JsObj.t V) k v :
  upperKeys o -> toUpperCase k = k -> upperKeys (JsObj.set o k v).
Proof.
  intros Ho Hk. unfold upperKeys in *.
  induction Ho as [|[k0 v0] r Hx Hr IH]; simpl.
  - repeat constructor. exact Hk.
  - destruct (String.eqb k0 k); constructor; auto.
Qed.

Lemma wf_filter {V : Type} (f : string * V -> bool) (o : JsObj.t V) :
  JsObj.wf o -> JsObj.wf (filter f o).
Proof.
  unfold JsObj.wf. induction o as [|e r IH]; simpl; intros Hnd; [constructor|].
  inversion Hnd as [|? ? Hnotin Hnd']; subst.
  destruct (f e); [|auto]. simpl. constructor; [|auto].
  intros Hin. apply Hnotin. unfold JsObj.keys in *.
  apply in_map_iff in Hin. destruct Hin as [x [Hx Hin]].
  apply filter_In in Hin. apply in_map_iff. exists x. tauto.
Qed.

Lemma filter_Forall {A : Type} (P : A -> Prop) (f : A -> bool) (l : list A) :
  Forall P l -> Forall P (filter f l).
Proof.
  intros H. apply Forall_forall. intros x Hx. apply filter_In in Hx.
  rewrite Forall_forall in H. now apply H.
Qed.

Lemma validHoldings_scaleOthers asset c buckets :
  0 <= c -> validHoldings buckets -> validHoldings (scaleOthers asset c buckets).
Proof.
  intros Hc (Hwf & Hup & Hnn). repeat split.
  - unfold JsObj.wf. now rewrite keys_scaleOthers.
  - apply upperKeys_keys. rewrite keys_scaleOthers. now apply upperKeys_keys.
  - unfold nonNegative, scaleOthers. apply Forall_map.
    eapply Forall_impl; [|exact Hnn]. intros [k v] Hv. cbn [fst snd] in *.
    destruct (String.eqb k asset); cbn [snd]; [assumption|].
    now apply Qmult_le_0_compat.
Qed.

Lemma validHoldings_set buckets k v :
  toUpperCase k = k -> 0 <= v -> validHoldings buckets ->
  validHoldings (JsObj.set buckets k v).
Proof.
  intros Hk Hv (Hwf & Hup & Hnn). repeat split.
  - now apply wf_set.
  - now apply upperKeys_set.
  - apply set_Forall; auto.
Qed.

Lemma validHoldings_del buckets k :
  validHoldings buckets -> validHoldings (JsObj.del buckets k).
Proof.
  intros (Hwf & Hup & Hnn). repeat split.
  - now apply wf_del.
  - now apply del_Forall.
  - now apply del_Forall.
Qed.

Lemma bucketOr0_nonneg buckets k : nonNegative buckets -> 0 <= bucketOr0 buckets k.
Proof.
  intros Hnn. unfold bucketOr0.
  destruct (JsObj.get buckets k) as [v|] eqn:E; [|apply Qle_refl].
  apply JsObjFacts.get_In in E. unfold nonNegative in Hnn.
  rewrite Forall_forall in Hnn. now apply (Hnn (k, v)).
Qed.

Lemma applySignalTargetPct_valid buckets meta params :
  validHoldings buckets ->
  validHoldings (fst (applySignalTargetPct buckets meta params)).
Proof.
  intros Hv.
  unfold applySignalTargetPct.
  destruct (negb (isSupportedAsset _)); [exact Hv|].
  set (asset := toUpperCase (p_asset params)).
  assert (Hup : toUpperCase asset = asset) by apply toUpperCase_idem.
  destruct (Qleb (sumBuckets buckets) 0 || isBrandNewSeed buckets) eqn:Eflat.
  - cbn [fst].
    destruct (validHoldings_set buckets asset 1 Hup ltac:(discriminate) Hv)
      as (Hwf & Hupk & Hnn).
    repeat split.
    + now apply wf_filter.
    + now apply filter_Forall.
    + now apply filter_Forall.
  - cbv zeta. apply orb_false_iff in Eflat. destruct Eflat as [HT _].
    apply Qleb_gt in HT.
    pose proof (clampPct_bounds (p_weight_raw params)) as [Hp0 Hp1].
    set (pct := clampPct (p_weight_raw params)) in *.
    set (T := sumBuckets buckets) in *.
    assert (Hd1 : pct * T <= T) by nra.
    set (bm := if Qltb 0 (T - bucketOr0 buckets asset) then _ else _).
    assert (Hbm : validHoldings (fst bm)).
    { subst bm. destruct (Qltb 0 (T - bucketOr0 buckets asset)) eqn:Eo.
      - cbn [fst]. apply Qltb_lt in Eo. apply validHoldings_scaleOthers; auto.
        apply Qle_shift_div_l; [assumption|lra].
      - destruct (Qltb 0 (T - pct * T)) eqn:Ed; cbn [fst]; [|exact Hv].
        apply Qltb_lt in Ed. apply validHoldings_set; auto.
        destruct Hv as (_ & _ & Hnn).
        pose proof (bucketOr0_nonneg buckets "USD" Hnn). lra. }
    clearbody bm.
    destruct (Qleb (pct * T) 0) eqn:Ed; cbn [fst].
    + now apply validHoldings_del.
    + apply Qleb_gt in Ed. apply validHoldings_set; auto. lra.
Qed.

(** X4: A signal keeps the holdings valid, whatever it asks for: keys stay
    unique and upper case, no bucket and hence no total turns negative. *)
Theorem applySignalTargetPct_keeps_holdings_valid
  (buckets : Buckets) (meta : Metas) (params : SignalParams) :
  validHoldings buckets ->
  validHoldings (fst (applySignalTargetPct buckets meta params))
  /\ 0 <= sumBuckets (fst (applySignalTargetPct buckets meta params)).
Proof.
  intros Hv.
  pose proof (applySignalTargetPct_valid buckets meta params Hv) as Hres.
  split; [exact Hres|]. apply sumBuckets_nonneg. apply Hres.
Qed.

Lemma applySignalTargetPct_keeps_holdings_valid_witness :
  validHoldings
    (fst (applySignalTargetPct [("BTC", 6 # 5); ("USD", 0)]
            [("BTC", mkPosMeta 1 1 false)] (mkSignalParams "sol" 1 3 25)))
  /\ 0 <= sumBuckets
            (fst (applySignalTargetPct [("BTC", 6 # 5); ("USD", 0)]
                    [("BTC", mkPosMeta 1 1 false)]
                    (mkSignalParams "sol" 1 3 25))).
Proof.
  apply (applySignalTargetPct_keeps_holdings_valid
           [("BTC", 6 # 5); ("USD", 0)] [("BTC", mkPosMeta 1 1 false)]
           (mkSignalParams "sol" 1 3 25)).
  repeat split.
  - unfold JsObj.wf. simpl. repeat constructor; simpl; intuition discriminate.
  - repeat constructor.
  - repeat constructor; simpl; discriminate.
Defined.

Lemma driftEntry_keys series meta t0 t1 (buckets : Buckets) e :
  In (fst e) (JsObj.keys buckets) -> toUpperCase (fst e) = fst e ->
  JsObj.keys (driftEntry series meta t0 t1 buckets e) = JsObj.keys buckets.
Proof.
  intros Hin Hup. unfold driftEntry. rewrite Hup.
  destruct (Qleb (snd e) 0); [reflexivity|].
  destruct (isUsdAsset _); [reflexivity|].
  destruct (priceAtOrBefore _ t0); [|reflexivity].
  destruct (priceAtOrBefore _ t1); [|reflexivity].
  destruct (Qleb q 0); [reflexivity|].
  cbv zeta. now apply keys_set_in.
Qed.

Lemma driftEntry_nonNegative series meta t0 t1 (buckets : Buckets) e :
  nonNegative buckets -> nonNegative (driftEntry series meta t0 t1 buckets e).
Proof.
  intros Hnn. unfold driftEntry.
  destruct (Qleb (snd e) 0) eqn:Ev; [assumption|]. apply Qleb_gt in Ev.
  destruct (isUsdAsset _); [assumption|].
  destruct (priceAtOrBefore _ t0); [|assumption].
  destruct (priceAtOrBefore _ t1); [|assumption].
  destruct (Qleb q 0); [assumption|].
  cbv zeta. apply set_Forall; [assumption|]. intros k'. cbn [snd].
  match goal with |- context [Qleb ?m 0] => destruct (Qleb m 0) eqn:Em end.
  - apply Qle_refl.
  - apply Qleb_gt in Em. apply Qmult_le_0_compat; lra.
Qed.

Lemma drift_fold_keys series meta t0 t1 (l buckets : Buckets) :
  (forall e, In e l ->
     In (fst e) (JsObj.keys buckets) /\ toUpperCase (fst e) = fst e) ->
  nonNegative buckets ->
  JsObj.keys (fold_left (driftEntry series meta t0 t1) l buckets)
  = JsObj.keys buckets
  /\ nonNegative (fold_left (driftEntry series meta t0 t1) l buckets).
Proof.
  revert buckets. induction l as [|e r IH]; intros buckets Hl Hnn; simpl;
    [auto|].
  destruct (Hl e (or_introl eq_refl)) as [Hin Hup].
  pose proof (driftEntry_keys series meta t0 t1 buckets e Hin Hup) as Hk.
  destruct (IH (driftEntry series meta t0 t1 buckets e)) as [H1 H2].
  - intros e' He'. rewrite Hk. apply Hl. now right.
  - now apply driftEntry_nonNegative.
  - split; [congruence|assumption].
Qed.

Lemma drift_valid series meta t0 t1 buckets :
  validHoldings buckets ->
  validHoldings (drift series meta t0 t1 buckets)
  /\ JsObj.keys (drift series meta t0 t1 buckets) = JsObj.keys buckets.
Proof.
  intros (Hwf & Hup & Hnn).
  assert (Hk : JsObj.keys (drift series meta t0 t1 buckets) = JsObj.keys buckets
               /\ nonNegative (drift series meta t0 t1 buckets)).
  { unfold drift. destruct (t1 <=? t0)%Z; [auto|].
    apply drift_fold_keys; [|assumption].
    intros e He. split.
    - unfold JsObj.keys. now apply in_map.
    - unfold upperKeys in Hup. rewrite Forall_forall in Hup. now apply Hup. }
  destruct Hk as [Hk Hnn'].
  repeat split; auto.
  - unfold JsObj.wf. now rewrite Hk.
  - apply upperKeys_keys. rewrite Hk. now apply upperKeys_keys.
Qed.

(** X5: Price drift keeps the holdings valid and never adds or removes a
    bucket; over an empty or reversed interval it does nothing. *)
Theorem drift_keeps_holdings_valid
  (series : JsObj.t PriceSeries) (meta : Metas) (t0 t1 : Z)
  (buckets : Buckets) :
  validHoldings buckets ->
  validHoldings (drift series meta t0 t1 buckets)
  /\ JsObj.keys (drift series meta t0 t1 buckets) = JsObj.keys buckets
  /\ 0 <= sumBuckets (drift series meta t0 t1 buckets)
  /\ ((t1 <= t0)%Z -> drift series meta t0 t1 buckets = buckets).
Proof.
  intros Hv. destruct (drift_valid series meta t0 t1 buckets Hv) as [Hv' Hk].
  repeat split; try apply Hv'; auto.
  - apply sumBuckets_nonneg. apply Hv'.
  - intros Hle. unfold drift. apply Z.leb_le in Hle. now rewrite Hle.
Qed.

Lemma drift_keeps_holdings_valid_witness :
  JsObj.keys
    (drift [("BTC", mkPriceSeries [0; 3600]%Z [100; 70])]
           [("BTC", mkPosMeta 1 5 false)] 0 3600 [("BTC", 1); ("USD", 1 # 2)])
  = JsObj.keys [("BTC", 1); ("USD", 1 # 2)].
Proof.
  apply (drift_keeps_holdings_valid
           [("BTC", mkPriceSeries [0; 3600]%Z [100; 70])]
           [("BTC", mkPosMeta 1 5 false)] 0 3600
           [("BTC", 1); ("USD", 1 # 2)]).
  repeat split.
  - unfold JsObj.wf. simpl. repeat constructor; simpl; intuition discriminate.
  - repeat constructor.
  - repeat constructor; simpl; discriminate.
Defined.

(** ** The price series and the hourly grid a pass is given *)

Lemma seriesOfRows_snoc rows row sym :
  seriesOfRows (rows ++ [row]) sym
  = if String.eqb (toUpperCase (pr_asset_symbol row)) sym
    then Some (pushPrice
                 match seriesOfRows rows sym with
                 | Some s => s
                 | None => mkPriceSeries [] []
                 end row)
    else seriesOfRows rows sym.
Proof.
  unfold seriesOfRows, rowsOfSymbol. rewrite filter_app. cbn [filter].
  destruct (String.eqb (toUpperCase (pr_asset_symbol row)) sym).
  - destruct (filter _ rows) as [|r0 l].
    + reflexivity.
    + unfold pushPrice. cbn [app ps_ts ps_px map]. rewrite !map_app.
      reflexivity.
  - now rewrite app_nil_r.
Qed.

Lemma buildPriceSeries_fold rows pre (out : JsObj.t PriceSeries) :
  (forall sym, JsObj.get out sym = seriesOfRows pre sym) ->
  forall sym,
    JsObj.get
      (fold_left
         (fun out row =>
            let sym := toUpperCase (pr_asset_symbol row) in
            let cur := match JsObj.get out sym with
                       | Some s => s
                       | None => mkPriceSeries [] []
                       end in
            JsObj.set out sym (pushPrice cur row))
         rows out) sym
    = seriesOfRows (pre ++ rows) sym.
Proof.
  revert pre out. induction rows as [|row r IH]; intros pre out Hout sym.
  - rewrite app_nil_r. apply Hout.
  - cbn [fold_left]. replace (pre ++ row :: r) with ((pre ++ [row]) ++ r)
      by (now rewrite <- app_assoc).
    apply IH. clear sym. intros sym. cbv zeta.
    rewrite seriesOfRows_snoc.
    destruct (String.eqb (toUpperCase (pr_asset_symbol row)) sym) eqn:E.
    + apply String.eqb_eq in E. rewrite E.
      rewrite JsObjFacts.get_set_same. now rewrite Hout.
    + apply String.eqb_neq in E.
      rewrite JsObjFacts.get_set_other by congruence. apply Hout.
Qed.

Lemma insertBy_In {A : Type} (key : A -> Z) x y (l : list A) :
  In y (insertBy key x l) <-> y = x \/ In y l.
Proof.
  induction l as [|a r IH]; simpl.
  - intuition.
  - destruct (key x <? key a)%Z; simpl; [intuition|].
    rewrite IH. intuition.
Qed.

Lemma insertBy_sorted {A : Type} (key : A -> Z) x (l : list A) :
  StronglySorted (fun a b => (key a <= key b)%Z) l ->
  StronglySorted (fun a b => (key a <= key b)%Z) (insertBy key x l).
Proof.
  induction 1 as [|a r Hs IH Hall]; simpl.
  - repeat constructor.
  - destruct (key x <? key a)%Z eqn:E.
    + apply Z.ltb_lt in E. constructor; [now constructor|].
      constructor; [lia|].
      eapply Forall_impl; [|exact Hall]. intros; simpl in *; lia.
    + apply Z.ltb_ge in E. constructor; [assumption|].
      apply Forall_forall. intros y Hy. apply insertBy_In in Hy.
      destruct Hy as [->|Hy]; [assumption|].
      rewrite Forall_forall in Hall. auto.
Qed.

Lemma orderBy_sorted {A : Type} (key : A -> Z) (l : list A) :
  StronglySorted (fun a b => (key a <= key b)%Z) (orderBy key l).
Proof.
  unfold orderBy.
  assert (H : StronglySorted (fun a b => (key a <= key b)%Z) []) by constructor.
  revert H. generalize (@nil A).
  induction l as [|x r IH]; intros acc Hacc; simpl; [assumption|].
  apply IH. now apply insertBy_sorted.
Qed.

Lemma orderBy_In {A : Type} (key : A -> Z) (l : list A) x :
  In x (orderBy key l) <-> In x l.
Proof.
  unfold orderBy.
  assert (H : forall acc, In x (fold_left (fun acc x => insertBy key x acc) l acc)
                          <-> In x acc \/ In x l).
  { induction l as [|a r IH]; intros acc; simpl; [tauto|].
    rewrite IH, insertBy_In. intuition. }
  rewrite H. simpl. tauto.
Qed.

Lemma insertByText_perm {A : Type} (key : A -> string) x (l : list A) :
  Permutation (insertByText key x l) (x :: l).
Proof.
  induction l as [|a r IH]; simpl; [reflexivity|].
  destruct (String.ltb (key x) (key a)); [reflexivity|].
  rewrite IH. apply perm_swap.
Qed.

(** The ordered answer holds the rows of the table, each as often. *)
Lemma orderByText_perm {A : Type} (key : A -> string) (l : list A) :
  Permutation (orderByText key l) l.
Proof.
  unfold orderByText.
  assert (H : forall acc,
             Permutation (fold_left (fun acc x => insertByText key x acc) l acc)
                         (acc ++ l)).
  { induction l as [|a r IH]; intros acc; simpl.
    - now rewrite app_nil_r.
    - rewrite IH, insertByText_perm. apply Permutation_middle. }
  apply (H []).
Qed.

Lemma orderByText_In {A : Type} (key : A -> string) (l : list A) x :
  In x (orderByText key l) <-> In x l.
Proof.
  split; apply Permutation_in;
    [apply orderByText_perm|symmetry; apply orderByText_perm].
Qed.

(** The holdings rows a strategy reads are its rows of the table. *)
Lemma getHoldingsForStrategyStmt_In db id h :
  In h (getHoldingsForStrategyStmt db id)
  <-> exists r, In r (db_holdings db) /\ hdb_strategy_id r = id
                /\ hdb_holding r = h.
Proof.
  unfold getHoldingsForStrategyStmt.
  rewrite orderByText_In, in_map_iff. split.
  - intros (r & Hh & Hr). apply filter_In in Hr. destruct Hr as [Hin Hid].
    apply Z.eqb_eq in Hid. exists r. auto.
  - intros (r & Hin & Hid & Hh). exists r. split; [assumption|].
    apply filter_In. split; [assumption|]. now apply Z.eqb_eq.
Qed.

Lemma StronglySorted_filter {A : Type} (R : A -> A -> Prop) f (l : list A) :
  StronglySorted R l -> StronglySorted R (filter f l).
Proof.
  induction 1 as [|a r Hs IH Hall]; simpl; [constructor|].
  destruct (f a); [|assumption]. constructor; [assumption|].
  now apply filter_Forall.
Qed.

Lemma StronglySorted_map_key {A : Type} (key : A -> Z) (l : list A) :
  StronglySorted (fun a b => (key a <= key b)%Z) l ->
  StronglySorted Z.le (map key l).
Proof.
  induction 1 as [|a r Hs IH Hall]; simpl; constructor; [assumption|].
  now apply Forall_map.
Qed.

(** X6: The series a pass looks prices up in: for every symbol,
    [buildPriceSeries] over the price rows in timestamp order holds exactly
    that symbol's rows (symbols compared in upper case), so its timestamps
    ascend, its two arrays have one length and it is never empty; a symbol
    without a row has no series. These are the conditions under which
    [priceAtOrBefore] finds the latest sample. *)
Theorem buildPriceSeries_per_symbol (db : Db) (sym : string) :
  JsObj.get (buildPriceSeries (getAllPriceRowsStmt db)) sym
  = seriesOfRows (getAllPriceRowsStmt db) sym
  /\ (JsObj.get (buildPriceSeries (getAllPriceRowsStmt db)) sym = None <->
      forall r, In r (db_prices db) -> toUpperCase (pr_asset_symbol r) <> sym)
  /\ (forall s,
        JsObj.get (buildPriceSeries (getAllPriceRowsStmt db)) sym = Some s ->
        StronglySorted Z.le (ps_ts s)
        /\ List.length (ps_px s) = List.length (ps_ts s)
        /\ ps_ts s <> []).
Proof.
  assert (Hget : JsObj.get (buildPriceSeries (getAllPriceRowsStmt db)) sym
                 = seriesOfRows (getAllPriceRowsStmt db) sym).
  { unfold buildPriceSeries.
    apply (buildPriceSeries_fold (getAllPriceRowsStmt db) [] []).
    reflexivity. }
  rewrite Hget. split; [reflexivity|]. unfold seriesOfRows.
  pose proof (orderBy_sorted pr_timestamp (db_prices db)) as Hs.
  fold (getAllPriceRowsStmt db) in Hs.
  apply (StronglySorted_filter _
           (fun r => String.eqb (toUpperCase (pr_asset_symbol r)) sym)) in Hs.
  fold (rowsOfSymbol sym (getAllPriceRowsStmt db)) in Hs.
  split.
  - split.
    + intros Hnone r Hr Heq.
      assert (Hin : In r (rowsOfSymbol sym (getAllPriceRowsStmt db))).
      { apply filter_In. split.
        - unfold getAllPriceRowsStmt. now apply orderBy_In.
        - now apply String.eqb_eq. }
      destruct (rowsOfSymbol sym (getAllPriceRowsStmt db));
        [destruct Hin|discriminate].
    + intros Hall.
      destruct (rowsOfSymbol sym (getAllPriceRowsStmt db)) as [|r l] eqn:E;
        [reflexivity|].
      assert (Hin : In r (rowsOfSymbol sym (getAllPriceRowsStmt db)))
        by (rewrite E; now left).
      apply filter_In in Hin. destruct Hin as [Hin Heq].
      apply String.eqb_eq in Heq. unfold getAllPriceRowsStmt in Hin.
      apply orderBy_In in Hin. exfalso. exact (Hall r Hin Heq).
  - intros s Hsome.
    destruct (rowsOfSymbol sym (getAllPriceRowsStmt db)) as [|r l];
      [discriminate|].
    injection Hsome as <-. cbn [ps_ts ps_px]. repeat split.
    + now apply (StronglySorted_map_key pr_timestamp (r :: l)).
    + cbn [List.length]. now rewrite !length_map.
    + discriminate.
Qed.

Lemma insertUniq_In_iff x y l : In y (insertUniq x l) <-> y = x \/ In y l.
Proof.
  split; [apply insertUniq_In|].
  induction l as [|a r IH]; simpl.
  - intros [->|[]]. now left.
  - destruct (x <? a)%Z eqn:E1; [simpl; intuition|].
    destruct (x =? a)%Z eqn:E2.
    + apply Z.eqb_eq in E2. subst. simpl. intuition.
    + simpl. intuition.
Qed.

(** X7: The hourly grid holds exactly the timestamps of the price rows that
    fall on an hour boundary, each once, in strictly ascending order. *)
Theorem hourlyTimestamps_exactly_the_hours (priceRows : list PriceRow) :
  StronglySorted Z.lt (hourlyTimestamps priceRows)
  /\ forall t,
       In t (hourlyTimestamps priceRows) <->
       exists r, In r priceRows /\ pr_timestamp r = t /\ Z.rem t 3600 = 0%Z.
Proof.
  split; [apply hourlyTimestamps_sorted|].
  intros t. unfold hourlyTimestamps.
  assert (H : forall acc,
    In t (fold_left
            (fun acc row =>
               if (Z.rem (pr_timestamp row) 3600 =? 0)%Z
               then insertUniq (pr_timestamp row) acc else acc)
            priceRows acc)
    <-> In t acc
        \/ exists r, In r priceRows /\ pr_timestamp r = t
                     /\ Z.rem t 3600 = 0%Z).
  { induction priceRows as [|row r IH]; intros acc; simpl.
    - split; [auto|]. intros [H|(x & [] & _)]. exact H.
    - rewrite IH. destruct (Z.rem (pr_timestamp row) 3600 =? 0)%Z eqn:E.
      + apply Z.eqb_eq in E. rewrite insertUniq_In_iff. split.
        * intros [[->|H]|(x & Hx & Ht & Hr)]; eauto 6.
        * intros [H|(x & [<-|Hx] & Ht & Hr)]; eauto 6.
      + apply Z.eqb_neq in E. split.
        * intros [H|(x & Hx & Ht & Hr)]; eauto 6.
        * intros [H|(x & [<-|Hx] & Ht & Hr)]; eauto 6.
          subst t. contradiction. }
  rewrite H. simpl. tauto.
Qed.

(** ** The signal loops of a pass *)

Lemma applySignalsAt_valid ts sigs b m :
  validHoldings b -> validHoldings (fst (fst (applySignalsAt ts sigs b m))).
Proof.
  revert b m. induction sigs as [|s rest IH]; intros b m Hv; simpl; [exact Hv|].
  destruct (sg_timestamp s =? ts)%Z; [|exact Hv].
  apply IH. now apply applySignalTargetPct_valid.
Qed.

Lemma applySignalsAt_split ts sigs b m :
  exists done,
    sigs = done ++ snd (applySignalsAt ts sigs b m)
    /\ Forall (fun s => sg_timestamp s = ts) done.
Proof.
  revert b m. induction sigs as [|s rest IH]; intros b m; simpl.
  - exists []. auto.
  - destruct (sg_timestamp s =? ts)%Z eqn:E.
    + destruct (IH (fst (applySignalTargetPct b m (paramsOfSignal s)))
                   (snd (applySignalTargetPct b m (paramsOfSignal s))))
        as (done & Hd & Hall).
      exists (s :: done). split.
      * simpl. now rewrite <- Hd.
      * constructor; [now apply Z.eqb_eq|assumption].
    + exists []. auto.
Qed.

Lemma consumedUpTo_refl t (sigs : list SignalRow) :
  match sigs with [] => True | s :: _ => (t < sg_timestamp s)%Z end ->
  consumedUpTo t sigs sigs.
Proof. intros H. exists []. auto. Qed.

Lemma consumedUpTo_step t sigs mid rest :
  (exists done, sigs = done ++ mid
                /\ Forall (fun s => (sg_timestamp s <= t)%Z) done) ->
  consumedUpTo t mid rest -> consumedUpTo t sigs rest.
Proof.
  intros (d1 & -> & H1) (d2 & -> & H2 & H3).
  exists (d1 ++ d2). rewrite app_assoc. repeat split; auto.
  apply Forall_app. auto.
Qed.

Lemma applySignalsAt_consumes t s rest b m :
  (sg_timestamp s <= t)%Z ->
  exists done,
    s :: rest = done ++ snd (applySignalsAt (sg_timestamp s) (s :: rest) b m)
    /\ Forall (fun x => (sg_timestamp x <= t)%Z) done.
Proof.
  intros Hle.
  destruct (applySignalsAt_split (sg_timestamp s) (s :: rest) b m)
    as (done & Hd & Hall).
  exists done. split; [exact Hd|].
  eapply Forall_impl; [|exact Hall]. simpl. intros x ->. exact Hle.
Qed.

Lemma applyDueSignals_consumes id tStart st :
  consumedUpTo tStart (rp_pending st)
    (rp_pending (applyDueSignals id tStart st))
  /\ (validHoldings (rp_buckets st) ->
      validHoldings (rp_buckets (applyDueSignals id tStart st))).
Proof.
  apply (applyDueSignals_elim
    (fun id tStart st r =>
       consumedUpTo tStart (rp_pending st) (rp_pending r)
       /\ (validHoldings (rp_buckets st) -> validHoldings (rp_buckets r))));
    clear.
  - intros. split; [now apply consumedUpTo_refl|auto].
  - intros id tStart buckets meta s rest valueIndex db IH.
    destruct (sg_timestamp s <=? tStart)%Z eqn:E.
    + apply Z.leb_le in E. destruct IH as [IH1 IH2].
      cbn [rp_pending rp_buckets] in *. split.
      * eapply consumedUpTo_step; [|exact IH1].
        unfold dueTurn. cbn [rp_pending].
        now apply applySignalsAt_consumes.
      * intros Hv. apply IH2. unfold dueTurn. cbn [rp_buckets].
        now apply applySignalsAt_valid.
    + apply Z.leb_gt in E. split; [|auto].
      apply consumedUpTo_refl. exact E.
Qed.

Lemma applyIntraSignals_consumes id tEnd series cursorTs st :
  consumedUpTo tEnd (rp_pending st)
    (rp_pending (fst (applyIntraSignals id tEnd series cursorTs st)))
  /\ (validHoldings (rp_buckets st) ->
      validHoldings
        (rp_buckets (fst (applyIntraSignals id tEnd series cursorTs st))))
  /\ (cursorTs <= snd (applyIntraSignals id tEnd series cursorTs st))%Z
  /\ ((cursorTs <= tEnd)%Z ->
      (snd (applyIntraSignals id tEnd series cursorTs st) <= tEnd)%Z).
Proof.
  apply (applyIntraSignals_elim
    (fun id tEnd series cursorTs st r =>
       consumedUpTo tEnd (rp_pending st) (rp_pending (fst r))
       /\ (validHoldings (rp_buckets st) -> validHoldings (rp_buckets (fst r)))
       /\ (cursorTs <= snd r)%Z
       /\ ((cursorTs <= tEnd)%Z -> (snd r <= tEnd)%Z)));
    clear.
  - intros. cbn [fst snd rp_pending rp_buckets].
    split; [now apply consumedUpTo_refl|].
    split; [auto|]. split; [lia|auto].
  - intros id tEnd series cursorTs buckets meta s rest valueIndex db IH.
    destruct (sg_timestamp s <=? tEnd)%Z eqn:E.
    + apply Z.leb_le in E. destruct IH as (IH1 & IH2 & IH3 & IH4).
      unfold intraTurn in *. cbn [rp_pending rp_buckets fst snd] in *.
      split; [|split; [|split]].
      * eapply consumedUpTo_step; [|exact IH1].
        now apply applySignalsAt_consumes.
      * intros Hv. apply IH2. apply applySignalsAt_valid.
        destruct (cursorTs <? sg_timestamp s)%Z; [|exact Hv].
        now apply drift_valid.
      * destruct (cursorTs <? sg_timestamp s)%Z eqn:Ec; [|exact IH3].
        apply Z.ltb_lt in Ec. lia.
      * intros Hc. apply IH4.
        destruct (cursorTs <? sg_timestamp s)%Z; [exact E|exact Hc].
    + apply Z.leb_gt in E. cbn [fst snd rp_pending rp_buckets].
      split; [apply consumedUpTo_refl; exact E|].
      split; [auto|]. split; [lia|auto].
Qed.

Lemma fastForwardSignals_consumes w sigs meta :
  consumedUpTo w sigs (snd (fastForwardSignals w sigs meta)).
Proof.
  revert meta. induction sigs as [|s rest IH]; intros meta; simpl.
  - now apply consumedUpTo_refl.
  - destruct (sg_timestamp s <=? w)%Z eqn:E.
    + apply Z.leb_le in E.
      eapply consumedUpTo_step; [|apply IH].
      exists [s]. split; [reflexivity|]. now constructor.
    + apply Z.leb_gt in E. now apply consumedUpTo_refl.
Qed.

Lemma consumedUpTo_sorted t sigs rest :
  StronglySorted (fun a b => (sg_timestamp a <= sg_timestamp b)%Z) sigs ->
  consumedUpTo t sigs rest ->
  rest = filter (fun s => (t <? sg_timestamp s)%Z) sigs
  /\ StronglySorted (fun a b => (sg_timestamp a <= sg_timestamp b)%Z) rest.
Proof.
  intros Hs (done & -> & Hdone & Hhead).
  assert (Hrest : StronglySorted
                    (fun a b => (sg_timestamp a <= sg_timestamp b)%Z) rest).
  { clear Hdone. induction done as [|d r IH]; [exact Hs|].
    apply IH. now apply StronglySorted_inv in Hs. }
  split; [|exact Hrest].
  rewrite filter_app.
  assert (H1 : filter (fun s => (t <? sg_timestamp s)%Z) done = []).
  { clear Hs. induction Hdone as [|d r Hd _ IH]; [reflexivity|]. simpl.
    apply Z.ltb_ge in Hd. now rewrite Hd. }
  rewrite H1. simpl.
  destruct rest as [|s r]; [reflexivity|].
  apply StronglySorted_inv in Hrest. destruct Hrest as [_ Hall].
  assert (Hall' : Forall (fun x => (t < sg_timestamp x)%Z) (s :: r)).
  { constructor; [exact Hhead|].
    eapply Forall_impl; [|exact Hall]. simpl. intros; lia. }
  clear - Hall'. symmetry.
  induction Hall' as [|x l Hx _ IH]; [reflexivity|]. simpl.
  apply Z.ltb_lt in Hx. now rewrite Hx, IH.
Qed.

(** X8: Each signal loop of a pass stops exactly at its time limit: with the
    pending signals in timestamp order, the resume loop leaves the signals
    stamped after the watermark, the pre-loop of an interval those stamped
    after its start, and the intra-interval loop those stamped after its end;
    the last also never moves the drift cursor backwards or past the end. *)
Theorem signal_loops_stop_at_their_limit
  (id : Z) (series : JsObj.t PriceSeries) (tStart tEnd : Z) (st : Replay)
  (meta0 : Metas) :
  StronglySorted (fun a b => (sg_timestamp a <= sg_timestamp b)%Z)
                 (rp_pending st) ->
  (tStart <= tEnd)%Z ->
  snd (fastForwardSignals tStart (rp_pending st) meta0)
  = filter (fun s => (tStart <? sg_timestamp s)%Z) (rp_pending st)
  /\ rp_pending (applyDueSignals id tStart st)
     = filter (fun s => (tStart <? sg_timestamp s)%Z) (rp_pending st)
  /\ rp_pending (fst (applyIntraSignals id tEnd series tStart st))
     = filter (fun s => (tEnd <? sg_timestamp s)%Z) (rp_pending st)
  /\ (tStart <= snd (applyIntraSignals id tEnd series tStart st) <= tEnd)%Z.
Proof.
  intros Hs Hle. repeat split.
  - apply consumedUpTo_sorted; [exact Hs|]. apply fastForwardSignals_consumes.
  - apply consumedUpTo_sorted; [exact Hs|]. apply applyDueSignals_consumes.
  - apply consumedUpTo_sorted; [exact Hs|]. apply applyIntraSignals_consumes.
  - apply applyIntraSignals_consumes.
  - now apply applyIntraSignals_consumes.
Qed.

Lemma signal_loops_stop_at_their_limit_witness :
  rp_pending
    (applyDueSignals 1 100
       (mkReplay [("USD", 1)] [("USD", CASH_META)]
          [mkSignalRow "BTC" 0 2 60 100; mkSignalRow "ETH" 1 1 30 100;
           mkSignalRow "BTC" 0 1 0 200; mkSignalRow "SOL" 0 1 10 300]
          1 emptyDb))
  = filter (fun s => (100 <? sg_timestamp s)%Z)
      [mkSignalRow "BTC" 0 2 60 100; mkSignalRow "ETH" 1 1 30 100;
       mkSignalRow "BTC" 0 1 0 200; mkSignalRow "SOL" 0 1 10 300].
Proof.
  assert (Hs : StronglySorted
                 (fun a b => (sg_timestamp a <= sg_timestamp b)%Z)
                 (rp_pending
                    (mkReplay [("USD", 1)] [("USD", CASH_META)]
                       [mkSignalRow "BTC" 0 2 60 100;
                        mkSignalRow "ETH" 1 1 30 100;
                        mkSignalRow "BTC" 0 1 0 200;
                        mkSignalRow "SOL" 0 1 10 300] 1 emptyDb))).
  { cbn [rp_pending]. repeat constructor; simpl; lia. }
  assert (Hle : (100 <= 200)%Z) by lia.
  exact (proj1 (proj2
    (signal_loops_stop_at_their_limit 1 [] 100 200
       (mkReplay [("USD", 1)] [("USD", CASH_META)]
          [mkSignalRow "BTC" 0 2 60 100; mkSignalRow "ETH" 1 1 30 100;
           mkSignalRow "BTC" 0 1 0 200; mkSignalRow "SOL" 0 1 10 300]
          1 emptyDb) [] Hs Hle))).
Defined.

(** ** The invariants of a pass *)

Lemma markStrategy_twice id v1 e1 v2 e2 rows :
  markStrategy id v2 e2 (markStrategy id v1 e1 rows)
  = markStrategy id v2 e2 rows.
Proof.
  unfold markStrategy, updateStrategyAfterSegmentsStmt.
  cbn [db_strategies withStrategies emptyDb]. rewrite map_map.
  apply map_ext. intros s. destruct (st_id s =? id)%Z eqn:E.
  - cbn [st_id]. now rewrite E.
  - now rewrite E.
Qed.

Lemma markStrategy_value id vi e rows r :
  In r (markStrategy id vi e rows) -> st_id r = id ->
  st_last_value_index r = vi.
Proof.
  unfold markStrategy, updateStrategyAfterSegmentsStmt.
  cbn [db_strategies withStrategies emptyDb].
  intros Hin Hid. apply in_map_iff in Hin. destruct Hin as [s [Hs _]].
  destruct (st_id s =? id)%Z eqn:E.
  - subst r. reflexivity.
  - subst r. apply Z.eqb_neq in E. contradiction.
Qed.

Lemma Qdiv_nonneg a b : 0 <= a -> 0 < b -> 0 <= a / b.
Proof.
  intros Ha Hb. unfold Qdiv. apply Qmult_le_0_compat; [assumption|].
  apply Qlt_le_weak. now apply Qinv_lt_0_compat.
Qed.

Lemma durationHours_pos (a b : Z) : (a < b)%Z -> 0 < inject_Z (b - a) / 3600.
Proof.
  intros H. apply Qlt_shift_div_l; [reflexivity|].
  rewrite Qmult_0_l. change 0 with (inject_Z 0). rewrite <- Zlt_Qlt. lia.
Qed.

Lemma insertSegmentStmt_fresh db id s e d r h v :
  existsb (sameSegmentKey id s e) (db_segments db) = false ->
  db_segments (insertSegmentStmt db id s e d r h v)
  = db_segments db ++ [mkSegmentDbRow id (mkSegmentRow s e d r h v)].
Proof.
  unfold insertSegmentStmt. intros ->. reflexivity.
Qed.

(** One interval of the walk: skipped, or a well-formed row computed for it
    (and inserted unless its key is taken), the value index compounded by
    its raw return, and the strategy row marked. *)
Lemma segmentStep_spec strat series st iv :
  validHoldings (rp_buckets st) -> 0 <= rp_valueIndex st ->
  segmentStep strat series st iv = st
  \/ exists row,
       wellFormedSegment (st_first_signal_ts strat) row
       /\ seg_start_ts row = fst iv /\ seg_end_ts row = snd iv
       /\ seg_value_index_end row
          = rp_valueIndex (segmentStep strat series st iv)
       /\ rp_valueIndex (segmentStep strat series st iv)
          == rp_valueIndex st * (1 + seg_raw_return row)
       /\ validHoldings (rp_buckets (segmentStep strat series st iv))
       /\ db_strategies (rp_db (segmentStep strat series st iv))
          = markStrategy (st_id strat)
              (rp_valueIndex (segmentStep strat series st iv)) (snd iv)
              (db_strategies (rp_db st))
       /\ (db_segments (rp_db (segmentStep strat series st iv))
           = db_segments (rp_db st)
           \/ db_segments (rp_db (segmentStep strat series st iv))
              = db_segments (rp_db st) ++ [mkSegmentDbRow (st_id strat) row])
       /\ (existsb (sameSegmentKey (st_id strat) (fst iv) (snd iv))
                   (db_segments (rp_db st)) = false ->
           db_segments (rp_db (segmentStep strat series st iv))
           = db_segments (rp_db st) ++ [mkSegmentDbRow (st_id strat) row]).
Proof.
  intros Hv Hvi. unfold segmentStep. cbv zeta.
  destruct (snd iv <=? fst iv)%Z eqn:E1; [now left|].
  destruct (snd iv <=? st_first_signal_ts strat)%Z eqn:E2; [now left|].
  apply Z.leb_gt in E1, E2. right.
  destruct (applyDueSignals_same (st_id strat) (fst iv) st)
    as [(_ & Hst & _ & Hseg & _) Hvi1].
  destruct (applyDueSignals_consumes (st_id strat) (fst iv) st) as [_ Hv1].
  specialize (Hv1 Hv).
  set (st1 := applyDueSignals (st_id strat) (fst iv) st) in *.
  pose proof (durationHours_pos (fst iv) (snd iv) E1) as Hdur.
  destruct (Qleb (sumBuckets (rp_buckets st1)) 0) eqn:Eq.
  - cbn [rp_db rp_valueIndex rp_buckets].
    match goal with
    | |- context [insertSegmentStmt ?db ?i ?s ?e ?d ?r ?h ?v] =>
        destruct (insertSegmentStmt_effect db i s e d r h v) as [Hs' Hg'];
        pose proof (insertSegmentStmt_fresh db i s e d r h v) as Hf';
        set (db2 := insertSegmentStmt db i s e d r h v) in *
    end.
    exists (mkSegmentRow (fst iv) (snd iv) (snd iv - fst iv) 0 0
              (rp_valueIndex st1)).
    split; [|split; [reflexivity|split; [reflexivity|split; [reflexivity|]]]].
    { unfold wellFormedSegment.
      cbn [seg_start_ts seg_end_ts seg_duration_sec seg_raw_return
           seg_value_index_end seg_hourly_equiv_ret].
      split; [assumption|]. split; [assumption|]. split; [reflexivity|].
      split; [lra|]. split; [rewrite Hvi1; exact Hvi|].
      apply Qmult_0_l. }
    cbn [seg_raw_return]. split; [rewrite Hvi1; ring|].
    split; [exact Hv1|]. split; [|split].
    + unfold markStrategy, updateStrategyAfterSegmentsStmt.
      cbn [db_strategies withStrategies emptyDb]. rewrite Hs', <- Hst.
      reflexivity.
    + cbn [db_segments updateStrategyAfterSegmentsStmt withStrategies].
      rewrite Hseg. destruct Hg' as [->| ->]; [now left|now right].
    + cbn [db_segments updateStrategyAfterSegmentsStmt withStrategies].
      rewrite Hseg. exact Hf'.
  - apply Qleb_gt in Eq.
    destruct (applyIntraSignals_same (st_id strat) (snd iv) series (fst iv) st1)
      as [(_ & Hst2 & _ & Hseg2 & _) Hvi2].
    destruct (applyIntraSignals_consumes (st_id strat) (snd iv) series
                (fst iv) st1) as (_ & Hv2 & _ & _).
    specialize (Hv2 Hv1).
    set (r := applyIntraSignals (st_id strat) (snd iv) series (fst iv) st1)
      in *.
    destruct (drift_valid series (rp_meta (fst r)) (snd r) (snd iv)
                (rp_buckets (fst r)) Hv2) as [Hv3 _].
    set (b3 := drift series (rp_meta (fst r)) (snd r) (snd iv)
                 (rp_buckets (fst r))) in *.
    assert (Hend : 0 <= sumBuckets b3) by (apply sumBuckets_nonneg; apply Hv3).
    assert (Hq : 0 <= sumBuckets b3 / sumBuckets (rp_buckets st1))
      by now apply Qdiv_nonneg.
    pose proof Hdur as Hdurb. apply Qltb_lt in Hdurb. rewrite Hdurb.
    cbn [rp_db rp_valueIndex rp_buckets].
    match goal with
    | |- context [insertSegmentStmt ?db ?i ?s ?e ?d ?r ?h ?v] =>
        destruct (insertSegmentStmt_effect db i s e d r h v) as [Hs' Hg'];
        pose proof (insertSegmentStmt_fresh db i s e d r h v) as Hf';
        set (db2 := insertSegmentStmt db i s e d r h v) in *
    end.
    exists (mkSegmentRow (fst iv) (snd iv) (snd iv - fst iv)
              (sumBuckets b3 / sumBuckets (rp_buckets st1) - 1)
              ((sumBuckets b3 / sumBuckets (rp_buckets st1) - 1)
               / (inject_Z (snd iv - fst iv) / 3600))
              (rp_valueIndex st1
               * (1 + (sumBuckets b3 / sumBuckets (rp_buckets st1) - 1)))).
    split; [|split; [reflexivity|split; [reflexivity|split; [reflexivity|]]]].
    { unfold wellFormedSegment.
      cbn [seg_start_ts seg_end_ts seg_duration_sec seg_raw_return
           seg_value_index_end seg_hourly_equiv_ret].
      split; [assumption|]. split; [assumption|]. split; [reflexivity|].
      split; [lra|]. split.
      - rewrite Hvi1. apply Qmult_le_0_compat; [assumption|lra].
      - field. split.
        + intro H0. rewrite H0 in Eq. now apply Qlt_irrefl in Eq.
        + change 0 with (inject_Z 0). rewrite inject_Z_injective. lia. }
    cbn [seg_raw_return]. split; [rewrite Hvi1; reflexivity|].
    split; [exact Hv3|]. split; [|split].
    + unfold markStrategy, updateStrategyAfterSegmentsStmt.
      cbn [db_strategies withStrategies emptyDb].
      rewrite Hs', <- Hst2, <- Hst. reflexivity.
    + cbn [db_segments updateStrategyAfterSegmentsStmt withStrategies].
      rewrite Hseg, Hseg2. destruct Hg' as [->| ->]; [now left|now right].
    + cbn [db_segments updateStrategyAfterSegmentsStmt withStrategies].
      rewrite Hseg, Hseg2. exact Hf'.
Qed.

Lemma fold_segmentStep_inv strat series l st :
  validHoldings (rp_buckets st) -> 0 <= rp_valueIndex st ->
  validHoldings (rp_buckets (fold_left (segmentStep strat series) l st))
  /\ 0 <= rp_valueIndex (fold_left (segmentStep strat series) l st)
  /\ (exists new,
        db_segments (rp_db (fold_left (segmentStep strat series) l st))
        = db_segments (rp_db st) ++ new
        /\ Forall (fun r => sgd_strategy_id r = st_id strat
                            /\ wellFormedSegment (st_first_signal_ts strat)
                                 (sgd_segment r)) new)
  /\ (fold_left (segmentStep strat series) l st = st
      \/ exists e,
           db_strategies (rp_db (fold_left (segmentStep strat series) l st))
           = markStrategy (st_id strat)
               (rp_valueIndex (fold_left (segmentStep strat series) l st)) e
               (db_strategies (rp_db st))).
Proof.
  revert st. induction l as [|iv r IH]; intros st Hv Hvi; simpl.
  - split; [assumption|]. split; [assumption|]. split; [|now left].
    exists []. now rewrite app_nil_r.
  - destruct (segmentStep_spec strat series st iv Hv Hvi)
      as [->|(row & Hwf & _ & _ & Hval & _ & Hv' & Hst & Hseg & _)];
      [now apply IH|].
    assert (Hvi' : 0 <= rp_valueIndex (segmentStep strat series st iv)).
    { rewrite <- Hval. apply Hwf. }
    destruct (IH _ Hv' Hvi') as (H1 & H2 & (new & Hnew & Hall) & H4).
    split; [assumption|]. split; [assumption|]. split.
    + rewrite Hnew. destruct Hseg as [->| ->].
      * now exists new.
      * exists (mkSegmentDbRow (st_id strat) row :: new).
        rewrite <- app_assoc. split; [reflexivity|].
        constructor; [|assumption]. now split.
    + right. destruct H4 as [->|[e ->]].
      * eexists. exact Hst.
      * exists e. rewrite Hst. apply markStrategy_twice.
Qed.

Lemma upsertBy_In {A : Type} (same : A -> bool) (row : A) (l : list A) x :
  In x (upsertBy same row l) -> x = row \/ In x l.
Proof.
  unfold upsertBy. destruct (existsb same l).
  - intros H. apply in_map_iff in H. destruct H as (y & Hy & Hin).
    destruct (same y); [now left|subst; now right].
  - intros H. apply in_app_or in H. destruct H as [H|[<-|[]]]; auto.
Qed.

Lemma persistHoldings_rows id buckets meta db r :
  In r (db_holdings (persistHoldings id buckets meta db)) ->
  (hdb_strategy_id r <> id /\ In r (db_holdings db))
  \/ (hdb_strategy_id r = id /\ 0 < hd_value (hdb_holding r)).
Proof.
  unfold persistHoldings.
  assert (H0 : forall x, In x (db_holdings (deleteHoldingsForStrategyStmt db id))
               -> (hdb_strategy_id x <> id /\ In x (db_holdings db))
                  \/ (hdb_strategy_id x = id /\ 0 < hd_value (hdb_holding x))).
  { intros x Hx. unfold deleteHoldingsForStrategyStmt in Hx.
    cbn [db_holdings withHoldings] in Hx. apply filter_In in Hx.
    destruct Hx as [Hin Hne]. left. split; [|assumption].
    apply negb_true_iff in Hne. now apply Z.eqb_neq. }
  revert H0. generalize (deleteHoldingsForStrategyStmt db id).
  induction (JsObj.entries buckets) as [|e l IH]; intros db0 H0; simpl.
  - apply H0.
  - apply IH. destruct (Qleb (snd e) 0) eqn:E; [exact H0|].
    apply Qleb_gt in E. intros x Hx. unfold upsertHoldingStmt in Hx.
    cbn [db_holdings withHoldings] in Hx. apply upsertBy_In in Hx.
    destruct Hx as [->|Hx]; [|now apply H0].
    right. split; [reflexivity|exact E].
Qed.

Lemma resumeHoldings_valid rows :
  Forall (fun h => 0 <= hd_value h) rows ->
  validHoldings (fst (resumeHoldings rows)).
Proof.
  unfold resumeHoldings.
  assert (H0 : validHoldings (fst (@nil (string * Q), @nil (string * PosMeta)))).
  { repeat split; constructor. }
  revert H0. generalize (@nil (string * Q), @nil (string * PosMeta)).
  induction rows as [|r l IH]; intros bm H0 Hall; simpl; [exact H0|].
  inversion Hall as [|? ? Hr Hl]; subst.
  apply IH; [|assumption]. cbn [fst].
  apply validHoldings_set; [apply toUpperCase_idem|assumption|assumption].
Qed.

Lemma find_markStrategy_value id vi e rows r :
  find (fun s => (st_id s =? id)%Z) (markStrategy id vi e rows) = Some r ->
  st_last_value_index r = vi.
Proof.
  intros H. apply find_some in H. destruct H as [Hin Hid].
  apply Z.eqb_eq in Hid. eapply markStrategy_value; eauto.
Qed.

(** X9: A pass keeps the engine's invariants. From a value index and persisted
    holdings that are not negative, every segment row it appends is
    well-formed (a real interval ending after the first signal, the duration
    of that interval, a raw return of at least -1, a value index of at least
    0, an hourly return that is the raw return per hour), the holdings it
    persists are positive, and the value index the next pass reads is again
    not negative. *)
Theorem replay_keeps_engine_invariants
  (strat : StrategyRow) (grid : list Z) (series : JsObj.t PriceSeries)
  (db : Db) :
  getStrategyById db (st_id strat) = Some strat ->
  0 <= st_last_value_index strat ->
  Forall (fun h => 0 <= hd_value h)
         (getHoldingsForStrategyStmt db (st_id strat)) ->
  (exists new,
     db_segments (extendSegmentsForStrategy strat grid series db)
     = db_segments db ++ new
     /\ Forall (fun r => sgd_strategy_id r = st_id strat
                         /\ wellFormedSegment (st_first_signal_ts strat)
                              (sgd_segment r)) new)
  /\ Forall (fun h => 0 <= hd_value h)
       (getHoldingsForStrategyStmt
          (extendSegmentsForStrategy strat grid series db) (st_id strat))
  /\ forall strat1,
       getStrategyById (extendSegmentsForStrategy strat grid series db)
                       (st_id strat) = Some strat1 ->
       0 <= st_last_value_index strat1.
Proof.
  intros Hrow Hvi Hhold.
  assert (Hsame : extendSegmentsForStrategy strat grid series db = db ->
    (exists new, db_segments db = db_segments db ++ new
       /\ Forall (fun r => sgd_strategy_id r = st_id strat
                           /\ wellFormedSegment (st_first_signal_ts strat)
                                (sgd_segment r)) new)
    /\ Forall (fun h => 0 <= hd_value h)
         (getHoldingsForStrategyStmt db (st_id strat))
    /\ forall strat1, getStrategyById db (st_id strat) = Some strat1 ->
                      0 <= st_last_value_index strat1).
  { intros _. split; [exists []; now rewrite app_nil_r|].
    split; [assumption|]. intros strat1 H1. rewrite Hrow in H1.
    now injection H1 as <-. }
  unfold extendSegmentsForStrategy in *.
  destruct (getSignalsForStrategyStmt db (st_trader_address strat)
              (st_strategy_name strat)) as [|s0 sigs] eqn:Esig;
    [now apply Hsame|].
  destruct (match nth_error grid (List.length grid - 1) with
            | Some maxTs => (maxTs <=? st_first_signal_ts strat)%Z
            | None => false
            end); [now apply Hsame|].
  destruct (findStartIdx strat grid) as [i|]; [|now apply Hsame].
  clear Hsame. cbv zeta.
  set (seeded := match st_last_segment_end_ts strat with
                 | None => _
                 | Some lastSegEnd => _
                 end).
  set (vi0 := if Qeqb (st_last_value_index strat) 0 then 1
              else st_last_value_index strat).
  assert (Hv0 : validHoldings (fst (fst seeded))).
  { subst seeded. destruct (st_last_segment_end_ts strat).
    - cbn [fst]. now apply resumeHoldings_valid.
    - cbn [fst]. repeat split; repeat constructor; simpl; auto; lra. }
  assert (Hvi0 : 0 <= vi0).
  { subst vi0. destruct (Qeqb (st_last_value_index strat) 0); [lra|exact Hvi]. }
  set (st0 := mkReplay (fst (fst seeded)) (snd (fst seeded)) (snd seeded) vi0
                       db).
  destruct (fold_segmentStep_inv strat series (skipn i (gridIntervals grid))
              st0 Hv0 Hvi0) as (HvF & HviF & Hsegs & Hstrats).
  set (stF := fold_left (segmentStep strat series)
                (skipn i (gridIntervals grid)) st0) in *.
  destruct (persistHoldings_frame (st_id strat) (rp_buckets stF)
              (rp_meta stF) (rp_db stF)) as [Hpst Hpsg].
  split; [rewrite Hpsg; exact Hsegs|]. split.
  - apply Forall_forall. intros h Hh.
    apply getHoldingsForStrategyStmt_In in Hh.
    destruct Hh as (r & Hin & Hid & <-).
    destruct (persistHoldings_rows _ _ _ _ _ Hin) as [[Hne _]|[_ Hpos]].
    + contradiction.
    + now apply Qlt_le_weak.
  - intros strat1 H1. unfold getStrategyById in H1. rewrite Hpst in H1.
    destruct Hstrats as [Hs|[e Hs]]; rewrite Hs in H1.
    + change (db_strategies (rp_db st0)) with (db_strategies db) in H1.
      unfold getStrategyById in Hrow. rewrite Hrow in H1.
      now injection H1 as <-.
    + apply find_markStrategy_value in H1. now rewrite H1.
Qed.

Lemma replay_keeps_engine_invariants_witness :
  (exists new,
     db_segments
       (extendSegmentsForStrategy liquidationStrategy
          [0; 3600; 7200; 10800]%Z
          (buildPriceSeries (db_prices liquidationDb)) liquidationDb)
     = db_segments liquidationDb ++ new
     /\ Forall (fun r => sgd_strategy_id r = 1%Z
                         /\ wellFormedSegment 0 (sgd_segment r)) new).
Proof.
  assert (H1 : getStrategyById liquidationDb (st_id liquidationStrategy)
               = Some liquidationStrategy) by reflexivity.
  assert (H2 : 0 <= st_last_value_index liquidationStrategy)
    by (vm_compute; discriminate).
  assert (H3 : Forall (fun h => 0 <= hd_value h)
                 (getHoldingsForStrategyStmt liquidationDb
                    (st_id liquidationStrategy))) by constructor.
  exact (proj1 (replay_keeps_engine_invariants liquidationStrategy
                  [0; 3600; 7200; 10800]%Z
                  (buildPriceSeries (db_prices liquidationDb)) liquidationDb
                  H1 H2 H3)).
Defined.

(** ** The value index compounds *)

Lemma gridIntervals_chained grid :
  StronglySorted Z.lt grid ->
  StronglySorted (fun a b => (snd a <= fst b)%Z) (gridIntervals grid).
Proof.
  induction 1 as [|t0 rest Hs IH Hall]; [constructor|].
  destruct rest as [|t1 r]; [constructor|].
  change (gridIntervals (t0 :: t1 :: r))
    with ((t0, t1) :: gridIntervals (t1 :: r)).
  constructor; [assumption|].
  apply Forall_forall. intros iv Hiv. cbn [snd].
  destruct (gridMax (t1 :: r)) as [m|] eqn:Em.
  - destruct (gridIntervals_bounds (t1 :: r) iv m Hs Em Hiv) as (_ & _ & Hin).
    destruct Hin as [<-|Hin]; [lia|].
    apply StronglySorted_inv in Hs. destruct Hs as [_ Hs].
    rewrite Forall_forall in Hs. specialize (Hs _ Hin). lia.
  - unfold gridMax in Em. apply nth_error_None in Em. simpl in Em. lia.
Qed.

Lemma StronglySorted_skipn {A : Type} (R : A -> A -> Prop) n (l : list A) :
  StronglySorted R l -> StronglySorted R (skipn n l).
Proof.
  revert l. induction n as [|n IH]; intros l Hs; [exact Hs|].
  destruct l as [|a r]; [constructor|]. simpl. apply IH.
  now apply StronglySorted_inv in Hs.
Qed.

(** The walk over chained intervals none of which a held segment reaches
    into: every interval that is not skipped appends its row, the rows
    compound the value index, and the strategy row carries the end of the
    last one. *)
Lemma fold_segmentStep_compounds strat series l st :
  validHoldings (rp_buckets st) -> 0 <= rp_valueIndex st ->
  StronglySorted (fun a b => (snd a <= fst b)%Z) l ->
  (forall r, In r (db_segments (rp_db st)) ->
     sgd_strategy_id r = st_id strat ->
     forall iv, In iv l -> (seg_end_ts (sgd_segment r) <= fst iv)%Z) ->
  exists new,
    db_segments (rp_db (fold_left (segmentStep strat series) l st))
    = db_segments (rp_db st) ++ new
    /\ compounds (rp_valueIndex st) (map sgd_segment new)
    /\ rp_valueIndex (fold_left (segmentStep strat series) l st)
       = indexAfter (rp_valueIndex st) (map sgd_segment new)
    /\ ((new = [] /\ fold_left (segmentStep strat series) l st = st)
        \/ exists iv,
             In iv l /\ (fst iv < snd iv)%Z
             /\ db_strategies
                  (rp_db (fold_left (segmentStep strat series) l st))
                = markStrategy (st_id strat)
                    (rp_valueIndex (fold_left (segmentStep strat series) l st))
                    (snd iv) (db_strategies (rp_db st))
             /\ Forall (fun r => (seg_end_ts (sgd_segment r) <= snd iv)%Z)
                       new
             /\ new <> []).
Proof.
  revert st. induction l as [|iv rest IH]; intros st Hv Hvi Hch Hold; simpl.
  - exists []. rewrite app_nil_r. repeat split. now left.
  - apply StronglySorted_inv in Hch. destruct Hch as [Hch Hhd].
    rewrite Forall_forall in Hhd.
    destruct (segmentStep_spec strat series st iv Hv Hvi)
      as [->|(row & Hwf & Hs & He & Hval & Hcomp & Hv' & Hst & _ & Hfresh)].
    { destruct (IH st Hv Hvi Hch) as (new & H1 & H2 & H3 & H4).
      - intros r Hr Hid iv' Hiv'. apply (Hold r Hr Hid). now right.
      - exists new. repeat split; auto.
        destruct H4 as [H4|(iv' & Hin & H4)]; [now left|right].
        exists iv'. split; [now right|exact H4]. }
    assert (Hlt : (fst iv < snd iv)%Z).
    { destruct Hwf as (Hlt & _). now rewrite Hs, He in Hlt. }
    assert (Hnew : db_segments (rp_db (segmentStep strat series st iv))
                   = db_segments (rp_db st)
                     ++ [mkSegmentDbRow (st_id strat) row]).
    { apply Hfresh. destruct (existsb _ _) eqn:Ex; [|reflexivity].
      apply existsb_exists in Ex. destruct Ex as (x & Hx & Hkey).
      unfold sameSegmentKey in Hkey.
      apply andb_true_iff in Hkey. destruct Hkey as [Hkey Hk3].
      apply andb_true_iff in Hkey. destruct Hkey as [Hk1 Hk2].
      apply Z.eqb_eq in Hk1, Hk2, Hk3.
      specialize (Hold x Hx Hk1 iv (or_introl eq_refl)). lia. }
    assert (Hvi' : 0 <= rp_valueIndex (segmentStep strat series st iv)).
    { rewrite <- Hval. apply Hwf. }
    destruct (IH _ Hv' Hvi' Hch) as (new & H1 & H2 & H3 & H4).
    { intros r Hr Hid iv' Hiv'. rewrite Hnew in Hr.
      apply in_app_or in Hr. destruct Hr as [Hr|[<-|[]]].
      - apply (Hold r Hr Hid). now right.
      - cbn [sgd_segment]. rewrite He. now apply Hhd. }
    exists (mkSegmentDbRow (st_id strat) row :: new).
    rewrite H1, Hnew, <- app_assoc. split; [reflexivity|].
    cbn [map sgd_segment compounds]. split; [|split].
    + split; [rewrite Hval; exact Hcomp|]. now rewrite Hval.
    + rewrite H3. unfold indexAfter. cbn [fold_left]. now rewrite Hval.
    + right. destruct H4 as [[-> H4]|(iv' & Hin & Hlt' & H4 & H5 & _)].
      * exists iv. rewrite H4. split; [now left|]. split; [assumption|].
        split; [exact Hst|]. split; [|discriminate].
        constructor; [|constructor]. cbn [sgd_segment]. lia.
      * exists iv'. split; [now right|]. split; [assumption|].
        split; [|split; [|discriminate]].
        -- rewrite H4, Hst. apply markStrategy_twice.
        -- constructor; [|assumption]. cbn [sgd_segment]. rewrite He.
           specialize (Hhd iv' Hin). lia.
Qed.

(** X10: The value index compounds over a pass. When the value index and the
    persisted holdings are not negative and no held segment of the strategy
    ends after its watermark, the segments a pass over the hourly grid
    appends compound the value index from [last_value_index || 1]: each
    row's index is the one before it times one plus its raw return. The
    strategy row read back carries the index of the last row, and again no
    segment ends after its watermark. *)
Theorem value_index_compounds_over_a_pass
  (strat : StrategyRow) (priceRows : list PriceRow)
  (series : JsObj.t PriceSeries) (db : Db) :
  getStrategyById db (st_id strat) = Some strat ->
  0 <= st_last_value_index strat ->
  Forall (fun h => 0 <= hd_value h)
         (getHoldingsForStrategyStmt db (st_id strat)) ->
  segmentsBehindWatermark strat db ->
  exists new,
    db_segments
      (extendSegmentsForStrategy strat (hourlyTimestamps priceRows) series db)
    = db_segments db ++ new
    /\ compounds (startIndex strat) (map sgd_segment new)
    /\ forall strat1,
         getStrategyById
           (extendSegmentsForStrategy strat (hourlyTimestamps priceRows)
              series db) (st_id strat) = Some strat1 ->
         st_last_value_index strat1
         = indexAfter (st_last_value_index strat) (map sgd_segment new)
         /\ segmentsBehindWatermark strat1
              (extendSegmentsForStrategy strat (hourlyTimestamps priceRows)
                 series db).
Proof.
  intros Hrow Hvi Hhold Hbehind.
  pose proof (hourlyTimestamps_sorted priceRows) as Hs.
  set (grid := hourlyTimestamps priceRows) in *.
  assert (Hsame : extendSegmentsForStrategy strat grid series db = db ->
    exists new,
      db_segments db = db_segments db ++ new
      /\ compounds (startIndex strat) (map sgd_segment new)
      /\ forall strat1, getStrategyById db (st_id strat) = Some strat1 ->
           st_last_value_index strat1
           = indexAfter (st_last_value_index strat) (map sgd_segment new)
           /\ segmentsBehindWatermark strat1 db).
  { intros _. exists []. rewrite app_nil_r. repeat split.
    - rewrite Hrow in H. now injection H as <-.
    - rewrite Hrow in H. now injection H as <-. }
  pose proof (startIntervals strat grid) as Hstart.
  unfold extendSegmentsForStrategy in *.
  destruct (getSignalsForStrategyStmt db (st_trader_address strat)
              (st_strategy_name strat)) as [|s0 sigs] eqn:Esig;
    [now apply Hsame|].
  destruct (match nth_error grid (List.length grid - 1) with
            | Some maxTs => (maxTs <=? st_first_signal_ts strat)%Z
            | None => false
            end); [now apply Hsame|].
  destruct (findStartIdx strat grid) as [i|]; [|now apply Hsame].
  clear Hsame. cbv zeta. fold (startIndex strat).
  destruct (Hstart i Hs eq_refl) as [Hivs _]. clear Hstart.
  set (seeded := match st_last_segment_end_ts strat with
                 | None => _
                 | Some lastSegEnd => _
                 end).
  assert (Hv0 : validHoldings (fst (fst seeded))).
  { subst seeded. destruct (st_last_segment_end_ts strat).
    - cbn [fst]. now apply resumeHoldings_valid.
    - cbn [fst]. repeat split; repeat constructor; simpl; auto; lra. }
  assert (Hvi0 : 0 <= startIndex strat).
  { unfold startIndex.
    destruct (Qeqb (st_last_value_index strat) 0); [lra|exact Hvi]. }
  set (st0 := mkReplay (fst (fst seeded)) (snd (fst seeded)) (snd seeded)
                       (startIndex strat) db).
  destruct (fold_segmentStep_compounds strat series
              (skipn i (gridIntervals grid)) st0 Hv0 Hvi0)
    as (new & Hnew & Hcomp & Hidx & Hmark).
  { apply StronglySorted_skipn. now apply gridIntervals_chained. }
  { intros r Hr Hid iv Hiv. destruct (Hbehind r Hr Hid) as (w & Hw & Hle).
    destruct (Hivs iv Hiv) as [_ Hge]. specialize (Hge w Hw). lia. }
  set (stF := fold_left (segmentStep strat series)
                (skipn i (gridIntervals grid)) st0) in *.
  destruct (persistHoldings_frame (st_id strat) (rp_buckets stF)
              (rp_meta stF) (rp_db stF)) as [Hpst Hpsg].
  exists new. rewrite Hpsg. split; [exact Hnew|]. split; [exact Hcomp|].
  intros strat1 H1. unfold getStrategyById in H1. rewrite Hpst in H1.
  unfold segmentsBehindWatermark. rewrite Hpsg.
  destruct Hmark as [[-> Hsame]|(iv & Hin & Hlt & Hst & Hall & Hne)].
  - rewrite Hsame in *. cbn [rp_db st0] in H1.
    unfold getStrategyById in Hrow. rewrite Hrow in H1. injection H1 as <-.
    split; [reflexivity|]. cbn [rp_db st0]. exact Hbehind.
  - rewrite Hst in H1. pose proof H1 as H1'.
    apply find_markStrategy_value in H1. apply find_some in H1'.
    destruct H1' as [Hin1 Hid1]. apply Z.eqb_eq in Hid1.
    apply markStrategy_watermark in Hin1; [|exact Hid1]. split.
    + rewrite H1, Hidx. destruct new as [|r0 new']; [now elim Hne|].
      reflexivity.
    + intros r Hr Hid. exists (snd iv). split; [rewrite Hid1 in *; exact Hin1|].
      rewrite Hnew in Hr. apply in_app_or in Hr. destruct Hr as [Hr|Hr].
      * cbn [rp_db st0] in Hr. destruct (Hbehind r Hr) as (w & Hw & Hle).
        { now rewrite <- Hid1. }
        destruct (Hivs iv Hin) as [_ Hge]. specialize (Hge w Hw). lia.
      * rewrite Forall_forall in Hall. now apply Hall.
Qed.

Lemma value_index_compounds_over_a_pass_witness :
  exists new,
    db_segments
      (extendSegmentsForStrategy liquidationStrategy
         (hourlyTimestamps (db_prices liquidationDb))
         (buildPriceSeries (db_prices liquidationDb)) liquidationDb)
    = db_segments liquidationDb ++ new
    /\ compounds (startIndex liquidationStrategy) (map sgd_segment new).
Proof.
  assert (H1 : getStrategyById liquidationDb (st_id liquidationStrategy)
               = Some liquidationStrategy) by reflexivity.
  assert (H2 : 0 <= st_last_value_index liquidationStrategy)
    by (vm_compute; discriminate).
  assert (H3 : Forall (fun h => 0 <= hd_value h)
                 (getHoldingsForStrategyStmt liquidationDb
                    (st_id liquidationStrategy))) by constructor.
  assert (H4 : segmentsBehindWatermark liquidationStrategy liquidationDb)
    by (intros r []).
  destruct (value_index_compounds_over_a_pass liquidationStrategy
              (db_prices liquidationDb)
              (buildPriceSeries (db_prices liquidationDb)) liquidationDb
              H1 H2 H3 H4) as (new & Ha & Hb & _).
  exists new. split; assumption.
Defined.

(** ** A pass stays within its strategy *)

Lemma untouchedFor_refl id' a : untouchedFor id' a a.
Proof. repeat split. Qed.

Lemma untouchedFor_trans id' a b c :
  untouchedFor id' a b -> untouchedFor id' b c -> untouchedFor id' a c.
Proof. unfold untouchedFor. intuition congruence. Qed.

Lemma filter_upsertBy_other {A : Type} (same q : A -> bool) (row : A)
  (l : list A) :
  q row = false -> (forall r, same r = true -> q r = false) ->
  filter q (upsertBy same row l) = filter q l.
Proof.
  intros Hrow Hq. unfold upsertBy. destruct (existsb same l).
  - induction l as [|a r IH]; [reflexivity|]. simpl.
    destruct (same a) eqn:E.
    + rewrite Hrow, (Hq a E). exact IH.
    + destruct (q a); now rewrite IH.
  - rewrite filter_app. simpl. rewrite Hrow. apply app_nil_r.
Qed.

Lemma recordPositionSnapshot_untouched id id' buckets meta ts db :
  id' <> id ->
  untouchedFor id' db (recordPositionSnapshot id buckets meta ts db).
Proof.
  intros Hne. unfold recordPositionSnapshot.
  destruct (snapshotPositions buckets meta); [|apply untouchedFor_refl].
  unfold untouchedFor, rowsOfStrategy, upsertPositionSnapshotStmt,
    getStrategyById.
  cbn [db_prices db_signals db_stats db_strategies db_segments db_holdings
       db_snapshots withSnapshots].
  repeat split. f_equal. symmetry. apply filter_upsertBy_other.
  - cbn [sn_strategy_id]. apply Z.eqb_neq. congruence.
  - intros r Hr. apply andb_true_iff in Hr. destruct Hr as [Hr _].
    apply Z.eqb_eq in Hr. apply Z.eqb_neq. congruence.
Qed.

Lemma insertSegmentStmt_untouched id id' db s e d r h v :
  id' <> id -> untouchedFor id' db (insertSegmentStmt db id s e d r h v).
Proof.
  intros Hne. unfold insertSegmentStmt.
  destruct (existsb _ _); [apply untouchedFor_refl|].
  unfold untouchedFor, rowsOfStrategy, getStrategyById.
  cbn [db_prices db_signals db_stats db_strategies db_segments db_holdings
       db_snapshots withSegments].
  repeat split. f_equal. f_equal. f_equal.
  rewrite filter_app. simpl.
  replace (id =? id')%Z with false by (symmetry; apply Z.eqb_neq; congruence).
  now rewrite app_nil_r.
Qed.

Lemma updateStrategyAfterSegmentsStmt_untouched id id' db vi e :
  id' <> id ->
  untouchedFor id' db (updateStrategyAfterSegmentsStmt db vi e id).
Proof.
  intros Hne. unfold untouchedFor, rowsOfStrategy, getStrategyById,
    updateStrategyAfterSegmentsStmt.
  cbn [db_prices db_signals db_stats db_strategies db_segments db_holdings
       db_snapshots withStrategies].
  repeat split. f_equal. f_equal. f_equal.
  induction (db_strategies db) as [|s l IH]; [reflexivity|]. simpl.
  destruct (st_id s =? id)%Z eqn:E.
  - cbn [st_id]. apply Z.eqb_eq in E.
    replace (st_id s =? id')%Z with false
      by (symmetry; apply Z.eqb_neq; congruence).
    exact IH.
  - destruct (st_id s =? id')%Z; [reflexivity|exact IH].
Qed.

Lemma applyDueSignals_untouched id id' tStart st :
  id' <> id ->
  untouchedFor id' (rp_db st) (rp_db (applyDueSignals id tStart st)).
Proof.
  apply (applyDueSignals_elim
    (fun id tStart st r =>
       id' <> id -> untouchedFor id' (rp_db st) (rp_db r))); clear.
  - intros. apply untouchedFor_refl.
  - intros id tStart buckets meta s rest valueIndex db IH Hne.
    destruct (sg_timestamp s <=? tStart)%Z; [|apply untouchedFor_refl].
    eapply untouchedFor_trans; [|exact (IH Hne)].
    unfold dueTurn. cbn [rp_db]. now apply recordPositionSnapshot_untouched.
Qed.

Lemma applyIntraSignals_untouched id id' tEnd series cursorTs st :
  id' <> id ->
  untouchedFor id' (rp_db st)
    (rp_db (fst (applyIntraSignals id tEnd series cursorTs st))).
Proof.
  apply (applyIntraSignals_elim
    (fun id tEnd series cursorTs st r =>
       id' <> id -> untouchedFor id' (rp_db st) (rp_db (fst r)))); clear.
  - intros. apply untouchedFor_refl.
  - intros id tEnd series cursorTs buckets meta s rest valueIndex db IH Hne.
    destruct (sg_timestamp s <=? tEnd)%Z; [|apply untouchedFor_refl].
    eapply untouchedFor_trans; [|exact (IH Hne)].
    unfold intraTurn. cbn [rp_db fst].
    now apply recordPositionSnapshot_untouched.
Qed.

Lemma segmentStep_untouched strat series st iv id' :
  id' <> st_id strat ->
  untouchedFor id' (rp_db st) (rp_db (segmentStep strat series st iv)).
Proof.
  intros Hne. unfold segmentStep. cbv zeta.
  destruct (snd iv <=? fst iv)%Z; [apply untouchedFor_refl|].
  destruct (snd iv <=? st_first_signal_ts strat)%Z; [apply untouchedFor_refl|].
  pose proof (applyDueSignals_untouched (st_id strat) id' (fst iv) st Hne)
    as H1.
  set (st1 := applyDueSignals (st_id strat) (fst iv) st) in *.
  destruct (Qleb (sumBuckets (rp_buckets st1)) 0).
  - cbn [rp_db]. eapply untouchedFor_trans; [exact H1|].
    eapply untouchedFor_trans;
      [|now apply updateStrategyAfterSegmentsStmt_untouched].
    now apply insertSegmentStmt_untouched.
  - pose proof (applyIntraSignals_untouched (st_id strat) id' (snd iv) series
                  (fst iv) st1 Hne) as H2.
    set (r := applyIntraSignals (st_id strat) (snd iv) series (fst iv) st1)
      in *.
    cbn [rp_db]. eapply untouchedFor_trans; [exact H1|].
    eapply untouchedFor_trans; [exact H2|].
    eapply untouchedFor_trans;
      [|now apply updateStrategyAfterSegmentsStmt_untouched].
    now apply insertSegmentStmt_untouched.
Qed.

Lemma persistHoldings_untouched id id' buckets meta db :
  id' <> id -> untouchedFor id' db (persistHoldings id buckets meta db).
Proof.
  intros Hne. unfold persistHoldings.
  assert (H0 : untouchedFor id' db (deleteHoldingsForStrategyStmt db id)).
  { unfold untouchedFor, rowsOfStrategy, getStrategyById,
      deleteHoldingsForStrategyStmt.
    cbn [db_prices db_signals db_stats db_strategies db_segments db_holdings
         db_snapshots withHoldings].
    repeat split. f_equal. f_equal.
    induction (db_holdings db) as [|r l IH]; [reflexivity|]. simpl.
    destruct (hdb_strategy_id r =? id)%Z eqn:E; simpl.
    - apply Z.eqb_eq in E.
      replace (hdb_strategy_id r =? id')%Z with false
        by (symmetry; apply Z.eqb_neq; congruence).
      exact IH.
    - destruct (hdb_strategy_id r =? id')%Z; [now rewrite IH|exact IH]. }
  revert H0. generalize (deleteHoldingsForStrategyStmt db id).
  induction (JsObj.entries buckets) as [|e l IH]; intros db0 H0; simpl;
    [exact H0|].
  apply IH. destruct (Qleb (snd e) 0); [exact H0|].
  eapply untouchedFor_trans; [exact H0|].
  unfold untouchedFor, rowsOfStrategy, getStrategyById, upsertHoldingStmt.
  cbn [db_prices db_signals db_stats db_strategies db_segments db_holdings
       db_snapshots withHoldings].
  repeat split. f_equal. f_equal. symmetry. apply filter_upsertBy_other.
  - cbn [hdb_strategy_id]. apply Z.eqb_neq. congruence.
  - intros r Hr. apply andb_true_iff in Hr. destruct Hr as [Hr _].
    apply Z.eqb_eq in Hr. apply Z.eqb_neq. congruence.
Qed.

Lemma extendSegmentsForStrategy_untouched strat grid series db id' :
  id' <> st_id strat ->
  untouchedFor id' db (extendSegmentsForStrategy strat grid series db).
Proof.
  intros Hne.
  destruct (extend_shape strat grid series db)
    as [Hearly|(i & st0 & _ & _ & Hdb & ->)].
  - rewrite (extend_returnsEarly strat grid series db Hearly).
    apply untouchedFor_refl.
  - eapply untouchedFor_trans; [|now apply persistHoldings_untouched].
    rewrite <- Hdb. generalize (skipn i (gridIntervals grid)). clear Hdb.
    intros l. revert st0. induction l as [|iv r IH]; intros st0; simpl.
    + apply untouchedFor_refl.
    + eapply untouchedFor_trans; [|apply IH].
      now apply segmentStep_untouched.
Qed.



(** ** The segments of a pass tile the grid *)

Lemma segmentStep_keys strat series st iv :
  (segmentStep strat series st iv = st
   /\ ((snd iv <= fst iv)%Z \/ (snd iv <= st_first_signal_ts strat)%Z))
  \/ ((fst iv < snd iv)%Z /\ (st_first_signal_ts strat < snd iv)%Z
      /\ (existsb (sameSegmentKey (st_id strat) (fst iv) (snd iv))
                  (db_segments (rp_db st)) = false ->
          exists row,
            db_segments (rp_db (segmentStep strat series st iv))
            = db_segments (rp_db st) ++ [row]
            /\ sgd_strategy_id row = st_id strat
            /\ segmentInterval row = iv)).
Proof.
  unfold segmentStep. cbv zeta.
  destruct (snd iv <=? fst iv)%Z eqn:E1.
  { left. split; [reflexivity|]. left. now apply Z.leb_le. }
  destruct (snd iv <=? st_first_signal_ts strat)%Z eqn:E2.
  { left. split; [reflexivity|]. right. now apply Z.leb_le. }
  apply Z.leb_gt in E1, E2. right. split; [assumption|split; [assumption|]].
  intros Hfresh.
  destruct (applyDueSignals_same (st_id strat) (fst iv) st)
    as [(_ & _ & _ & Hseg & _) _].
  set (st1 := applyDueSignals (st_id strat) (fst iv) st) in *.
  destruct (Qleb (sumBuckets (rp_buckets st1)) 0).
  - cbn [rp_db]. eexists.
    cbn [db_segments updateStrategyAfterSegmentsStmt withStrategies].
    rewrite insertSegmentStmt_fresh by (now rewrite <- Hseg).
    rewrite <- Hseg. split; [reflexivity|]. split; [reflexivity|].
    now destruct iv.
  - destruct (applyIntraSignals_same (st_id strat) (snd iv) series (fst iv) st1)
      as [(_ & _ & _ & Hseg2 & _) _].
    set (r := applyIntraSignals (st_id strat) (snd iv) series (fst iv) st1)
      in *.
    cbn [rp_db]. eexists.
    cbn [db_segments updateStrategyAfterSegmentsStmt withStrategies].
    rewrite insertSegmentStmt_fresh by (now rewrite <- Hseg2, <- Hseg).
    rewrite <- Hseg2, <- Hseg. split; [reflexivity|]. split; [reflexivity|].
    now destruct iv.
Qed.

Lemma fold_segmentStep_tiles strat series l st :
  StronglySorted (fun a b => (snd a <= fst b)%Z) l ->
  Forall (fun iv => (fst iv < snd iv)%Z) l ->
  (forall r, In r (db_segments (rp_db st)) ->
     sgd_strategy_id r = st_id strat ->
     forall iv, In iv l -> (seg_end_ts (sgd_segment r) <= fst iv)%Z) ->
  exists new,
    db_segments (rp_db (fold_left (segmentStep strat series) l st))
    = db_segments (rp_db st) ++ new
    /\ Forall (fun r => sgd_strategy_id r = st_id strat) new
    /\ map segmentInterval new
       = filter (fun iv => (st_first_signal_ts strat <? snd iv)%Z) l.
Proof.
  revert st. induction l as [|iv rest IH]; intros st Hch Hlt Hold; simpl.
  - exists []. rewrite app_nil_r. repeat split. constructor.
  - apply StronglySorted_inv in Hch. destruct Hch as [Hch Hhd].
    rewrite Forall_forall in Hhd.
    inversion Hlt as [|? ? Hiv Hlt']; subst.
    destruct (segmentStep_keys strat series st iv)
      as [[-> [Hbad|Hskip]]|(_ & Hfirst & Hfresh)].
    + lia.
    + replace (st_first_signal_ts strat <? snd iv)%Z with false
        by (symmetry; now apply Z.ltb_ge).
      apply IH; auto. intros r Hr Hid iv' Hiv'. apply (Hold r Hr Hid).
      now right.
    + replace (st_first_signal_ts strat <? snd iv)%Z with true
        by (symmetry; now apply Z.ltb_lt).
      destruct Hfresh as (row & Hnew & Hid & Hkey).
      { destruct (existsb _ _) eqn:Ex; [|reflexivity].
        apply existsb_exists in Ex. destruct Ex as (x & Hx & Hk).
        unfold sameSegmentKey in Hk.
        apply andb_true_iff in Hk. destruct Hk as [Hk Hk3].
        apply andb_true_iff in Hk. destruct Hk as [Hk1 Hk2].
        apply Z.eqb_eq in Hk1, Hk2, Hk3.
        specialize (Hold x Hx Hk1 iv (or_introl eq_refl)). lia. }
      destruct (IH (segmentStep strat series st iv) Hch Hlt')
        as (new & H1 & H2 & H3).
      { intros r Hr Hidr iv' Hiv'. rewrite Hnew in Hr.
        apply in_app_or in Hr. destruct Hr as [Hr|[<-|[]]].
        - apply (Hold r Hr Hidr). now right.
        - unfold segmentInterval in Hkey. rewrite <- Hkey in Hhd.
          specialize (Hhd iv' Hiv'). cbn [snd] in Hhd. exact Hhd. }
      exists (row :: new). rewrite H1, Hnew, <- app_assoc.
      split; [reflexivity|]. split; [now constructor|].
      cbn [map]. now rewrite Hkey, H3.
Qed.

Lemma contiguous_gridIntervals grid : contiguous (gridIntervals grid).
Proof.
  induction grid as [|t0 rest IH]; [exact I|].
  destruct rest as [|t1 r]; [exact I|].
  change (gridIntervals (t0 :: t1 :: r))
    with ((t0, t1) :: gridIntervals (t1 :: r)).
  destruct r as [|t2 r']; [exact I|].
  change (gridIntervals (t1 :: t2 :: r'))
    with ((t1, t2) :: gridIntervals (t2 :: r')) in *.
  split; [reflexivity|exact IH].
Qed.

Lemma contiguous_tail a (l : list (Z * Z)) : contiguous (a :: l) -> contiguous l.
Proof. destruct l as [|b r]; [auto|]. now intros [_ H]. Qed.

Lemma contiguous_skipn n (l : list (Z * Z)) :
  contiguous l -> contiguous (skipn n l).
Proof.
  revert l. induction n as [|n IH]; intros l H; [exact H|].
  destruct l as [|a r]; [exact I|]. simpl. apply IH.
  now apply contiguous_tail in H.
Qed.

(** On intervals whose ends ascend, keeping those that end after [c] drops
    a prefix. *)
Lemma filter_after_is_suffix c (l : list (Z * Z)) :
  StronglySorted (fun a b => (snd a <= fst b)%Z) l ->
  Forall (fun iv => (fst iv < snd iv)%Z) l ->
  exists j, filter (fun iv => (c <? snd iv)%Z) l = skipn j l.
Proof.
  induction l as [|a r IH]; intros Hs Hlt; [now exists 0%nat|].
  apply StronglySorted_inv in Hs. destruct Hs as [Hs Hhd].
  inversion Hlt as [|? ? Ha Hlt']; subst.
  simpl. destruct (c <? snd a)%Z eqn:E.
  - exists 0%nat. simpl. f_equal.
    apply Z.ltb_lt in E. rewrite Forall_forall in Hhd, Hlt'.
    apply forallb_filter_id. apply forallb_forall. intros b Hb.
    apply Z.ltb_lt. specialize (Hhd b Hb). specialize (Hlt' b Hb). lia.
  - destruct (IH Hs Hlt') as [j Hj]. exists (S j). exact Hj.
Qed.

(** X12: The segments of a pass tile the grid. When no stored segment of the
    strategy ends after its watermark, a pass over the hourly grid appends
    one segment of the strategy for every grid interval from the start index
    on that ends after the first signal, in order, so each new segment
    starts where the one before it ended; a pass that returns before its
    transaction appends none. *)
Theorem segments_of_a_pass_tile_the_grid
  (strat : StrategyRow) (priceRows : list PriceRow)
  (series : JsObj.t PriceSeries) (db : Db) :
  segmentsBehindWatermark strat db ->
  exists new,
    db_segments
      (extendSegmentsForStrategy strat (hourlyTimestamps priceRows) series db)
    = db_segments db ++ new
    /\ Forall (fun r => sgd_strategy_id r = st_id strat) new
    /\ contiguous (map segmentInterval new)
    /\ ((returnsEarly strat (hourlyTimestamps priceRows) db /\ new = [])
        \/ exists i,
             findStartIdx strat (hourlyTimestamps priceRows) = Some i
             /\ map segmentInterval new
                = filter (fun iv => (st_first_signal_ts strat <? snd iv)%Z)
                    (skipn i (gridIntervals (hourlyTimestamps priceRows)))).
Proof.
  intros Hbehind.
  pose proof (hourlyTimestamps_sorted priceRows) as Hs.
  set (grid := hourlyTimestamps priceRows) in *.
  destruct (extend_shape strat grid series db)
    as [Hearly|(i & st0 & Hfind & _ & Hdb & Heq)].
  - rewrite (extend_returnsEarly strat grid series db Hearly).
    exists []. rewrite app_nil_r. split; [reflexivity|].
    split; [constructor|]. split; [exact I|]. now left.
  - rewrite Heq.
    destruct (startIntervals strat grid i Hs Hfind) as [Hivs _].
    set (l := skipn i (gridIntervals grid)) in *.
    assert (Hch : StronglySorted (fun a b => (snd a <= fst b)%Z) l).
    { apply StronglySorted_skipn. now apply gridIntervals_chained. }
    assert (Hlt : Forall (fun iv => (fst iv < snd iv)%Z) l).
    { apply Forall_forall. intros iv Hiv. destruct (Hivs iv Hiv) as [Hin _].
      destruct (gridMax grid) as [m|] eqn:Em.
      - now destruct (gridIntervals_bounds grid iv m Hs Em Hin).
      - unfold gridMax in Em. apply nth_error_None in Em.
        destruct grid as [|t0 [|t1 r]]; simpl in *; try lia; destruct Hin. }
    destruct (fold_segmentStep_tiles strat series l st0 Hch Hlt)
      as (new & Hnew & Hids & Hkeys).
    { rewrite Hdb. intros r Hr Hid iv Hiv.
      destruct (Hbehind r Hr Hid) as (w & Hw & Hle).
      destruct (Hivs iv Hiv) as [_ Hge]. specialize (Hge w Hw). lia. }
    destruct (persistHoldings_frame (st_id strat)
                (rp_buckets (fold_left (segmentStep strat series) l st0))
                (rp_meta (fold_left (segmentStep strat series) l st0))
                (rp_db (fold_left (segmentStep strat series) l st0)))
      as [_ ->].
    exists new. rewrite Hnew, Hdb. split; [reflexivity|].
    split; [exact Hids|]. split; [|right; now exists i].
    rewrite Hkeys.
    destruct (filter_after_is_suffix (st_first_signal_ts strat) l Hch Hlt)
      as [j ->].
    apply contiguous_skipn. subst l. apply contiguous_skipn.
    apply contiguous_gridIntervals.
Qed.

Lemma segments_of_a_pass_tile_the_grid_witness :
  exists new,
    db_segments
      (extendSegmentsForStrategy liquidationStrategy
         (hourlyTimestamps (db_prices liquidationDb))
         (buildPriceSeries (db_prices liquidationDb)) liquidationDb)
    = db_segments liquidationDb ++ new
    /\ contiguous (map segmentInterval new).
Proof.
  assert (H : segmentsBehindWatermark liquidationStrategy liquidationDb)
    by (intros r []).
  destruct (segments_of_a_pass_tile_the_grid liquidationStrategy
              (db_prices liquidationDb)
              (buildPriceSeries (db_prices liquidationDb)) liquidationDb H)
    as (new & Ha & _ & Hb & _).
  exists new. split; assumption.
Defined.

(** ** Snapshots are written at signal timestamps only *)

Lemma snapshotsFrom_refl id sigs a : snapshotsFrom id sigs a a.
Proof. intros r Hr. now left. Qed.

Lemma snapshotsFrom_trans id sigs sigs' a b c :
  (forall s, In s sigs' -> In s sigs) ->
  snapshotsFrom id sigs a b -> snapshotsFrom id sigs' b c ->
  snapshotsFrom id sigs a c.
Proof.
  intros Hsub Hab Hbc r Hr.
  destruct (Hbc r Hr) as [Hb|(Hid & (s & Hs & Hts) & Hpos)].
  - now apply Hab.
  - right. split; [assumption|]. split; [|assumption].
    exists s. split; [now apply Hsub|assumption].
Qed.

Lemma snapshotsFrom_same id sigs a b c :
  db_snapshots b = db_snapshots c ->
  snapshotsFrom id sigs a b -> snapshotsFrom id sigs a c.
Proof. intros Heq Hab r Hr. apply Hab. now rewrite Heq. Qed.

Lemma snapshotPositions_positive buckets meta positions :
  snapshotPositions buckets meta = Some positions ->
  Forall (fun p => 0 < pos_percent p) positions.
Proof.
  unfold snapshotPositions. intros H.
  destruct (Qleb (sumBuckets buckets) 0) eqn:E; [discriminate|].
  apply Qleb_gt in E. cbv zeta in H.
  set (l := filter _ _) in H.
  assert (Hl : Forall (fun e => 0 < snd e) l).
  { apply Forall_forall. intros e He. apply filter_In in He.
    now apply Qltb_lt. }
  destruct (filterNonNull_positions meta (sumBuckets buckets) l E Hl)
    as [Hall _].
  destruct (filterNonNull _) eqn:Ef; [discriminate|].
  now injection H as <-.
Qed.

Lemma recordPositionSnapshot_from id buckets meta s db :
  snapshotsFrom id [s] db
    (recordPositionSnapshot id buckets meta (sg_timestamp s) db).
Proof.
  unfold recordPositionSnapshot.
  destruct (snapshotPositions buckets meta) as [positions|] eqn:E;
    [|apply snapshotsFrom_refl].
  intros r Hr. unfold upsertPositionSnapshotStmt in Hr.
  cbn [db_snapshots withSnapshots] in Hr. apply upsertBy_In in Hr.
  destruct Hr as [->|Hr]; [right|now left].
  cbn [sn_strategy_id sn_signal_ts sn_positions_json].
  split; [reflexivity|]. split.
  - exists s. split; [now left|reflexivity].
  - eapply snapshotPositions_positive; eauto.
Qed.

Lemma consumedUpTo_incl t sigs rest s :
  consumedUpTo t sigs rest -> In s rest -> In s sigs.
Proof. intros (done & -> & _) Hin. apply in_or_app. now right. Qed.

Lemma applySignalsAt_incl ts sigs b m s :
  In s (snd (applySignalsAt ts sigs b m)) -> In s sigs.
Proof.
  destruct (applySignalsAt_split ts sigs b m) as (done & Hd & _).
  intros Hin. rewrite Hd. apply in_or_app. now right.
Qed.

Lemma applyDueSignals_snapshots id tStart st :
  snapshotsFrom id (rp_pending st) (rp_db st)
    (rp_db (applyDueSignals id tStart st)).
Proof.
  apply (applyDueSignals_elim
    (fun id tStart st r => snapshotsFrom id (rp_pending st) (rp_db st) (rp_db r)));
    clear.
  - intros. apply snapshotsFrom_refl.
  - intros id tStart buckets meta s rest valueIndex db IH.
    destruct (sg_timestamp s <=? tStart)%Z; [|apply snapshotsFrom_refl].
    cbn [rp_pending rp_db] in *.
    eapply snapshotsFrom_trans; [| |exact IH].
    + unfold dueTurn. cbn [rp_pending]. intros x. apply applySignalsAt_incl.
    + unfold dueTurn. cbn [rp_db].
      eapply (snapshotsFrom_trans id (s :: rest) [s] db db);
        [intros x [<-|[]]; now left|apply snapshotsFrom_refl|].
      apply recordPositionSnapshot_from.
Qed.

Lemma applyIntraSignals_snapshots id tEnd series cursorTs st :
  snapshotsFrom id (rp_pending st) (rp_db st)
    (rp_db (fst (applyIntraSignals id tEnd series cursorTs st))).
Proof.
  apply (applyIntraSignals_elim
    (fun id tEnd series cursorTs st r =>
       snapshotsFrom id (rp_pending st) (rp_db st) (rp_db (fst r))));
    clear.
  - intros. apply snapshotsFrom_refl.
  - intros id tEnd series cursorTs buckets meta s rest valueIndex db IH.
    destruct (sg_timestamp s <=? tEnd)%Z; [|apply snapshotsFrom_refl].
    cbn [rp_pending rp_db fst] in *.
    eapply snapshotsFrom_trans; [| |exact IH].
    + unfold intraTurn. cbn [rp_pending fst]. intros x.
      apply applySignalsAt_incl.
    + unfold intraTurn. cbn [rp_db fst].
      eapply (snapshotsFrom_trans id (s :: rest) [s] db db);
        [intros x [<-|[]]; now left|apply snapshotsFrom_refl|].
      apply recordPositionSnapshot_from.
Qed.

Lemma insertSegmentStmt_snapshots db id s e d r h v :
  db_snapshots (insertSegmentStmt db id s e d r h v) = db_snapshots db.
Proof. unfold insertSegmentStmt. now destruct (existsb _ _). Qed.

Lemma segmentStep_snapshots strat series st iv :
  snapshotsFrom (st_id strat) (rp_pending st) (rp_db st)
    (rp_db (segmentStep strat series st iv))
  /\ forall s, In s (rp_pending (segmentStep strat series st iv)) ->
               In s (rp_pending st).
Proof.
  unfold segmentStep. cbv zeta.
  destruct (snd iv <=? fst iv)%Z; [split; [apply snapshotsFrom_refl|auto]|].
  destruct (snd iv <=? st_first_signal_ts strat)%Z;
    [split; [apply snapshotsFrom_refl|auto]|].
  pose proof (applyDueSignals_snapshots (st_id strat) (fst iv) st) as H1.
  destruct (applyDueSignals_consumes (st_id strat) (fst iv) st) as [Hc1 _].
  set (st1 := applyDueSignals (st_id strat) (fst iv) st) in *.
  destruct (Qleb (sumBuckets (rp_buckets st1)) 0).
  - cbn [rp_db rp_pending]. split.
    + eapply snapshotsFrom_same; [|exact H1].
      unfold updateStrategyAfterSegmentsStmt.
      cbn [db_snapshots withStrategies].
      now rewrite insertSegmentStmt_snapshots.
    + intros s. now apply consumedUpTo_incl with (t := fst iv).
  - pose proof (applyIntraSignals_snapshots (st_id strat) (snd iv) series
                  (fst iv) st1) as H2.
    destruct (applyIntraSignals_consumes (st_id strat) (snd iv) series
                (fst iv) st1) as (Hc2 & _).
    set (r := applyIntraSignals (st_id strat) (snd iv) series (fst iv) st1)
      in *.
    cbn [rp_db rp_pending]. split.
    + eapply snapshotsFrom_same;
        [|eapply snapshotsFrom_trans; [|exact H1|exact H2]].
      * unfold updateStrategyAfterSegmentsStmt.
        cbn [db_snapshots withStrategies].
        now rewrite insertSegmentStmt_snapshots.
      * intros s. now apply consumedUpTo_incl with (t := fst iv).
    + intros s Hs. apply consumedUpTo_incl with (t := fst iv) (rest := rp_pending st1);
        [assumption|].
      now apply consumedUpTo_incl with (t := snd iv) (rest := rp_pending (fst r)).
Qed.

Lemma fold_segmentStep_snapshots strat series l st :
  snapshotsFrom (st_id strat) (rp_pending st) (rp_db st)
    (rp_db (fold_left (segmentStep strat series) l st)).
Proof.
  revert st. induction l as [|iv r IH]; intros st; simpl.
  - apply snapshotsFrom_refl.
  - destruct (segmentStep_snapshots strat series st iv) as [H1 Hsub].
    eapply snapshotsFrom_trans; [exact Hsub|exact H1|apply IH].
Qed.

Lemma persistHoldings_snapshots id buckets meta db :
  db_snapshots (persistHoldings id buckets meta db) = db_snapshots db.
Proof.
  unfold persistHoldings.
  change (db_snapshots db)
    with (db_snapshots (deleteHoldingsForStrategyStmt db id)).
  generalize (deleteHoldingsForStrategyStmt db id).
  induction (JsObj.entries buckets) as [|e r IH]; intros db0; simpl;
    [reflexivity|].
  destruct (Qleb (snd e) 0); [apply IH|]. now rewrite IH.
Qed.

(** X13: A pass writes position snapshots at signal timestamps only. Every
    snapshot row of the store after a pass was there before, or belongs to
    the strategy, carries the timestamp of one of its signals (one stamped
    after the watermark, when the pass resumed) and lists positive
    percentages only. *)
Theorem snapshots_only_at_signal_timestamps
  (strat : StrategyRow) (grid : list Z) (series : JsObj.t PriceSeries)
  (db : Db) (r : SnapshotDbRow) :
  In r (db_snapshots (extendSegmentsForStrategy strat grid series db)) ->
  In r (db_snapshots db)
  \/ (sn_strategy_id r = st_id strat
      /\ (exists s,
            In s (getSignalsForStrategyStmt db (st_trader_address strat)
                    (st_strategy_name strat))
            /\ sg_timestamp s = sn_signal_ts r
            /\ forall w, st_last_segment_end_ts strat = Some w ->
                         (w < sg_timestamp s)%Z)
      /\ Forall (fun p => 0 < pos_percent p) (sn_positions_json r)).
Proof.
  unfold extendSegmentsForStrategy.
  set (signals := getSignalsForStrategyStmt db (st_trader_address strat)
                    (st_strategy_name strat)).
  assert (Hsorted : StronglySorted
                      (fun a b => (sg_timestamp a <= sg_timestamp b)%Z) signals).
  { subst signals. unfold getSignalsForStrategyStmt. apply orderBy_sorted. }
  destruct signals as [|s0 sigs] eqn:Esig; [now left|].
  rewrite <- Esig in *. clear Esig s0 sigs.
  destruct (match nth_error grid (List.length grid - 1) with
            | Some maxTs => (maxTs <=? st_first_signal_ts strat)%Z
            | None => false
            end); [now left|].
  destruct (findStartIdx strat grid) as [i|]; [|now left].
  cbv zeta. rewrite persistHoldings_snapshots.
  set (seeded := match st_last_segment_end_ts strat with
                 | None => _
                 | Some lastSegEnd => _
                 end).
  set (st0 := mkReplay (fst (fst seeded)) (snd (fst seeded)) (snd seeded) _ db).
  intros Hr.
  destruct (fold_segmentStep_snapshots strat series
              (skipn i (gridIntervals grid)) st0 r Hr)
    as [Hold|(Hid & (s & Hs & Hts) & Hpos)]; [now left|right].
  split; [assumption|]. split; [|assumption].
  exists s. cbn [st0 rp_pending] in Hs. subst seeded.
  destruct (st_last_segment_end_ts strat) as [w|] eqn:Ew; cbn [snd] in Hs.
  - match type of Hs with
    | In _ (snd (fastForwardSignals _ _ ?m)) =>
        destruct (consumedUpTo_sorted w signals _ Hsorted
                    (fastForwardSignals_consumes w signals m)) as [Heq _]
    end.
    rewrite Heq in Hs. apply filter_In in Hs. destruct Hs as [Hin Hlt].
    apply Z.ltb_lt in Hlt. split; [assumption|]. split; [assumption|].
    now intros w' [= <-].
  - split; [assumption|]. split; [assumption|]. discriminate.
Qed.

Lemma snapshots_only_at_signal_timestamps_witness :
  In (mkSnapshotDbRow 1 5000 [mkPosition "ETH" (1 / 1 * 100) "LONG" 1])
     (db_snapshots liquidationDb)
  \/ (sn_strategy_id
        (mkSnapshotDbRow 1 5000 [mkPosition "ETH" (1 / 1 * 100) "LONG" 1])
      = st_id liquidationStrategy
      /\ (exists s,
            In s (getSignalsForStrategyStmt liquidationDb
                    (st_trader_address liquidationStrategy)
                    (st_strategy_name liquidationStrategy))
            /\ sg_timestamp s
               = sn_signal_ts
                   (mkSnapshotDbRow 1 5000
                      [mkPosition "ETH" (1 / 1 * 100) "LONG" 1])
            /\ forall w, st_last_segment_end_ts liquidationStrategy = Some w ->
                         (w < sg_timestamp s)%Z)
      /\ Forall (fun p => 0 < pos_percent p)
           (sn_positions_json
              (mkSnapshotDbRow 1 5000
                 [mkPosition "ETH" (1 / 1 * 100) "LONG" 1]))).
Proof.
  assert (H : In (mkSnapshotDbRow 1 5000
                    [mkPosition "ETH" (1 / 1 * 100) "LONG" 1])
                (db_snapshots
                   (extendSegmentsForStrategy liquidationStrategy
                      [0; 3600; 7200; 10800]%Z
                      (buildPriceSeries (db_prices liquidationDb))
                      liquidationDb))).
  { vm_compute. right. left. reflexivity. }
  exact (snapshots_only_at_signal_timestamps liquidationStrategy
           [0; 3600; 7200; 10800]%Z
           (buildPriceSeries (db_prices liquidationDb)) liquidationDb _ H).
Defined.

(** ** Persisted holdings resume as they were written *)

Lemma set_notin {V : Type} (o : JsObj.t V) k v :
  ~ In k (JsObj.keys o) -> JsObj.set o k v = o ++ [(k, v)].
Proof.
  induction o as [|[k0 v0] r IH]; simpl; [reflexivity|].
  intros Hn. destruct (String.eqb k0 k) eqn:E.
  - apply String.eqb_eq in E. tauto.
  - rewrite IH by tauto. reflexivity.
Qed.

Lemma PosMeta_roundtrip m :
  mkPosMeta (pm_direction m) (pm_leverage m)
            (negb ((if pm_isUsd m then 1 else 0) =? 0)%Z) = m.
Proof. destruct m as [d l []]; reflexivity. Qed.

(** The holdings rows of the strategy after the persisting loop ran over
    [l]: those before it, then one row per positive bucket of [l]. *)
Lemma persist_fold_rows id meta (l : Buckets) db0 :
  NoDup (JsObj.keys l) -> upperKeys l ->
  (forall r, In r (db_holdings db0) -> hdb_strategy_id r = id ->
     ~ In (hd_asset_symbol (hdb_holding r)) (JsObj.keys l)) ->
  filter (fun r => (hdb_strategy_id r =? id)%Z)
    (db_holdings
       (fold_left
          (fun db e =>
             if Qleb (snd e) 0 then db
             else
               upsertHoldingStmt db id (toUpperCase (fst e)) (snd e)
                 (pm_direction (holdingMeta meta (fst e)))
                 (pm_leverage (holdingMeta meta (fst e)))
                 (if pm_isUsd (holdingMeta meta (fst e)) then 1 else 0)%Z)
          l db0))
  = filter (fun r => (hdb_strategy_id r =? id)%Z) (db_holdings db0)
    ++ map (fun e =>
              mkHoldingDbRow id
                (mkHoldingRow (fst e) (snd e)
                   (pm_direction (holdingMeta meta (fst e)))
                   (pm_leverage (holdingMeta meta (fst e)))
                   (if pm_isUsd (holdingMeta meta (fst e)) then 1 else 0)%Z))
           (positiveBuckets l).
Proof.
  revert db0. induction l as [|[k v] r IH]; intros db0 Hnd Hup Hfree; simpl.
  - now rewrite app_nil_r.
  - inversion Hnd as [|? ? Hnotin Hnd']; subst.
    inversion Hup as [|? ? Hk Hup']; subst. cbn [fst snd] in *.
    unfold positiveBuckets. cbn [filter snd fst].
    change (Qltb 0 v) with (negb (Qleb v 0)).
    destruct (Qleb v 0) eqn:E; cbn [negb].
    + apply IH; auto. intros x Hx Hid Hin. apply (Hfree x Hx Hid). now right.
    + rewrite Hk.
      assert (Hex : existsb
                (fun x => (hdb_strategy_id x =? id)%Z
                          && String.eqb (hd_asset_symbol (hdb_holding x)) k)
                (db_holdings db0) = false).
      { destruct (existsb _ _) eqn:Ex; [|reflexivity].
        apply existsb_exists in Ex. destruct Ex as (x & Hx & Hkey).
        apply andb_true_iff in Hkey. destruct Hkey as [H1 H2].
        apply Z.eqb_eq in H1. apply String.eqb_eq in H2.
        exfalso. apply (Hfree x Hx H1). left. now rewrite H2. }
      rewrite IH; auto.
      * unfold upsertHoldingStmt, upsertBy.
        cbn [db_holdings withHoldings]. rewrite Hex.
        rewrite filter_app. cbn [filter hdb_strategy_id].
        rewrite Z.eqb_refl, <- app_assoc. reflexivity.
      * intros x Hx Hid Hin. unfold upsertHoldingStmt, upsertBy in Hx.
        cbn [db_holdings withHoldings] in Hx. rewrite Hex in Hx.
        apply in_app_or in Hx. destruct Hx as [Hx|[<-|[]]].
        -- apply (Hfree x Hx Hid). now right.
        -- cbn [hdb_holding hd_asset_symbol] in Hin. contradiction.
Qed.

(** What the resume loop rebuilds from rows of distinct symbols: one bucket
    and one parameter record per row, in the order of the rows. *)
Lemma resume_fold_rows (rows : list HoldingRow) bm :
  NoDup (JsObj.keys (fst bm)
         ++ map (fun r => toUpperCase (hd_asset_symbol r)) rows) ->
  JsObj.keys (snd bm) = JsObj.keys (fst bm) ->
  fold_left
    (fun bm r =>
       let sym := toUpperCase (hd_asset_symbol r) in
       (JsObj.set (fst bm) sym (hd_value r),
        JsObj.set (snd bm) sym
          (mkPosMeta (hd_direction r) (hd_leverage r)
                     (negb (hd_is_usd r =? 0)%Z))))
    rows bm
  = (fst bm
     ++ map (fun r => (toUpperCase (hd_asset_symbol r), hd_value r)) rows,
     snd bm
     ++ map (fun r => (toUpperCase (hd_asset_symbol r),
                       mkPosMeta (hd_direction r) (hd_leverage r)
                                 (negb (hd_is_usd r =? 0)%Z))) rows).
Proof.
  revert bm. induction rows as [|r rest IH]; intros bm Hnd Hkeys; simpl.
  - rewrite !app_nil_r. now destruct bm.
  - assert (Hn : ~ In (toUpperCase (hd_asset_symbol r))
                      (JsObj.keys (fst bm))).
    { intros Hin. apply NoDup_remove_2 in Hnd. apply Hnd.
      apply in_or_app. now left. }
    rewrite IH; cbn [fst snd].
    + rewrite !set_notin by (rewrite ?Hkeys; exact Hn).
      rewrite <- !app_assoc. reflexivity.
    + rewrite set_notin by exact Hn. unfold JsObj.keys in *.
      rewrite map_app, <- app_assoc. exact Hnd.
    + rewrite !set_notin by (rewrite ?Hkeys; exact Hn).
      unfold JsObj.keys in *. rewrite !map_app. now rewrite Hkeys.
Qed.

Lemma sumBuckets_positive buckets :
  nonNegative buckets -> sumBuckets (positiveBuckets buckets) == sumBuckets buckets.
Proof.
  induction 1 as [|[k v] r Hv _ IH]; [reflexivity|].
  unfold positiveBuckets in *. cbn [filter snd] in *.
  destruct (Qltb 0 v) eqn:E.
  - rewrite !sumBuckets_cons, IH. reflexivity.
  - apply Qltb_ge in E. rewrite sumBuckets_cons, IH. lra.
Qed.

Lemma sumBuckets_perm (a b : Buckets) :
  Permutation a b -> sumBuckets a == sumBuckets b.
Proof.
  induction 1 as [|[k v] l l' _ IH|[k v] [k' v'] l|l l' l'' _ IH1 _ IH2].
  - reflexivity.
  - rewrite !sumBuckets_cons, IH. reflexivity.
  - rewrite !sumBuckets_cons. ring.
  - now rewrite IH1.
Qed.

(** The rows a pass leaves for its strategy, in the order the store answers:
    one per bucket of positive value, with the parameters of that bucket. *)
Lemma persisted_rows_perm id (buckets : Buckets) meta db :
  JsObj.wf buckets -> upperKeys buckets ->
  Permutation
    (getHoldingsForStrategyStmt (persistHoldings id buckets meta db) id)
    (map (fun e =>
            mkHoldingRow (fst e) (snd e)
              (pm_direction (holdingMeta meta (fst e)))
              (pm_leverage (holdingMeta meta (fst e)))
              (if pm_isUsd (holdingMeta meta (fst e)) then 1 else 0)%Z)
         (positiveBuckets buckets)).
Proof.
  intros Hwf Hup.
  unfold getHoldingsForStrategyStmt. rewrite orderByText_perm.
  unfold persistHoldings, JsObj.entries.
  change (fun (db0 : Db) (e : string * Q) =>
            if Qleb (snd e) 0 then db0
            else
              upsertHoldingStmt db0 id (toUpperCase (fst e)) (snd e)
                (pm_direction
                   match JsObj.get meta (toUpperCase (fst e)) with
                   | Some m => m
                   | None => mkPosMeta (if isUsdAsset (fst e) then 0 else 1)
                                       1 (isUsdAsset (fst e))
                   end)
                (pm_leverage
                   match JsObj.get meta (toUpperCase (fst e)) with
                   | Some m => m
                   | None => mkPosMeta (if isUsdAsset (fst e) then 0 else 1)
                                       1 (isUsdAsset (fst e))
                   end)
                (if pm_isUsd
                      match JsObj.get meta (toUpperCase (fst e)) with
                      | Some m => m
                      | None => mkPosMeta (if isUsdAsset (fst e) then 0 else 1)
                                          1 (isUsdAsset (fst e))
                      end
                 then 1 else 0)%Z)
    with (fun (db0 : Db) (e : string * Q) =>
            if Qleb (snd e) 0 then db0
            else
              upsertHoldingStmt db0 id (toUpperCase (fst e)) (snd e)
                (pm_direction (holdingMeta meta (fst e)))
                (pm_leverage (holdingMeta meta (fst e)))
                (if pm_isUsd (holdingMeta meta (fst e)) then 1 else 0)%Z).
  rewrite persist_fold_rows; [|exact Hwf|exact Hup|].
  - assert (Hnil : filter (fun r => (hdb_strategy_id r =? id)%Z)
                     (db_holdings (deleteHoldingsForStrategyStmt db id)) = []).
    { unfold deleteHoldingsForStrategyStmt. cbn [db_holdings withHoldings].
      induction (db_holdings db) as [|r l IH]; [reflexivity|]. simpl.
      destruct (hdb_strategy_id r =? id)%Z eqn:E; simpl; [exact IH|].
      now rewrite E. }
    rewrite Hnil. cbn [app]. rewrite map_map. reflexivity.
  - intros r Hr Hid. unfold deleteHoldingsForStrategyStmt in Hr.
    cbn [db_holdings withHoldings] in Hr. apply filter_In in Hr.
    destruct Hr as [_ Hr]. apply negb_true_iff in Hr.
    apply Z.eqb_neq in Hr. contradiction.
Qed.

(** X14: Persisted holdings resume as they were written, in whatever order
    the store answers. For valid holdings, the resume loop run on the rows a
    pass wrote for them, taken in any order, rebuilds the buckets of positive
    value and, for each, the direction, leverage and cash flag it was
    written with, up to the order of the keys, and the total is the total of
    the holdings. This is the state before the signals up to the watermark
    are skipped: that loop then renews the parameters from those signals and
    may replace or drop an entry. *)
Theorem holdings_survive_persist_and_resume
  (id : Z) (buckets : Buckets) (meta : Metas) (db : Db)
  (rows : list HoldingRow) :
  validHoldings buckets ->
  Permutation rows
    (getHoldingsForStrategyStmt (persistHoldings id buckets meta db) id) ->
  Permutation (fst (resumeHoldings rows)) (positiveBuckets buckets)
  /\ Permutation (snd (resumeHoldings rows))
       (map (fun e => (fst e, holdingMeta meta (fst e)))
            (positiveBuckets buckets))
  /\ JsObj.keys (snd (resumeHoldings rows))
     = JsObj.keys (fst (resumeHoldings rows))
  /\ validHoldings (fst (resumeHoldings rows))
  /\ sumBuckets (fst (resumeHoldings rows)) == sumBuckets buckets.
Proof.
  intros (Hwf & Hup & Hnn) Hrows.
  pose proof (persisted_rows_perm id buckets meta db Hwf Hup) as Hstored.
  set (rowOf := fun e : string * Q =>
         mkHoldingRow (fst e) (snd e)
           (pm_direction (holdingMeta meta (fst e)))
           (pm_leverage (holdingMeta meta (fst e)))
           (if pm_isUsd (holdingMeta meta (fst e)) then 1 else 0)%Z) in *.
  assert (Hwritten : Permutation rows (map rowOf (positiveBuckets buckets))).
  { etransitivity; [exact Hrows|exact Hstored]. }
  clear Hrows Hstored.
  assert (Hpup : upperKeys (positiveBuckets buckets)).
  { unfold positiveBuckets, upperKeys. now apply filter_Forall. }
  assert (Hpwf : JsObj.wf (positiveBuckets buckets)).
  { unfold positiveBuckets. now apply wf_filter. }
  assert (Hb : map (fun r => (toUpperCase (hd_asset_symbol r), hd_value r))
                   (map rowOf (positiveBuckets buckets))
               = positiveBuckets buckets).
  { rewrite map_map.
    transitivity (map (fun e => e) (positiveBuckets buckets));
      [|apply map_id].
    apply map_ext_in. intros [k v] He.
    unfold upperKeys in Hpup. rewrite Forall_forall in Hpup.
    specialize (Hpup _ He). cbn [fst] in Hpup.
    cbn [rowOf fst snd hd_asset_symbol hd_value]. now rewrite Hpup. }
  assert (Hm : map (fun r => (toUpperCase (hd_asset_symbol r),
                              mkPosMeta (hd_direction r) (hd_leverage r)
                                        (negb (hd_is_usd r =? 0)%Z)))
                   (map rowOf (positiveBuckets buckets))
               = map (fun e => (fst e, holdingMeta meta (fst e)))
                     (positiveBuckets buckets)).
  { rewrite map_map. apply map_ext_in. intros [k v] He.
    unfold upperKeys in Hpup. rewrite Forall_forall in Hpup.
    specialize (Hpup _ He). cbn [fst] in Hpup.
    cbn [rowOf fst snd hd_asset_symbol hd_direction hd_leverage hd_is_usd].
    now rewrite Hpup, PosMeta_roundtrip. }
  assert (Hnd : NoDup (map (fun r => toUpperCase (hd_asset_symbol r)) rows)).
  { eapply Permutation_NoDup.
    - symmetry. apply Permutation_map. exact Hwritten.
    - replace (map (fun r => toUpperCase (hd_asset_symbol r))
                   (map rowOf (positiveBuckets buckets)))
        with (map fst (map (fun r => (toUpperCase (hd_asset_symbol r),
                                      hd_value r))
                           (map rowOf (positiveBuckets buckets))))
        by (rewrite !map_map; reflexivity).
      rewrite Hb. exact Hpwf. }
  assert (Hres : resumeHoldings rows
                 = (map (fun r => (toUpperCase (hd_asset_symbol r),
                                   hd_value r)) rows,
                    map (fun r => (toUpperCase (hd_asset_symbol r),
                                   mkPosMeta (hd_direction r) (hd_leverage r)
                                             (negb (hd_is_usd r =? 0)%Z)))
                        rows)).
  { apply (resume_fold_rows rows ([], [])); [exact Hnd|reflexivity]. }
  rewrite Hres. cbn [fst snd]. clear Hres.
  assert (H1 : Permutation
                 (map (fun r => (toUpperCase (hd_asset_symbol r), hd_value r))
                      rows)
                 (positiveBuckets buckets)).
  { rewrite <- Hb. apply Permutation_map. exact Hwritten. }
  split; [exact H1|]. split.
  { rewrite <- Hm. apply Permutation_map. exact Hwritten. }
  split.
  { unfold JsObj.keys. rewrite !map_map. reflexivity. }
  split.
  - split; [|split].
    + unfold JsObj.wf, JsObj.keys. rewrite map_map. exact Hnd.
    + unfold upperKeys. eapply Permutation_Forall; [symmetry; exact H1|].
      exact Hpup.
    + unfold nonNegative. eapply Permutation_Forall; [symmetry; exact H1|].
      unfold positiveBuckets. now apply filter_Forall.
  - rewrite (sumBuckets_perm _ _ H1). now apply sumBuckets_positive.
Qed.

Lemma holdings_survive_persist_and_resume_witness :
  Permutation
    (fst (resumeHoldings
            [mkHoldingRow "BTC" (1 # 5) 1 1 0; mkHoldingRow "USD" (2 # 5) 0 1 1;
             mkHoldingRow "SOL" (2 # 5) (-1) 3 0]))
    (positiveBuckets [("USD", 2 # 5); ("SOL", 2 # 5); ("ETH", 0);
                      ("BTC", 1 # 5)])
  /\ sumBuckets
       (fst (resumeHoldings
               [mkHoldingRow "BTC" (1 # 5) 1 1 0;
                mkHoldingRow "USD" (2 # 5) 0 1 1;
                mkHoldingRow "SOL" (2 # 5) (-1) 3 0]))
     == sumBuckets [("USD", 2 # 5); ("SOL", 2 # 5); ("ETH", 0);
                    ("BTC", 1 # 5)].
Proof.
  assert (H : validHoldings [("USD", 2 # 5); ("SOL", 2 # 5); ("ETH", 0);
                             ("BTC", 1 # 5)]).
  { repeat split.
    - repeat constructor; simpl; intuition discriminate.
    - repeat constructor.
    - repeat constructor; simpl; discriminate. }
  assert (Hrows : Permutation
            [mkHoldingRow "BTC" (1 # 5) 1 1 0; mkHoldingRow "USD" (2 # 5) 0 1 1;
             mkHoldingRow "SOL" (2 # 5) (-1) 3 0]
            (getHoldingsForStrategyStmt
               (persistHoldings 1
                  [("USD", 2 # 5); ("SOL", 2 # 5); ("ETH", 0); ("BTC", 1 # 5)]
                  [("SOL", mkPosMeta (-1) 3 false)] emptyDb) 1)).
  { change (Permutation
              [mkHoldingRow "BTC" (1 # 5) 1 1 0;
               mkHoldingRow "USD" (2 # 5) 0 1 1;
               mkHoldingRow "SOL" (2 # 5) (-1) 3 0]
              [mkHoldingRow "BTC" (1 # 5) 1 1 0;
               mkHoldingRow "SOL" (2 # 5) (-1) 3 0;
               mkHoldingRow "USD" (2 # 5) 0 1 1]).
    apply perm_skip. apply perm_swap. }
  destruct (holdings_survive_persist_and_resume 1
              [("USD", 2 # 5); ("SOL", 2 # 5); ("ETH", 0); ("BTC", 1 # 5)]
              [("SOL", mkPosMeta (-1) 3 false)] emptyDb
              [mkHoldingRow "BTC" (1 # 5) 1 1 0;
               mkHoldingRow "USD" (2 # 5) 0 1 1;
               mkHoldingRow "SOL" (2 # 5) (-1) 3 0] H Hrows)
    as (H1 & _ & _ & _ & H5).
  split; assumption.
Defined.

(** ** The price a pass uses comes from the latest row *)

(** X15: The price the replay looks up for a symbol at a time is read from the
    store's latest price row of that symbol (compared in upper case) at or
    before that time, and only if that price is positive; there is no price
    exactly when the symbol has no row at or before the time or the latest
    such row's price is not positive. *)
Theorem price_lookup_reads_the_latest_row (db : Db) (sym : string) (t : Z) :
  (forall p,
     priceAtOrBefore
       (JsObj.get (buildPriceSeries (getAllPriceRowsStmt db)) sym) t = Some p ->
     0 < p
     /\ exists r,
          In r (db_prices db) /\ toUpperCase (pr_asset_symbol r) = sym
          /\ (pr_timestamp r <= t)%Z /\ pr_price_usd r = p
          /\ forall r', In r' (db_prices db) ->
               toUpperCase (pr_asset_symbol r') = sym ->
               (pr_timestamp r' <= t)%Z ->
               (pr_timestamp r' <= pr_timestamp r)%Z)
  /\ (priceAtOrBefore
        (JsObj.get (buildPriceSeries (getAllPriceRowsStmt db)) sym) t = None ->
      (forall r, In r (db_prices db) ->
         toUpperCase (pr_asset_symbol r) = sym -> (t < pr_timestamp r)%Z)
      \/ exists r,
           In r (db_prices db) /\ toUpperCase (pr_asset_symbol r) = sym
           /\ (pr_timestamp r <= t)%Z /\ pr_price_usd r <= 0
           /\ forall r', In r' (db_prices db) ->
                toUpperCase (pr_asset_symbol r') = sym ->
                (pr_timestamp r' <= t)%Z ->
                (pr_timestamp r' <= pr_timestamp r)%Z).
Proof.
  assert (Hget : JsObj.get (buildPriceSeries (getAllPriceRowsStmt db)) sym
                 = seriesOfRows (getAllPriceRowsStmt db) sym).
  { unfold buildPriceSeries.
    apply (buildPriceSeries_fold (getAllPriceRowsStmt db) [] []).
    reflexivity. }
  rewrite Hget. unfold seriesOfRows.
  pose proof (orderBy_sorted pr_timestamp (db_prices db)) as Hs.
  fold (getAllPriceRowsStmt db) in Hs.
  apply (StronglySorted_filter _
           (fun r => String.eqb (toUpperCase (pr_asset_symbol r)) sym)) in Hs.
  fold (rowsOfSymbol sym (getAllPriceRowsStmt db)) in Hs.
  assert (Hmem : forall r, In r (rowsOfSymbol sym (getAllPriceRowsStmt db)) <->
                   In r (db_prices db) /\ toUpperCase (pr_asset_symbol r) = sym).
  { intros r. unfold rowsOfSymbol. rewrite filter_In.
    unfold getAllPriceRowsStmt. rewrite orderBy_In, String.eqb_eq. tauto. }
  set (l := rowsOfSymbol sym (getAllPriceRowsStmt db)) in *.
  assert (Hsorted : StronglySorted Z.le (map pr_timestamp l))
    by now apply StronglySorted_map_key.
  assert (Hlatest : forall i,
            latestAtOrBefore (map pr_timestamp l) t i ->
            exists r, nth_error l i = Some r
              /\ In r (db_prices db) /\ toUpperCase (pr_asset_symbol r) = sym
              /\ (pr_timestamp r <= t)%Z
              /\ forall r', In r' (db_prices db) ->
                   toUpperCase (pr_asset_symbol r') = sym ->
                   (pr_timestamp r' <= t)%Z ->
                   (pr_timestamp r' <= pr_timestamp r)%Z).
  { intros i [(x & Hx & Hxt) Hafter].
    rewrite nth_error_map in Hx.
    destruct (nth_error l i) as [r|] eqn:Er; [|discriminate].
    injection Hx as <-. exists r. split; [reflexivity|].
    assert (Hr : In r l) by (eapply nth_error_In; eauto).
    apply Hmem in Hr. destruct Hr as [Hr1 Hr2].
    repeat split; auto.
    intros r' Hr' Hsym' Hle'.
    assert (Hin' : In r' l) by (apply Hmem; auto).
    apply In_nth_error in Hin'. destruct Hin' as [j Hj].
    destruct (Nat.le_gt_cases j i) as [Hji|Hij].
    - apply StronglySorted_ascending in Hsorted.
      apply (Hsorted j i _ _ Hji).
      + rewrite nth_error_map, Hj. reflexivity.
      + rewrite nth_error_map, Er. reflexivity.
    - specialize (Hafter j (pr_timestamp r') Hij).
      rewrite nth_error_map, Hj in Hafter. specialize (Hafter eq_refl). lia. }
  destruct l as [|r0 l'] eqn:El.
  { split; [discriminate|]. intros _. left. intros r Hr Hsym.
    exfalso. apply (proj2 (Hmem r)). auto. }
  rewrite <- El in *. clear El r0 l'.
  set (s := mkPriceSeries (map pr_timestamp l) (map pr_price_usd l)).
  assert (Hcases := priceAtOrBefore_cases s t Hsorted).
  destruct Hcases as [[Hnone Hall]|(i & p & Hlat & Hp & Heq)].
  { cbn [s ps_px ps_ts]. now rewrite !length_map. }
  - rewrite Hnone. split; [discriminate|]. intros _. left.
    intros r Hr Hsym.
    assert (Hin : In r l) by (apply Hmem; auto).
    apply In_nth_error in Hin. destruct Hin as [j Hj].
    apply (Hall j). cbn [s ps_ts]. rewrite nth_error_map, Hj. reflexivity.
  - rewrite Heq. cbn [s ps_ts ps_px] in Hlat, Hp.
    destruct (Hlatest i Hlat) as (r & Hr & Hin & Hsym & Hle & Hmax).
    rewrite nth_error_map, Hr in Hp. injection Hp as <-.
    destruct (Qltb 0 (pr_price_usd r)) eqn:Epos.
    + split; [|discriminate]. intros p [= <-]. apply Qltb_lt in Epos.
      split; [assumption|]. exists r. auto.
    + split; [discriminate|]. intros _. right. apply Qltb_ge in Epos.
      exists r. auto.
Qed.

(** ** The statistics pass *)

Section StatsPass.
Variable sqrt : Q -> Q.
Variable ln : Q -> Q.

(** X16: The figures of a stats row are in range whatever the segments, as long
    as no value index is negative: the total return is above -1, the maximum
    drawdown lies between 0 and 1, the annual volatility is the hourly one
    times [sqrt 8760], a volatility that is present is not zero, and a Sharpe
    ratio is only present beside a positive hourly volatility. *)
Theorem stats_row_within_ranges
  (id : Z) (segments : list SegmentRow) (nowSec : Z) (window : StatWindow) :
  Forall (fun s => 0 <= seg_value_index_end s) segments ->
  -1 < ss_total_return (windowStatsRow sqrt ln id segments nowSec window)
  /\ 0 <= ss_max_drawdown (windowStatsRow sqrt ln id segments nowSec window)
     <= 1
  /\ ss_vol_annual (windowStatsRow sqrt ln id segments nowSec window)
     = option_map (fun v => v * sqrt 8760)
         (ss_vol_hourly (windowStatsRow sqrt ln id segments nowSec window))
  /\ (forall v,
        ss_vol_hourly (windowStatsRow sqrt ln id segments nowSec window)
        = Some v -> ~ v == 0)
  /\ (ss_sharpe_annual (windowStatsRow sqrt ln id segments nowSec window)
      <> None ->
      exists v,
        ss_vol_hourly (windowStatsRow sqrt ln id segments nowSec window)
        = Some v /\ 0 < v).
Proof.
  intros Hall.
  assert (Hneutral : forall a b c,
    -1 < ss_total_return (mkStatsDbRow id (w_id window) nowSec a b c 0 0)
    /\ 0 <= ss_max_drawdown (mkStatsDbRow id (w_id window) nowSec a b c 0 0)
       <= 1) by (intros; cbn; lra).
  unfold windowStatsRow. cbv zeta.
  destruct (windowStart segments nowSec window) as [i0|].
  2:{ cbn. repeat split; try lra; try discriminate. now intros H; elim H. }
  set (valueIdx := map seg_value_index_end segments).
  set (base := windowBaseValue valueIdx i0).
  set (final := nth (List.length segments - 1) valueIdx 0).
  destruct (Qleb base 0 || Qleb final 0) eqn:E.
  { cbn. repeat split; try lra; try discriminate. now intros H; elim H. }
  apply orb_false_iff in E. destruct E as [Eb Ef].
  apply Qleb_gt in Eb, Ef.
  assert (Htr : -1 < final / base - 1).
  { assert (0 < final / base)
      by (apply Qlt_shift_div_l; [assumption|lra]).
    lra. }
  assert (Hvals : Forall (fun v => 0 <= v) valueIdx).
  { subst valueIdx. apply Forall_map. exact Hall. }
  assert (Hdd : 0 <= computeMaxDrawdown valueIdx i0 base <= 1).
  { unfold computeMaxDrawdown. apply maxDrawdownLoop_range; auto; try lra.
    apply Forall_forall. intros x Hx. rewrite Forall_forall in Hvals.
    apply Hvals. rewrite <- (firstn_skipn i0 valueIdx).
    apply in_or_app. now right. }
  destruct (Qleb _ 0 || (_ <? 2)%nat).
  { cbn. repeat split; try apply Hdd; try assumption; try discriminate.
    now intros H; elim H. }
  set (std := sqrt (sampleVariance (snd (collectWindow (skipn i0 segments) 0 [])))).
  destruct (Qeqb std 0) eqn:Es.
  { cbn. repeat split; try apply Hdd; try assumption; try discriminate.
    now intros H; elim H. }
  cbn [ss_total_return ss_max_drawdown ss_vol_annual ss_vol_hourly
       ss_sharpe_annual option_map].
  split; [assumption|]. split; [exact Hdd|]. split; [reflexivity|]. split.
  - intros v [= <-] H0. apply Qeqb_eq in H0. congruence.
  - intros Hsh. exists std. split; [reflexivity|].
    destruct (_ && Qltb 0 std) eqn:Ec; [|now elim Hsh].
    apply andb_true_iff in Ec. destruct Ec as [_ Ec]. now apply Qltb_lt.
Qed.

(** One strategy's turn of the pass. *)
Lemma recomputeStatsForStrategy_frame id segments nowSec db :
  db_prices (recomputeStatsForStrategy sqrt ln id segments nowSec db)
  = db_prices db
  /\ db_strategies (recomputeStatsForStrategy sqrt ln id segments nowSec db)
     = db_strategies db
  /\ db_signals (recomputeStatsForStrategy sqrt ln id segments nowSec db)
     = db_signals db
  /\ db_segments (recomputeStatsForStrategy sqrt ln id segments nowSec db)
     = db_segments db
  /\ db_holdings (recomputeStatsForStrategy sqrt ln id segments nowSec db)
     = db_holdings db
  /\ db_snapshots (recomputeStatsForStrategy sqrt ln id segments nowSec db)
     = db_snapshots db.
Proof.
  unfold recomputeStatsForStrategy.
  destruct segments as [|s0 rest]; [now repeat split|].
  generalize (s0 :: rest). intros segs. revert db.
  induction STAT_WINDOWS as [|w ws IH]; intros db; simpl; [now repeat split|].
  destruct (IH (upsertStatsStmt db (windowStatsRow sqrt ln id segs nowSec w)))
    as (H1 & H2 & H3 & H4 & H5 & H6).
  now repeat split.
Qed.

Lemma recomputeStatsForStrategy_other id id' segments nowSec db win :
  id' <> id \/ segments = [] ->
  getStatsRow (recomputeStatsForStrategy sqrt ln id segments nowSec db) id' win
  = getStatsRow db id' win.
Proof.
  unfold recomputeStatsForStrategy.
  destruct segments as [|s0 rest]; [reflexivity|].
  intros [Hne|Hnil]; [|discriminate].
  generalize (s0 :: rest). intros segs. revert db.
  induction STAT_WINDOWS as [|w ws IH]; intros db; simpl; [reflexivity|].
  rewrite IH, getStatsRow_upsert.
  destruct (windowStatsRow_key sqrt ln id segs nowSec w) as (-> & _ & _).
  replace (id =? id')%Z with false by (symmetry; apply Z.eqb_neq; congruence).
  reflexivity.
Qed.

Lemma recomputeStatsForStrategy_same id segments nowSec db window :
  segments <> [] -> In window STAT_WINDOWS ->
  getStatsRow (recomputeStatsForStrategy sqrt ln id segments nowSec db)
              id (w_id window)
  = Some (windowStatsRow sqrt ln id segments nowSec window).
Proof.
  intros Hne Hin. unfold recomputeStatsForStrategy.
  destruct segments as [|s0 rest]; [contradiction|].
  set (segs := s0 :: rest).
  unfold STAT_WINDOWS in *. cbn [fold_left].
  assert (Hid : forall w,
    ss_strategy_id (windowStatsRow sqrt ln id segs nowSec w) = id)
    by (intros w; apply windowStatsRow_key).
  assert (Hwin : forall w,
    ss_window (windowStatsRow sqrt ln id segs nowSec w) = w_id w)
    by (intros w; apply windowStatsRow_key).
  simpl in Hin.
  repeat (destruct Hin as [<-|Hin];
          [rewrite !getStatsRow_upsert, !Hid, !Hwin, !Z.eqb_refl;
           reflexivity|]).
  contradiction.
Qed.

Lemma recomputeAll_fold_frame nowSec (l : list StrategyRow) db :
  let db' :=
    fold_left
      (fun db strat =>
         recomputeStatsForStrategy sqrt ln (st_id strat)
           (getSegmentsForStrategyStmt db (st_id strat)) nowSec db) l db in
  db_prices db' = db_prices db /\ db_strategies db' = db_strategies db
  /\ db_signals db' = db_signals db /\ db_segments db' = db_segments db
  /\ db_holdings db' = db_holdings db /\ db_snapshots db' = db_snapshots db.
Proof.
  revert db. induction l as [|s r IH]; intros db; simpl; [now repeat split|].
  destruct (recomputeStatsForStrategy_frame (st_id s)
              (getSegmentsForStrategyStmt db (st_id s)) nowSec db)
    as (H1 & H2 & H3 & H4 & H5 & H6).
  destruct (IH (recomputeStatsForStrategy sqrt ln (st_id s)
                  (getSegmentsForStrategyStmt db (st_id s)) nowSec db))
    as (G1 & G2 & G3 & G4 & G5 & G6).
  cbv zeta in *. rewrite G1, G2, G3, G4, G5, G6. now repeat split.
Qed.

Lemma getSegments_same_segments a b id :
  db_segments a = db_segments b ->
  getSegmentsForStrategyStmt a id = getSegmentsForStrategyStmt b id.
Proof. unfold getSegmentsForStrategyStmt. now intros ->. Qed.

Lemma recomputeAll_fold_rows nowSec (l : list StrategyRow) db0 db id window :
  db_segments db = db_segments db0 ->
  getSegmentsForStrategyStmt db0 id <> [] -> In window STAT_WINDOWS ->
  getStatsRow db id (w_id window)
  = Some (windowStatsRow sqrt ln id (getSegmentsForStrategyStmt db0 id)
            nowSec window)
  \/ (exists s, In s l /\ st_id s = id) ->
  getStatsRow
    (fold_left
       (fun db strat =>
          recomputeStatsForStrategy sqrt ln (st_id strat)
            (getSegmentsForStrategyStmt db (st_id strat)) nowSec db) l db)
    id (w_id window)
  = Some (windowStatsRow sqrt ln id (getSegmentsForStrategyStmt db0 id)
            nowSec window).
Proof.
  intros Hseg Hne Hwin. revert db Hseg.
  induction l as [|s r IH]; intros db Hseg Hcase; simpl.
  - destruct Hcase as [H|(s & [] & _)]. exact H.
  - apply IH.
    + destruct (recomputeStatsForStrategy_frame (st_id s)
                  (getSegmentsForStrategyStmt db (st_id s)) nowSec db)
        as (_ & _ & _ & H4 & _). now rewrite H4.
    + destruct (Z.eq_dec (st_id s) id) as [Heq|Hneq].
      * left. rewrite Heq.
        rewrite (getSegments_same_segments db db0 id Hseg).
        now apply recomputeStatsForStrategy_same.
      * destruct Hcase as [H|(s' & [->|Hin] & Hid)].
        -- left. rewrite recomputeStatsForStrategy_other by (left; congruence).
           exact H.
        -- contradiction.
        -- right. now exists s'.
Qed.

Lemma recomputeAll_fold_other nowSec (l : list StrategyRow) db0 db id win :
  db_segments db = db_segments db0 ->
  getSegmentsForStrategyStmt db0 id = []
  \/ (forall s, In s l -> st_id s <> id) ->
  getStatsRow
    (fold_left
       (fun db strat =>
          recomputeStatsForStrategy sqrt ln (st_id strat)
            (getSegmentsForStrategyStmt db (st_id strat)) nowSec db) l db)
    id win
  = getStatsRow db id win.
Proof.
  intros Hseg Hcase. revert db Hseg.
  induction l as [|s r IH]; intros db Hseg; simpl; [reflexivity|].
  rewrite IH.
  - apply recomputeStatsForStrategy_other.
    destruct Hcase as [Hnil|Hall].
    + destruct (Z.eq_dec id (st_id s)) as [Heq|Hneq]; [|now left].
      right. rewrite <- Heq.
      now rewrite (getSegments_same_segments db db0 id Hseg).
    + left. intros Heq. apply (Hall s); [now left|congruence].
  - destruct Hcase as [Hnil|Hall]; [now left|right].
    intros s' Hs'. apply Hall. now right.
  - destruct (recomputeStatsForStrategy_frame (st_id s)
                (getSegmentsForStrategyStmt db (st_id s)) nowSec db)
      as (_ & _ & _ & H4 & _). now rewrite H4.
Qed.

(** X17: The statistics pass writes statistics only. Every other table is as it
    was; each strategy with at least one segment has, for each of the six
    windows, the row computed from its segments, whatever the pass did for
    the strategies after it; and no row is written or changed for a strategy
    without segments or for an id that is not a strategy. *)
Theorem stats_pass_writes_statistics_only (nowSec : Z) (db : Db) :
  (db_prices (recomputeAllStrategyStats sqrt ln nowSec db) = db_prices db
   /\ db_strategies (recomputeAllStrategyStats sqrt ln nowSec db)
      = db_strategies db
   /\ db_signals (recomputeAllStrategyStats sqrt ln nowSec db) = db_signals db
   /\ db_segments (recomputeAllStrategyStats sqrt ln nowSec db)
      = db_segments db
   /\ db_holdings (recomputeAllStrategyStats sqrt ln nowSec db)
      = db_holdings db
   /\ db_snapshots (recomputeAllStrategyStats sqrt ln nowSec db)
      = db_snapshots db)
  /\ (forall strat window,
        In strat (db_strategies db) ->
        getSegmentsForStrategyStmt db (st_id strat) <> [] ->
        In window STAT_WINDOWS ->
        getStatsRow (recomputeAllStrategyStats sqrt ln nowSec db)
                    (st_id strat) (w_id window)
        = Some (windowStatsRow sqrt ln (st_id strat)
                  (getSegmentsForStrategyStmt db (st_id strat)) nowSec window))
  /\ (forall id win,
        getSegmentsForStrategyStmt db id = []
        \/ (forall s, In s (db_strategies db) -> st_id s <> id) ->
        getStatsRow (recomputeAllStrategyStats sqrt ln nowSec db) id win
        = getStatsRow db id win).
Proof.
  unfold recomputeAllStrategyStats, getAllStrategiesStmt.
  split; [apply recomputeAll_fold_frame|]. split.
  - intros strat window Hin Hne Hwin.
    apply (recomputeAll_fold_rows nowSec (db_strategies db) db db); auto.
    right. now exists strat.
  - intros id win Hcase.
    now apply (recomputeAll_fold_other nowSec (db_strategies db) db db).
Qed.
End StatsPass.

Lemma stats_row_within_ranges_witness :
  -1 < ss_total_return
         (windowStatsRow sqrtApprox lnApprox 1
            [mkSegmentRow 0 3600 3600 (1 # 10) (1 # 10) (11 # 10);
             mkSegmentRow 3600 7200 3600 (- (1 # 11)) (- (1 # 11)) 1]
            7200 ALL_WINDOW)
  /\ 0 <= ss_max_drawdown
            (windowStatsRow sqrtApprox lnApprox 1
               [mkSegmentRow 0 3600 3600 (1 # 10) (1 # 10) (11 # 10);
                mkSegmentRow 3600 7200 3600 (- (1 # 11)) (- (1 # 11)) 1]
               7200 ALL_WINDOW) <= 1.
Proof.
  assert (H : Forall (fun s => 0 <= seg_value_index_end s)
                [mkSegmentRow 0 3600 3600 (1 # 10) (1 # 10) (11 # 10);
                 mkSegmentRow 3600 7200 3600 (- (1 # 11)) (- (1 # 11)) 1])
    by (repeat constructor; simpl; discriminate).
  pose proof (stats_row_within_ranges sqrtApprox lnApprox 1
                [mkSegmentRow 0 3600 3600 (1 # 10) (1 # 10) (11 # 10);
                 mkSegmentRow 3600 7200 3600 (- (1 # 11)) (- (1 # 11)) 1]
                7200 ALL_WINDOW H) as (H1 & H2 & _).
  split; [exact H1|exact H2].
Defined.

(** ** The hourly job *)

Lemma returnsEarly_signals strat grid a b :
  db_signals a = db_signals b ->
  returnsEarly strat grid a -> returnsEarly strat grid b.
Proof.
  unfold returnsEarly, getSignalsForStrategyStmt. now intros ->.
Qed.

Lemma fold_segmentStep_strategies strat series l st :
  db_strategies (rp_db (fold_left (segmentStep strat series) l st))
  = db_strategies (rp_db st)
  \/ exists vi e,
       db_strategies (rp_db (fold_left (segmentStep strat series) l st))
       = markStrategy (st_id strat) vi e (db_strategies (rp_db st)).
Proof.
  revert st. induction l as [|iv r IH]; intros st; simpl; [now left|].
  destruct (segmentStep_effect strat series st iv)
    as [[-> _]|(_ & _ & [[vi Hmark] _])]; [apply IH|].
  right. destruct (IH (segmentStep strat series st iv)) as [->|(vi' & e & ->)].
  - now exists vi, (snd iv).
  - exists vi', e. rewrite Hmark. apply markStrategy_twice.
Qed.

(** A pass either returns before its transaction or leaves the strategy
    marked with the last timestamp of the grid. *)
Lemma extend_outcome strat grid series db :
  StronglySorted Z.lt grid ->
  returnsEarly strat grid db
  \/ exists vi m,
       gridMax grid = Some m
       /\ db_strategies (extendSegmentsForStrategy strat grid series db)
          = markStrategy (st_id strat) vi m (db_strategies db).
Proof.
  intros Hs.
  destruct (extend_shape strat grid series db)
    as [Hearly|(i & st0 & Hfind & Hbeyond & Hdb & Heq)]; [now left|right].
  rewrite Heq.
  destruct (startIntervals strat grid i Hs Hfind)
    as [Hivs (l & a & m & Hl & Hm)].
  destruct (persistHoldings_frame (st_id strat)
              (rp_buckets (fold_left (segmentStep strat series)
                             (skipn i (gridIntervals grid)) st0))
              (rp_meta (fold_left (segmentStep strat series)
                          (skipn i (gridIntervals grid)) st0))
              (rp_db (fold_left (segmentStep strat series)
                        (skipn i (gridIntervals grid)) st0))) as [-> _].
  rewrite Hl, fold_left_app. cbn [fold_left].
  destruct (gridIntervals_bounds grid (a, m) m Hs Hm) as (Ham & _ & _).
  { apply Hivs. rewrite Hl. apply in_or_app. right. now left. }
  cbn [fst snd] in Ham.
  destruct (segmentStep_effect strat series
              (fold_left (segmentStep strat series) l st0) (a, m))
    as [[_ [Hbad|Hbad]]|(_ & _ & [[vi Hmark] _])]; cbn [fst snd] in *.
  - lia.
  - specialize (Hbeyond m Hm). lia.
  - rewrite Hmark.
    destruct (fold_segmentStep_strategies strat series l st0)
      as [->|(vi' & e & ->)]; rewrite Hdb.
    + now exists vi, m.
    + exists vi, m. split; [assumption|]. apply markStrategy_twice.
Qed.

Lemma watermark_at_gridMax_returnsEarly strat grid db m :
  StronglySorted Z.lt grid -> gridMax grid = Some m ->
  st_last_segment_end_ts strat = Some m -> returnsEarly strat grid db.
Proof.
  intros Hs Hm Hw. right. right. unfold findStartIdx. rewrite Hw.
  apply findIndex_None. intros iv Hiv. apply Z.leb_gt.
  now destruct (gridIntervals_bounds grid iv m Hs Hm Hiv) as (_ & ? & _).
Qed.

Lemma extend_signals strat grid series db :
  db_signals (extendSegmentsForStrategy strat grid series db) = db_signals db
  /\ db_prices (extendSegmentsForStrategy strat grid series db) = db_prices db.
Proof.
  assert (Hne : (st_id strat + 1)%Z <> st_id strat) by lia.
  destruct (extendSegmentsForStrategy_untouched strat grid series db _ Hne)
    as (H1 & H2 & _).
  split; congruence.
Qed.

(** After the passes for [l], every strategy row of the store that is not
    itself still in [l] makes its pass return early. *)
Lemma passes_leave_rows_done grid series (l : list StrategyRow) db0 db :
  StronglySorted Z.lt grid ->
  db_signals db = db_signals db0 ->
  (forall s, In s (db_strategies db) ->
     returnsEarly s grid db0 \/ In s l) ->
  db_signals
    (fold_left (fun db strat => extendSegmentsForStrategy strat grid series db)
               l db) = db_signals db0
  /\ db_prices
       (fold_left (fun db strat => extendSegmentsForStrategy strat grid series db)
                  l db) = db_prices db
  /\ forall s,
       In s (db_strategies
               (fold_left
                  (fun db strat => extendSegmentsForStrategy strat grid series db)
                  l db)) ->
       returnsEarly s grid db0.
Proof.
  intros Hs. revert db.
  induction l as [|s r IH]; intros db Hsig Hrows; simpl.
  - split; [assumption|]. split; [reflexivity|].
    intros x Hx. destruct (Hrows x Hx) as [H|[]]. exact H.
  - destruct (extend_signals s grid series db) as [Hsig' Hpr'].
    destruct (IH (extendSegmentsForStrategy s grid series db)) as (H1 & H2 & H3).
    + congruence.
    + intros x Hx.
      destruct (extend_outcome s grid series db Hs)
        as [Hearly|(vi & m & Hm & Hmark)].
      * rewrite (extend_returnsEarly s grid series db Hearly) in Hx.
        destruct (Hrows x Hx) as [H|[<-|H]]; auto.
        left. eapply returnsEarly_signals; [|exact Hearly]. exact Hsig.
      * rewrite Hmark in Hx.
        destruct (Z.eq_dec (st_id x) (st_id s)) as [Heq|Hne].
        -- left. eapply watermark_at_gridMax_returnsEarly; eauto.
           eapply markStrategy_watermark; eauto.
        -- unfold markStrategy, updateStrategyAfterSegmentsStmt in Hx.
           cbn [db_strategies withStrategies emptyDb] in Hx.
           apply in_map_iff in Hx. destruct Hx as (y & Hy & Hin).
           destruct (st_id y =? st_id s)%Z eqn:E.
           ++ subst x. cbn [st_id] in Hne. apply Z.eqb_eq in E. contradiction.
           ++ subst y. destruct (Hrows x Hin) as [H|[<-|H]]; auto.
              now elim Hne.
    + split; [assumption|]. split; [congruence|assumption].
Qed.

Lemma passes_all_early grid series (l : list StrategyRow) db :
  (forall s, In s l -> returnsEarly s grid db) ->
  fold_left (fun db strat => extendSegmentsForStrategy strat grid series db)
            l db = db.
Proof.
  induction l as [|s r IH]; intros Hall; simpl; [reflexivity|].
  rewrite (extend_returnsEarly s grid series db) by (apply Hall; now left).
  apply IH. intros x Hx. apply Hall. now right.
Qed.

(** X18: The hourly job is idempotent: run again on the store it produced (no
    new price and no new signal in between), it changes nothing. *)
Theorem extendAllStrategySegments_idempotent (db : Db) :
  extendAllStrategySegments (extendAllStrategySegments db)
  = extendAllStrategySegments db.
Proof.
  unfold extendAllStrategySegments at 2.
  destruct (List.length (getAllPriceRowsStmt db) <? 2)%nat eqn:E.
  { unfold extendAllStrategySegments. now rewrite E. }
  cbv zeta. unfold getAllStrategiesStmt.
  pose proof (hourlyTimestamps_sorted (getAllPriceRowsStmt db)) as Hs.
  destruct (passes_leave_rows_done (hourlyTimestamps (getAllPriceRowsStmt db))
              (buildPriceSeries (getAllPriceRowsStmt db))
              (db_strategies db) db db Hs eq_refl) as (Hsig & Hpr & Hdone).
  { intros s Hin. now right. }
  set (db1 := fold_left _ (db_strategies db) db) in *.
  unfold extendAllStrategySegments, getAllPriceRowsStmt, getAllStrategiesStmt.
  rewrite Hpr. fold (getAllPriceRowsStmt db). rewrite E.
  apply passes_all_early. intros s Hin.
  eapply returnsEarly_signals; [|apply Hdone; exact Hin]. now symmetry.
Qed.

(** ** Direction and leverage stay in range *)

Lemma validMetaEntry_signal asset direction leverage :
  validMetaEntry
    (toUpperCase asset,
     mkPosMeta (metaDirection (isUsdAsset (toUpperCase asset)) direction)
               (metaLeverage (isUsdAsset (toUpperCase asset)) leverage)
               (isUsdAsset (toUpperCase asset))).
Proof.
  unfold validMetaEntry. cbn [fst snd pm_isUsd pm_direction pm_leverage].
  split; [reflexivity|].
  destruct (isUsdAsset (toUpperCase asset)); split; try discriminate.
  - intros _. split; reflexivity.
  - intros _. unfold metaDirection, metaLeverage. split.
    + destruct (direction =? 1)%Z; auto.
    + destruct (clampLeverage_range leverage) as [(n & Hn & ->) _].
      now exists n.
Qed.

Lemma validMetaEntry_cash : validMetaEntry ("USD", CASH_META).
Proof.
  unfold validMetaEntry. cbn. repeat split; discriminate.
Qed.

Lemma validMeta_set (meta : Metas) k m :
  validMetaEntry (k, m) -> validMeta meta -> validMeta (JsObj.set meta k m).
Proof.
  unfold validMeta. intros Hkm. induction 1 as [|[k0 m0] r H0 Hr IH]; simpl.
  - now constructor.
  - destruct (String.eqb k0 k) eqn:E.
    + apply String.eqb_eq in E. subst k0. now constructor.
    + now constructor.
Qed.

Lemma validMeta_del (meta : Metas) k :
  validMeta meta -> validMeta (JsObj.del meta k).
Proof. unfold validMeta. apply del_Forall. Qed.

Lemma applySignalTargetPct_validMeta buckets meta params :
  validMeta meta -> validMeta (snd (applySignalTargetPct buckets meta params)).
Proof.
  intros Hm. unfold applySignalTargetPct. cbv zeta.
  destruct (negb _); [exact Hm|].
  pose proof (validMeta_set meta _ _
                (validMetaEntry_signal (p_asset params) (p_direction params)
                   (p_leverage params)) Hm) as Hm1.
  destruct (Qleb _ 0 || isBrandNewSeed buckets); [exact Hm1|].
  pose proof (validMeta_set _ "USD" CASH_META validMetaEntry_cash Hm1) as Hm2.
  repeat match goal with
         | |- context [if ?c then _ else _] => destruct c
         end; cbn [fst snd]; auto using validMeta_del.
Qed.

Lemma applySignalsAt_validMeta ts sigs b m :
  validMeta m -> validMeta (snd (fst (applySignalsAt ts sigs b m))).
Proof.
  revert b m. induction sigs as [|s rest IH]; intros b m Hv; simpl; [exact Hv|].
  destruct (sg_timestamp s =? ts)%Z; [|exact Hv].
  apply IH. now apply applySignalTargetPct_validMeta.
Qed.

Lemma fastForwardSignals_validMeta w sigs meta :
  validMeta meta -> validMeta (fst (fastForwardSignals w sigs meta)).
Proof.
  revert meta. induction sigs as [|s rest IH]; intros meta Hm; simpl;
    [exact Hm|].
  destruct (sg_timestamp s <=? w)%Z; [|exact Hm].
  apply IH. destruct (isSupportedAsset _); [|exact Hm].
  destruct (Qleb _ 0); [now apply validMeta_del|].
  apply validMeta_set; [|exact Hm]. apply validMetaEntry_signal.
Qed.

(** X19: Direction and leverage stay in range. A signal, the signals of one
    timestamp, and the resume loop all keep every parameter entry as a signal
    writes it: cash with direction 0 and leverage 1, any other asset long or
    short with a whole leverage from 1 to 5. The entry of the signalled
    asset, when the signal leaves one, is short exactly for the stored
    direction 1, with the signal's leverage floored and clamped. *)
Theorem signals_keep_parameters_in_range
  (buckets : Buckets) (meta : Metas) (params : SignalParams)
  (ts w : Z) (sigs : list SignalRow) :
  validMeta meta ->
  validMeta (snd (applySignalTargetPct buckets meta params))
  /\ validMeta (snd (fst (applySignalsAt ts sigs buckets meta)))
  /\ validMeta (fst (fastForwardSignals w sigs meta))
  /\ (forall pm,
        isSupportedAsset (toUpperCase (p_asset params)) = true ->
        JsObj.get (snd (applySignalTargetPct buckets meta params))
                  (toUpperCase (p_asset params)) = Some pm ->
        pm = mkPosMeta
               (if isUsdAsset (toUpperCase (p_asset params)) then 0
                else if (p_direction params =? 1)%Z then -1 else 1)%Z
               (if isUsdAsset (toUpperCase (p_asset params)) then 1
                else clampLeverage (p_leverage params))
               (isUsdAsset (toUpperCase (p_asset params)))).
Proof.
  intros Hm. split; [now apply applySignalTargetPct_validMeta|].
  split; [now apply applySignalsAt_validMeta|].
  split; [now apply fastForwardSignals_validMeta|].
  intros pm Hsup Hget.
  exact (applySignalTargetPct_meta buckets meta params pm Hsup Hget).
Qed.

Lemma signals_keep_parameters_in_range_witness :
  validMeta
    (snd (applySignalTargetPct [("USD", 1)] [("USD", CASH_META)]
            (mkSignalParams "btc" 1 (15 # 2) 60))).
Proof.
  assert (H : validMeta [("USD", CASH_META)]).
  { constructor; [apply validMetaEntry_cash|constructor]. }
  exact (proj1 (signals_keep_parameters_in_range [("USD", 1)]
                  [("USD", CASH_META)] (mkSignalParams "btc" 1 (15 # 2) 60)
                  0 0 [] H)).
Defined.

(** ** The percentages of a snapshot *)

Lemma sumQ_cons x l : sumQ (x :: l) == x + sumQ l.
Proof. unfold sumQ. simpl. rewrite fold_sum_acc. ring. Qed.

Lemma snapshot_all_supported meta total (l : Buckets) :
  Forall (fun e => isSupportedAsset (toUpperCase (fst e)) = true) l ->
  exists ps,
    filterNonNull (map (snapshotPosition meta total) l) = ps
    /\ map pos_asset ps = map (fun e => toUpperCase (fst e)) l
    /\ map pos_percent ps = map (fun e => snd e / total * 100) l.
Proof.
  induction 1 as [|e r He _ (ps & Hps & Ha & Hp)]; simpl.
  - exists []. auto.
  - unfold snapshotPosition at 1. rewrite He. cbn [negb].
    eexists. split; [reflexivity|]. cbn [map pos_asset pos_percent].
    rewrite Hps, Ha, Hp. auto.
Qed.

Lemma sumQ_percent total (l : Buckets) :
  sumQ (map (fun e => snd e / total * 100) l) == sumBuckets l / total * 100.
Proof.
  induction l as [|[k v] r IH].
  - unfold sumQ, sumBuckets. simpl. unfold Qdiv. ring.
  - cbn [map snd]. rewrite sumQ_cons, IH, sumBuckets_cons.
    unfold Qdiv. ring.
Qed.

(** X20: The percentages of a snapshot add up to 100. For valid holdings whose
    buckets are all supported assets, the snapshot lists exactly the buckets
    of positive value, in their order, each with its share of the total
    (more than 0, at most 100), and the shares sum to 100. *)
Theorem snapshot_percentages_sum_to_100
  (buckets : Buckets) (meta : Metas) (positions : list Position) :
  validHoldings buckets ->
  Forall (fun e => isSupportedAsset (fst e) = true) buckets ->
  snapshotPositions buckets meta = Some positions ->
  map pos_asset positions = JsObj.keys (positiveBuckets buckets)
  /\ map pos_percent positions
     = map (fun e => snd e / sumBuckets buckets * 100) (positiveBuckets buckets)
  /\ sumQ (map pos_percent positions) == 100
  /\ Forall (fun p => 0 < pos_percent p <= 100) positions.
Proof.
  intros (Hwf & Hup & Hnn) Hsup Hsnap. unfold snapshotPositions in Hsnap.
  unfold upperKeys in Hup. rewrite Forall_forall in Hup, Hsup.
  destruct (Qleb (sumBuckets buckets) 0) eqn:E; [discriminate|].
  apply Qleb_gt in E. cbv zeta in Hsnap.
  change (filter (fun e => Qltb 0 (snd e)) (JsObj.entries buckets))
    with (positiveBuckets buckets) in Hsnap.
  assert (Hsup' : Forall (fun e => isSupportedAsset (toUpperCase (fst e)) = true)
                    (positiveBuckets buckets)).
  { unfold positiveBuckets. apply filter_Forall.
    apply Forall_forall. intros e He.
    rewrite (Hup e He). now apply Hsup. }
  destruct (snapshot_all_supported meta (sumBuckets buckets)
              (positiveBuckets buckets) Hsup') as (ps & Hps & Ha & Hp).
  rewrite Hps in Hsnap.
  assert (Heq : positions = ps) by (destruct ps; [discriminate|congruence]).
  rewrite Heq. clear Heq Hsnap Hps positions.
  assert (Hkeys : map (fun e : string * Q => toUpperCase (fst e))
                    (positiveBuckets buckets)
                  = JsObj.keys (positiveBuckets buckets)).
  { unfold JsObj.keys. apply map_ext_in. intros e He.
    unfold positiveBuckets in He. apply filter_In in He.
    destruct He as [He _]. now apply Hup. }
  split; [congruence|]. split; [exact Hp|]. split.
  - rewrite Hp, sumQ_percent, sumBuckets_positive by assumption.
    field. intro H0. rewrite H0 in E. now apply Qlt_irrefl in E.
  - apply Forall_forall. intros p Hin.
    assert (Hin' : In (pos_percent p) (map pos_percent ps))
      by now apply in_map.
    rewrite Hp in Hin'. apply in_map_iff in Hin'.
    destruct Hin' as (e & <- & He).
    unfold positiveBuckets in He. apply filter_In in He.
    destruct He as [He Hpos]. apply Qltb_lt in Hpos.
    assert (Hle : snd e <= sumBuckets buckets).
    { assert (Hget : JsObj.get buckets (fst e) = Some (snd e)).
      { apply JsObjFacts.In_get; [exact Hwf|]. now destruct e. }
      pose proof (bucketOr0_le_sum buckets (fst e) Hnn) as Hb.
      unfold bucketOr0 in Hb. now rewrite Hget in Hb. }
    split.
    + apply Qmult_lt_0_compat; [|reflexivity].
      now apply Qlt_shift_div_l; [|rewrite Qmult_0_l].
    + setoid_replace 100 with (1 * 100) at 2 by ring.
      apply Qmult_le_compat_r; [|discriminate].
      apply Qle_shift_div_r; [assumption|]. lra.
Qed.

Lemma snapshot_percentages_sum_to_100_witness :
  sumQ (map pos_percent
          [mkPosition "BTC" ((3 # 5) / sumBuckets [("BTC", 3 # 5); ("USD", 2 # 5)] * 100)
             "SHORT" 3;
           mkPosition "USD" ((2 # 5) / sumBuckets [("BTC", 3 # 5); ("USD", 2 # 5)] * 100)
             "CASH" 1]) == 100.
Proof.
  assert (H1 : validHoldings [("BTC", 3 # 5); ("USD", 2 # 5)]).
  { repeat split.
    - repeat constructor; simpl; intuition discriminate.
    - repeat constructor.
    - repeat constructor; simpl; discriminate. }
  assert (H2 : Forall (fun e => isSupportedAsset (fst e) = true)
                 [("BTC", 3 # 5); ("USD", 2 # 5)])
    by (repeat constructor).
  assert (H3 : snapshotPositions [("BTC", 3 # 5); ("USD", 2 # 5)]
                 [("BTC", mkPosMeta (-1) 3 false)]
               = Some
                   [mkPosition "BTC"
                      ((3 # 5) / sumBuckets [("BTC", 3 # 5); ("USD", 2 # 5)] * 100)
                      "SHORT" 3;
                    mkPosition "USD"
                      ((2 # 5) / sumBuckets [("BTC", 3 # 5); ("USD", 2 # 5)] * 100)
                      "CASH" 1]) by reflexivity.
  exact (proj1 (proj2 (proj2
    (snapshot_percentages_sum_to_100 [("BTC", 3 # 5); ("USD", 2 # 5)]
       [("BTC", mkPosMeta (-1) 3 false)] _ H1 H2 H3)))).
Defined.

(** ** The approximate snapshot of the ingestion path *)

Lemma insertDesc_perm p l : Permutation (insertDesc p l) (p :: l).
Proof.
  induction l as [|q r IH]; simpl; [reflexivity|].
  destruct (Qltb (pos_percent q) (pos_percent p)); [reflexivity|].
  rewrite IH. apply perm_swap.
Qed.

Lemma insertDesc_sorted p l :
  StronglySorted (fun a b => pos_percent b <= pos_percent a) l ->
  StronglySorted (fun a b => pos_percent b <= pos_percent a) (insertDesc p l).
Proof.
  induction 1 as [|q r Hs IH Hall]; simpl.
  - repeat constructor.
  - destruct (Qltb (pos_percent q) (pos_percent p)) eqn:E.
    + apply Qltb_lt in E. constructor; [now constructor|].
      constructor; [now apply Qlt_le_weak|].
      eapply Forall_impl; [|exact Hall]. intros a Ha. simpl in *. lra.
    + apply Qltb_ge in E. constructor; [assumption|].
      apply Forall_forall. intros a Ha.
      apply (Permutation_in _ (insertDesc_perm p r)) in Ha.
      destruct Ha as [<-|Ha]; [assumption|].
      rewrite Forall_forall in Hall. now apply Hall.
Qed.

Lemma sortDesc_spec l :
  StronglySorted (fun a b => pos_percent b <= pos_percent a) (sortDesc l)
  /\ Permutation (sortDesc l) l.
Proof.
  unfold sortDesc.
  assert (H : forall acc,
    StronglySorted (fun a b => pos_percent b <= pos_percent a) acc ->
    StronglySorted (fun a b => pos_percent b <= pos_percent a)
      (fold_left (fun acc p => insertDesc p acc) l acc)
    /\ Permutation (fold_left (fun acc p => insertDesc p acc) l acc)
                   (acc ++ l)).
  { induction l as [|p r IH]; intros acc Hacc; simpl.
    - rewrite app_nil_r. split; [assumption|reflexivity].
    - destruct (IH (insertDesc p acc) (insertDesc_sorted p acc Hacc))
        as (H1 & H2).
      split; [assumption|]. rewrite H2, insertDesc_perm.
      simpl. apply Permutation_middle. }
  destruct (H [] (SSorted_nil _)) as (H1 & H2). split; assumption.
Qed.

Lemma sumPercent_acc (l : list Position) (a : Q) :
  fold_left (fun a p => a + pos_percent p) l a == a + sumPercent l.
Proof.
  unfold sumPercent. revert a. induction l as [|x r IH]; intros a; simpl.
  - ring.
  - rewrite (IH (a + pos_percent x)), (IH (0 + pos_percent x)). ring.
Qed.

Lemma sumPercent_cons p l : sumPercent (p :: l) == pos_percent p + sumPercent l.
Proof. unfold sumPercent at 1. simpl. rewrite sumPercent_acc. ring. Qed.

Lemma sumPercent_perm l l' :
  Permutation l l' -> sumPercent l == sumPercent l'.
Proof.
  induction 1 as [|x l l' _ IH|x y l|l l' l'' _ IH1 _ IH2].
  - reflexivity.
  - now rewrite !sumPercent_cons, IH.
  - rewrite !sumPercent_cons. ring.
  - now rewrite IH1.
Qed.

Lemma round6_grid x :
  0 <= x ->
  exists z, (0 <= z)%Z /\ round6 x = inject_Z z / 1000000.
Proof.
  intros Hx. exists (Qfloor (x * 1000000 + (1 # 2))). split; [|reflexivity].
  change 0%Z with (Qfloor 0). apply Qfloor_resp_le.
  assert (0 <= x * 1000000) by (apply Qmult_le_0_compat; [assumption|discriminate]).
  lra.
Qed.

Lemma round6_close x : Qabs (round6 x - x) <= 1 # 2000000.
Proof.
  unfold round6. set (y := x * 1000000 + (1 # 2)).
  pose proof (Qfloor_le y) as H1. pose proof (Qlt_floor y) as H2.
  rewrite inject_Z_plus in H2. change (inject_Z 1) with 1 in H2.
  apply Qabs_Qle_condition.
  assert (Hx : x == (y - (1 # 2)) / 1000000) by (subst y; field).
  split.
  - apply Qle_minus_iff. rewrite Hx. unfold Qdiv.
    setoid_replace (inject_Z (Qfloor y) * / 1000000
                    - (y - (1 # 2)) * / 1000000 + - - (1 # 2000000))
      with ((inject_Z (Qfloor y) + 1 - y) * / 1000000) by field.
    apply Qmult_le_0_compat; [lra|discriminate].
  - apply Qle_minus_iff. rewrite Hx. unfold Qdiv.
    setoid_replace ((1 # 2000000)
                    + - (inject_Z (Qfloor y) * / 1000000
                         - (y - (1 # 2)) * / 1000000))
      with ((y - inject_Z (Qfloor y)) * / 1000000) by field.
    apply Qmult_le_0_compat; [lra|discriminate].
Qed.

Lemma round6_whole (n : Z) : round6 (inject_Z n) == inject_Z n.
Proof.
  unfold round6.
  assert (H : Qfloor (inject_Z n * 1000000 + (1 # 2)) = (n * 1000000)%Z).
  { assert (H1 : (Qfloor (inject_Z n * 1000000 + (1 # 2)) < n * 1000000 + 1)%Z).
    { apply Qfloor_lt_Z. rewrite inject_Z_plus, inject_Z_mult.
      change (inject_Z 1000000) with 1000000. change (inject_Z 1) with 1. lra. }
    assert (H2 : (n * 1000000 <= Qfloor (inject_Z n * 1000000 + (1 # 2)))%Z).
    { apply Qfloor_ge_Z. rewrite inject_Z_mult.
      change (inject_Z 1000000) with 1000000. lra. }
    lia. }
  rewrite H, inject_Z_mult. change (inject_Z 1000000) with 1000000. field.
Qed.

Lemma percentBuckets_get (o : JsObj.t Position) k :
  JsObj.get (percentBuckets o) k = option_map pos_percent (JsObj.get o k).
Proof.
  induction o as [|[k0 v0] r IH]; simpl; [reflexivity|].
  now destruct (String.eqb k0 k).
Qed.

Lemma percentBuckets_set (o : JsObj.t Position) k v :
  percentBuckets (JsObj.set o k v) = JsObj.set (percentBuckets o) k (pos_percent v).
Proof.
  induction o as [|[k0 v0] r IH]; simpl; [reflexivity|].
  destruct (String.eqb k0 k); simpl; [reflexivity|now rewrite IH].
Qed.

Lemma percentBuckets_del (o : JsObj.t Position) k :
  percentBuckets (JsObj.del o k) = JsObj.del (percentBuckets o) k.
Proof.
  induction o as [|[k0 v0] r IH]; simpl; [reflexivity|].
  destruct (String.eqb k0 k); simpl; [assumption|now rewrite IH].
Qed.

Lemma percentBuckets_scaleOthers asset c (o : JsObj.t Position) :
  percentBuckets (scaleOtherPositions asset c o)
  = scaleOthers asset c (percentBuckets o).
Proof.
  unfold percentBuckets, scaleOtherPositions, scaleOthers.
  rewrite !map_map. apply map_ext. intros [k v]. cbn [fst snd].
  now destruct (String.eqb k asset).
Qed.

Lemma percentBuckets_sum (o : JsObj.t Position) :
  sumPercent (JsObj.values o) == sumBuckets (percentBuckets o).
Proof.
  induction o as [|[k v] r IH].
  - reflexivity.
  - change (JsObj.values ((k, v) :: r)) with (v :: JsObj.values r).
    change (percentBuckets ((k, v) :: r))
      with ((k, pos_percent v) :: percentBuckets r).
    now rewrite sumPercent_cons, sumBuckets_cons, IH.
Qed.

Lemma percentBuckets_scaleAll c (o : JsObj.t Position) k :
  JsObj.get (percentBuckets (scalePositions c o)) k
  = option_map (fun v => v * c) (JsObj.get (percentBuckets o) k).
Proof.
  induction o as [|[k0 v0] r IH]; simpl; [reflexivity|].
  now destruct (String.eqb k0 k).
Qed.

(** The base object of normalised positions holds them as they are. *)
Lemma approxBase_normalised ps :
  normalisedPositions ps ->
  percentBuckets (approxBase ps)
  = map (fun p => (pos_asset p, pos_percent p)) ps.
Proof.
  intros (Hnd & Hall & _). unfold approxBase.
  assert (H : forall acc,
    NoDup (JsObj.keys acc ++ map pos_asset ps) ->
    percentBuckets
      (fold_left
         (fun base p =>
            let a := toUpperCase (pos_asset p) in
            let pct := Qmaxb 0 (pos_percent p) in
            if String.eqb a "" || Qleb pct 0 then base
            else JsObj.set base a
                   (mkPosition a pct (pos_direction p)
                               (orOne (pos_leverage p))))
         ps acc)
    = percentBuckets acc ++ map (fun p => (pos_asset p, pos_percent p)) ps).
  { clear Hnd. induction Hall as [|p r (Hup & Hne & Hpos) _ IH];
      intros acc Hacc; simpl.
    - now rewrite app_nil_r.
    - rewrite Hup.
      assert (Hmax : Qmaxb 0 (pos_percent p) = pos_percent p).
      { unfold Qmaxb. apply Qlt_le_weak in Hpos. apply Qleb_le in Hpos.
        now rewrite Hpos. }
      rewrite Hmax.
      replace (String.eqb (pos_asset p) "") with false
        by (symmetry; now apply String.eqb_neq).
      replace (Qleb (pos_percent p) 0) with false
        by (symmetry; now apply Qleb_gt).
      cbn [orb].
      assert (Hn : ~ In (pos_asset p) (JsObj.keys acc)).
      { intros Hin. simpl in Hacc. apply NoDup_remove_2 in Hacc.
        apply Hacc. apply in_or_app. now left. }
      rewrite IH.
      + rewrite set_notin by exact Hn. unfold percentBuckets.
        rewrite map_app, <- app_assoc. reflexivity.
      + rewrite set_notin by exact Hn. unfold JsObj.keys.
        rewrite map_app, <- app_assoc. exact Hacc. }
  apply (H []). exact Hnd.
Qed.

Lemma sumBuckets_positions ps :
  sumBuckets (map (fun p => (pos_asset p, pos_percent p)) ps) == sumPercent ps.
Proof.
  induction ps as [|p r IH]; [reflexivity|].
  cbn [map]. now rewrite sumBuckets_cons, sumPercent_cons, IH.
Qed.

(** What the base of normalised positions is, as buckets: valid, positive,
    of total 100. *)
Lemma approxBase_buckets ps :
  normalisedPositions ps ->
  JsObj.wf (percentBuckets (approxBase ps))
  /\ Forall (fun e => 0 < snd e) (percentBuckets (approxBase ps))
  /\ Forall (fun e => toUpperCase (fst e) = fst e)
            (percentBuckets (approxBase ps))
  /\ sumBuckets (percentBuckets (approxBase ps)) == 100.
Proof.
  intros Hn. rewrite (approxBase_normalised ps Hn).
  destruct Hn as (Hnd & Hall & Hsum). repeat split.
  - unfold JsObj.wf, JsObj.keys. rewrite map_map. exact Hnd.
  - apply Forall_map. eapply Forall_impl; [|exact Hall]. now intros p (_ & _ & ?).
  - apply Forall_map. eapply Forall_impl; [|exact Hall]. now intros p (? & _).
  - now rewrite sumBuckets_positions.
Qed.

Lemma Qltb_compat a b c d : a == c -> b == d -> Qltb a b = Qltb c d.
Proof.
  intros H1 H2. destruct (Qltb c d) eqn:E.
  - apply Qltb_lt in E. apply Qltb_lt. now rewrite H1, H2.
  - apply Qltb_ge in E. apply Qltb_ge. now rewrite H1, H2.
Qed.

Lemma Qleb_compat a b c d : a == c -> b == d -> Qleb a b = Qleb c d.
Proof.
  intros H1 H2. destruct (Qleb c d) eqn:E.
  - apply Qleb_le in E. apply Qleb_le. now rewrite H1, H2.
  - apply Qleb_gt in E. apply Qleb_gt. now rewrite H1, H2.
Qed.

(** With every bucket positive, a bucket that holds the whole total is the
    only one. *)
Lemma only_bucket (buckets : Buckets) asset k :
  JsObj.wf buckets -> Forall (fun e => 0 < snd e) buckets ->
  sumBuckets buckets - bucketOr0 buckets asset <= 0 ->
  k <> asset -> JsObj.get buckets k = None.
Proof.
  intros Hwf Hpos Hsum Hne.
  destruct (JsObj.get buckets k) as [v|] eqn:E; [|reflexivity].
  exfalso.
  assert (Hv : 0 < v).
  { apply JsObjFacts.get_In in E. rewrite Forall_forall in Hpos.
    now apply (Hpos (k, v)). }
  assert (Hnn : nonNegative (JsObj.del buckets asset)).
  { apply del_Forall. eapply Forall_impl; [|exact Hpos].
    intros e He. now apply Qlt_le_weak. }
  pose proof (bucketOr0_le_sum (JsObj.del buckets asset) k Hnn) as Hle.
  rewrite sumBuckets_del in Hle by assumption.
  unfold bucketOr0 at 1 in Hle.
  rewrite JsObjFacts.get_del_other, E in Hle by assumption. lra.
Qed.

(** The buckets a signal leaves when the holdings are not a first
    position. *)
Lemma applySignalTargetPct_buckets buckets meta params :
  isSupportedAsset (toUpperCase (p_asset params)) = true ->
  Qleb (sumBuckets buckets) 0 || isBrandNewSeed buckets = false ->
  fst (applySignalTargetPct buckets meta params)
  = let asset := toUpperCase (p_asset params) in
    let total := sumBuckets buckets in
    let desired := clampPct (p_weight_raw params) * total in
    let b1 :=
      if Qltb 0 (total - bucketOr0 buckets asset) then
        scaleOthers asset
          ((total - desired) / (total - bucketOr0 buckets asset)) buckets
      else if Qltb 0 (total - desired) then
        JsObj.set buckets "USD" (bucketOr0 buckets "USD" + (total - desired))
      else buckets in
    if Qleb desired 0 then JsObj.del b1 asset else JsObj.set b1 asset desired.
Proof.
  intros Hsup Hfirst. unfold applySignalTargetPct. cbv zeta.
  rewrite Hsup, Hfirst. cbn [negb].
  repeat match goal with
         | |- context [if ?c then _ else _] => destruct c
         end; reflexivity.
Qed.

Lemma approxAllocation_buckets ps signal :
  let asset := toUpperCase (as_asset signal) in
  let pb := percentBuckets (approxBase ps) in
  let desired := clampPctRaw (as_weightRaw signal) * 100 in
  let b1 :=
    if Qltb 0 (100 - bucketOr0 pb asset) then
      scaleOthers asset ((100 - desired) / (100 - bucketOr0 pb asset)) pb
    else if Qltb 0 (100 - desired) then JsObj.set pb "USD" (100 - desired)
    else pb in
  let b2 :=
    if Qleb desired 0 then JsObj.del b1 asset else JsObj.set b1 asset desired in
  exists base1 base2,
    percentBuckets base2 = b2
    /\ base2
       = (if Qleb desired 0 then JsObj.del base1 asset
          else JsObj.set base1 asset
                 (mkPosition asset desired
                    (approxDirection asset (as_direction signal))
                    (approxLeverage asset (as_leverage signal))))
    /\ approxAllocation ps signal
       = if Qltb 0 (sumPercent (JsObj.values base2))
         then scalePositions (100 / sumPercent (JsObj.values base2)) base2
         else base2.
Proof.
  cbv zeta. unfold approxAllocation. cbv zeta.
  assert (Hcur : match JsObj.get (approxBase ps) (toUpperCase (as_asset signal))
                 with
                 | Some p => pos_percent p
                 | None => 0
                 end
                 = bucketOr0 (percentBuckets (approxBase ps))
                     (toUpperCase (as_asset signal))).
  { unfold bucketOr0. rewrite percentBuckets_get.
    now destruct (JsObj.get (approxBase ps) (toUpperCase (as_asset signal))). }
  rewrite Hcur. eexists. eexists. split; [|split; reflexivity].
  repeat match goal with
         | |- context [if ?c then _ else _] => destruct c
         end;
    rewrite ?percentBuckets_set, ?percentBuckets_del,
      ?percentBuckets_scaleOthers, ?percentBuckets_set; reflexivity.
Qed.

Lemma holdsNonCash_bucket ps :
  normalisedPositions ps -> holdsNonCash ps = true ->
  exists k0 v0,
    k0 <> "USD" /\ JsObj.get (percentBuckets (approxBase ps)) k0 = Some v0.
Proof.
  intros Hn Hnc. pose proof (approxBase_buckets ps Hn) as (Hwf & _).
  rewrite (approxBase_normalised ps Hn) in *.
  unfold holdsNonCash in Hnc. apply existsb_exists in Hnc.
  destruct Hnc as (p & Hin & Hne). apply negb_true_iff in Hne.
  apply String.eqb_neq in Hne.
  exists (pos_asset p), (pos_percent p). split; [assumption|].
  apply JsObjFacts.In_get; [assumption|].
  apply (in_map (fun p => (pos_asset p, pos_percent p)) ps p Hin).
Qed.

Lemma not_first_return ps :
  normalisedPositions ps -> holdsNonCash ps = true ->
  Qleb (sumPercent ps) 0
  || ((List.length ps =? 0)%nat
      || forallb (fun p => String.eqb (toUpperCase (pos_asset p)) "USD"
                           || Qleb (pos_percent p) 0) ps) = false.
Proof.
  intros (_ & Hall & Hsum) Hnc.
  assert (H1 : Qleb (sumPercent ps) 0 = false)
    by (apply Qleb_gt; rewrite Hsum; reflexivity).
  unfold holdsNonCash in Hnc. apply existsb_exists in Hnc.
  destruct Hnc as (p & Hin & Hne).
  assert (H2 : (List.length ps =? 0)%nat = false)
    by (destruct ps; [destruct Hin|reflexivity]).
  assert (H3 : forallb (fun p => String.eqb (toUpperCase (pos_asset p)) "USD"
                                 || Qleb (pos_percent p) 0) ps = false).
  { destruct (forallb _ ps) eqn:E; [|reflexivity].
    rewrite forallb_forall in E. specialize (E p Hin).
    rewrite Forall_forall in Hall. destruct (Hall p Hin) as (Hup & _ & Hpos).
    rewrite Hup in E. apply negb_true_iff in Hne. rewrite Hne in E.
    apply Qleb_gt in Hpos. rewrite Hpos in E. discriminate. }
  now rewrite H1, H2, H3.
Qed.

Lemma sumBuckets_scalePositions c (o : JsObj.t Position) :
  sumBuckets (percentBuckets (scalePositions c o))
  == sumBuckets (percentBuckets o) * c.
Proof.
  induction o as [|[k v] r IH]; [reflexivity|].
  change (percentBuckets (scalePositions c ((k, v) :: r)))
    with ((k, pos_percent v * c) :: percentBuckets (scalePositions c r)).
  change (percentBuckets ((k, v) :: r))
    with ((k, pos_percent v) :: percentBuckets r).
  rewrite !sumBuckets_cons, IH. ring.
Qed.

(** The allocation of normalised positions that hold more than cash: its
    shares before the last scaling add up to 100 already, and none is
    negative. *)
Lemma approxAllocation_total ps signal :
  normalisedPositions ps -> holdsNonCash ps = true ->
  let asset := toUpperCase (as_asset signal) in
  let pb := percentBuckets (approxBase ps) in
  let desired := clampPctRaw (as_weightRaw signal) * 100 in
  let b1 :=
    if Qltb 0 (100 - bucketOr0 pb asset) then
      scaleOthers asset ((100 - desired) / (100 - bucketOr0 pb asset)) pb
    else if Qltb 0 (100 - desired) then JsObj.set pb "USD" (100 - desired)
    else pb in
  let b2 :=
    if Qleb desired 0 then JsObj.del b1 asset else JsObj.set b1 asset desired in
  exists base1 base2,
    percentBuckets base2 = b2
    /\ base2
       = (if Qleb desired 0 then JsObj.del base1 asset
          else JsObj.set base1 asset
                 (mkPosition asset desired
                    (approxDirection asset (as_direction signal))
                    (approxLeverage asset (as_leverage signal))))
    /\ approxAllocation ps signal
       = scalePositions (100 / sumPercent (JsObj.values base2)) base2
    /\ sumPercent (JsObj.values base2) == 100
    /\ nonNegative b2
    /\ (100 - bucketOr0 pb asset <= 0 ->
        asset <> "USD" /\ forall k, k <> asset -> JsObj.get pb k = None).
Proof.
  intros Hn Hnc. cbv zeta.
  destruct (approxBase_buckets ps Hn) as (Hwf & Hpos & Hup & HT).
  destruct (holdsNonCash_bucket ps Hn Hnc) as (k0 & v0 & Hk0 & Hget0).
  destruct (approxAllocation_buckets ps signal)
    as (base1 & base2 & Hb2 & Hform & Halloc).
  cbv zeta in Hb2, Hform.
  pose proof (clampPct_bounds (as_weightRaw signal)) as [Hp0 Hp1].
  change (clampPct (as_weightRaw signal))
    with (clampPctRaw (as_weightRaw signal)) in *.
  set (PB := percentBuckets (approxBase ps)) in *.
  set (asset := toUpperCase (as_asset signal)) in *.
  set (pct := clampPctRaw (as_weightRaw signal)) in *.
  assert (Hnn : nonNegative PB).
  { eapply Forall_impl; [|exact Hpos]. intros e He. now apply Qlt_le_weak. }
  assert (Hvalid : validHoldings PB) by (repeat split; assumption).
  pose proof (bucketOr0_le_sum PB asset Hnn) as Hcur.
  set (T := sumBuckets PB) in *.
  set (cur := bucketOr0 PB asset) in *.
  assert (Honly : 100 - cur <= 0 ->
            asset <> "USD"
            /\ forall k, k <> asset -> JsObj.get PB k = None).
  { intros Hle.
    assert (Hothers : forall k, k <> asset -> JsObj.get PB k = None).
    { intros k Hk. apply (only_bucket PB asset k Hwf Hpos); [|exact Hk].
      fold T cur. rewrite HT. exact Hle. }
    split; [|exact Hothers]. intros Heq.
    rewrite Hothers in Hget0 by congruence. discriminate. }
  assert (Hsum2 : sumPercent (JsObj.values base2) == 100).
  { rewrite percentBuckets_sum, Hb2.
    destruct (Qltb 0 (100 - cur)) eqn:Eo.
    - apply Qltb_lt in Eo.
      assert (Hs : sumBuckets
                     (scaleOthers asset ((100 - pct * 100) / (100 - cur)) PB)
                   == cur + (100 - pct * 100)).
      { rewrite sumBuckets_scaleOthers by assumption. fold T cur.
        rewrite HT. field. lra. }
      destruct (Qleb (pct * 100) 0) eqn:Ed.
      + apply Qleb_le in Ed.
        rewrite sumBuckets_del, bucketOr0_scaleOthers, Hs.
        * fold cur. lra.
        * unfold JsObj.wf. now rewrite keys_scaleOthers.
      + rewrite sumBuckets_set, bucketOr0_scaleOthers, Hs. fold cur. lra.
    - apply Qltb_ge in Eo. destruct (Honly Eo) as [Hne Hothers].
      assert (Husd : bucketOr0 PB "USD" = 0).
      { unfold bucketOr0. rewrite Hothers by congruence. reflexivity. }
      destruct (Qltb 0 (100 - pct * 100)) eqn:Edo.
      + assert (Hcur' : bucketOr0 (JsObj.set PB "USD" (100 - pct * 100)) asset
                        = cur).
        { unfold bucketOr0 at 1. now rewrite JsObjFacts.get_set_other. }
        destruct (Qleb (pct * 100) 0) eqn:Ed.
        * apply Qleb_le in Ed.
          rewrite sumBuckets_del by now apply wf_set.
          rewrite Hcur', sumBuckets_set, Husd. fold T. rewrite HT. lra.
        * rewrite sumBuckets_set, Hcur', sumBuckets_set, Husd. fold T.
          rewrite HT. lra.
      + apply Qltb_ge in Edo.
        destruct (Qleb (pct * 100) 0) eqn:Ed.
        * apply Qleb_le in Ed. lra.
        * rewrite sumBuckets_set. fold T cur. rewrite HT. lra. }
  assert (Hpos2 : Qltb 0 (sumPercent (JsObj.values base2)) = true)
    by (apply Qltb_lt; rewrite Hsum2; reflexivity).
  rewrite Hpos2 in Halloc.
  exists base1, base2. split; [exact Hb2|]. split; [exact Hform|].
  split; [exact Halloc|]. split; [exact Hsum2|]. split; [|exact Honly].
  assert (Hb1 : validHoldings
            (if Qltb 0 (100 - cur)
             then scaleOthers asset ((100 - pct * 100) / (100 - cur)) PB
             else if Qltb 0 (100 - pct * 100)
                  then JsObj.set PB "USD" (100 - pct * 100)
                  else PB)).
  { destruct (Qltb 0 (100 - cur)) eqn:Eo.
    - apply Qltb_lt in Eo. apply validHoldings_scaleOthers; [|exact Hvalid].
      apply Qdiv_nonneg; [|exact Eo]. nra.
    - destruct (Qltb 0 (100 - pct * 100)) eqn:Edo; [|exact Hvalid].
      apply Qltb_lt in Edo.
      apply validHoldings_set; [reflexivity|lra|exact Hvalid]. }
  destruct (Qleb (pct * 100) 0) eqn:Ed.
  - now apply validHoldings_del.
  - apply Qleb_gt in Ed.
    apply validHoldings_set; [apply toUpperCase_idem|lra|exact Hb1].
Qed.

(** X21: The approximate snapshot shows what the replay will compute. For
    normalised base positions that hold some asset besides cash, and a
    signal for a supported asset, the allocation [computeApproxSnapshot]
    rounds and sorts is, asset by asset, the one [applySignalTargetPct] gives
    on the same holdings in percent; in particular the shares add up to
    100. *)
Theorem approx_snapshot_agrees_with_replay
  (ps : list Position) (signal : ApproxSignal) (meta : Metas) :
  normalisedPositions ps ->
  holdsNonCash ps = true ->
  isSupportedAsset (toUpperCase (as_asset signal)) = true ->
  computeApproxSnapshot ps signal
  = sortDesc
      (map (fun p => mkPosition (pos_asset p) (round6 (pos_percent p))
                                (pos_direction p) (pos_leverage p))
           (filter (fun p => Qltb 0 (pos_percent p))
                   (JsObj.values (approxAllocation ps signal))))
  /\ (forall k,
        optQeq
          (option_map pos_percent (JsObj.get (approxAllocation ps signal) k))
          (JsObj.get
             (fst (applySignalTargetPct (percentBuckets (approxBase ps)) meta
                     (mkSignalParams (as_asset signal) (as_direction signal)
                        (as_leverage signal) (as_weightRaw signal)))) k))
  /\ sumPercent (JsObj.values (approxAllocation ps signal)) == 100.
Proof.
  intros Hn Hnc Hsup.
  split.
  { unfold computeApproxSnapshot. cbv zeta.
    now rewrite (not_first_return ps Hn Hnc). }
  destruct (approxBase_buckets ps Hn) as (Hwf & Hpos & Hup & HT).
  destruct (holdsNonCash_bucket ps Hn Hnc) as (k0 & v0 & Hk0 & Hget0).
  destruct (approxAllocation_total ps signal Hn Hnc)
    as (base1 & base2 & Hb2 & _ & Halloc & Hsum2 & _ & Honly).
  cbv zeta in Hb2, Honly.
  rewrite applySignalTargetPct_buckets; [|exact Hsup|].
  2:{ cbn [p_asset]. apply orb_false_iff. split.
      - apply Qleb_gt. rewrite HT. reflexivity.
      - unfold isBrandNewSeed.
        assert (Hexp : hasNonUsdExposure (percentBuckets (approxBase ps)) = true).
        { unfold hasNonUsdExposure. apply existsb_exists.
          exists (k0, v0). split; [now apply JsObjFacts.get_In|].
          cbn [fst snd]. rewrite Forall_forall in Hup, Hpos.
          apply JsObjFacts.get_In in Hget0.
          pose proof (Hup _ Hget0) as Hu. pose proof (Hpos _ Hget0) as Hp.
          cbn [fst snd] in Hu, Hp.
          unfold isUsdAsset. rewrite Hu.
          replace (String.eqb k0 "USD") with false
            by (symmetry; now apply String.eqb_neq).
          apply Qltb_lt in Hp. now rewrite Hp. }
        rewrite Hexp. now rewrite andb_false_r. }
  cbv zeta. cbn [p_asset p_weight_raw].
  change (clampPct (as_weightRaw signal))
    with (clampPctRaw (as_weightRaw signal)) in *.
  set (PB := percentBuckets (approxBase ps)) in *.
  set (asset := toUpperCase (as_asset signal)) in *.
  set (pct := clampPctRaw (as_weightRaw signal)) in *.
  set (T := sumBuckets PB) in *.
  set (cur := bucketOr0 PB asset) in *.
  (* the engine's tests, read at the total 100 *)
  rewrite (Qltb_compat 0 (T - cur) 0 (100 - cur)) by (rewrite ?HT; reflexivity).
  rewrite (Qltb_compat 0 (T - pct * T) 0 (100 - pct * 100))
    by (rewrite ?HT; reflexivity).
  rewrite (Qleb_compat (pct * T) 0 (pct * 100) 0) by (rewrite ?HT; reflexivity).
  rewrite Halloc.
  set (S := sumPercent (JsObj.values base2)) in *.
  split.
  - intros k.
    rewrite <- percentBuckets_get, percentBuckets_scaleAll, Hb2.
    destruct (Qltb 0 (100 - cur)) eqn:Eo.
    + apply Qltb_lt in Eo.
      destruct (Qleb (pct * 100) 0) eqn:Ed.
      * rewrite !get_del, !get_scaleOthers.
        destruct (String.eqb k asset); [exact I|].
        destruct (JsObj.get PB k) as [v|]; [|exact I].
        cbn [option_map optQeq]. rewrite Hsum2, HT. field. lra.
      * rewrite !get_set, !get_scaleOthers.
        destruct (String.eqb k asset).
        -- cbn [option_map optQeq]. rewrite Hsum2, HT. field.
        -- destruct (JsObj.get PB k) as [v|]; [|exact I].
           cbn [option_map optQeq]. rewrite Hsum2, HT. field. lra.
    + apply Qltb_ge in Eo. destruct (Honly Eo) as [Hne Hothers].
      assert (Husd : bucketOr0 PB "USD" = 0).
      { unfold bucketOr0. rewrite Hothers by congruence. reflexivity. }
      rewrite Husd.
      destruct (Qltb 0 (100 - pct * 100)) eqn:Edo;
        destruct (Qleb (pct * 100) 0) eqn:Ed;
        rewrite ?get_del, ?get_set;
        destruct (String.eqb k asset) eqn:Eka; try exact I;
        try (cbn [option_map optQeq]; rewrite Hsum2, HT; field);
        apply String.eqb_neq in Eka; rewrite ?(Hothers k Eka);
        destruct (String.eqb k "USD"); try exact I;
        cbn [option_map optQeq]; rewrite Hsum2, HT; field.
  - rewrite percentBuckets_sum, sumBuckets_scalePositions,
      <- percentBuckets_sum.
    fold S. rewrite Hsum2. reflexivity.
Qed.

Lemma round6_compat x y : x == y -> round6 x = round6 y.
Proof.
  intros H. unfold round6.
  assert (Hf : Qfloor (x * 1000000 + (1 # 2)) = Qfloor (y * 1000000 + (1 # 2)))
    by (apply Qfloor_comp; now rewrite H).
  now rewrite Hf.
Qed.

Lemma sumPercent_filter_positive (l : list Position) :
  Forall (fun p => 0 <= pos_percent p) l ->
  sumPercent (filter (fun p => Qltb 0 (pos_percent p)) l) == sumPercent l.
Proof.
  induction 1 as [|p r Hp _ IH]; [reflexivity|]. simpl.
  destruct (Qltb 0 (pos_percent p)) eqn:E.
  - now rewrite !sumPercent_cons, IH.
  - apply Qltb_ge in E. rewrite sumPercent_cons, IH. lra.
Qed.

Lemma sumPercent_round_close (l : list Position) :
  Qabs (sumPercent
          (map (fun p => mkPosition (pos_asset p) (round6 (pos_percent p))
                                    (pos_direction p) (pos_leverage p)) l)
        - sumPercent l)
  <= inject_Z (Z.of_nat (List.length l)) / 2000000.
Proof.
  induction l as [|p r IH].
  - cbn. discriminate.
  - cbn [map List.length]. rewrite !sumPercent_cons. cbn [pos_percent].
    rewrite Nat2Z.inj_succ. unfold Z.succ. rewrite inject_Z_plus.
    setoid_replace (round6 (pos_percent p)
                    + sumPercent
                        (map (fun p0 =>
                                mkPosition (pos_asset p0)
                                  (round6 (pos_percent p0))
                                  (pos_direction p0) (pos_leverage p0)) r)
                    - (pos_percent p + sumPercent r))
      with ((round6 (pos_percent p) - pos_percent p)
            + (sumPercent
                 (map (fun p0 =>
                         mkPosition (pos_asset p0) (round6 (pos_percent p0))
                                    (pos_direction p0) (pos_leverage p0)) r)
               - sumPercent r)) by ring.
    eapply Qle_trans; [apply Qabs_triangle|].
    pose proof (round6_close (pos_percent p)) as Hp.
    setoid_replace ((inject_Z (Z.of_nat (List.length r)) + inject_Z 1) / 2000000)
      with ((1 # 2000000) + inject_Z (Z.of_nat (List.length r)) / 2000000)
      by (change (inject_Z 1) with 1; field).
    now apply Qplus_le_compat.
Qed.

Lemma values_scalePositions c (o : JsObj.t Position) p k :
  In (k, p) o ->
  In (mkPosition (pos_asset p) (pos_percent p * c) (pos_direction p)
                 (pos_leverage p))
     (JsObj.values (scalePositions c o)).
Proof.
  intros Hin. unfold JsObj.values, scalePositions. rewrite map_map.
  apply in_map_iff. exists (k, p). split; [reflexivity|assumption].
Qed.

(** X22: What the approximate snapshot shows. For normalised base positions
    that hold some asset besides cash, the positions come in descending
    order of share, each share a whole number of millionths, the shares add
    up to 100 within half a millionth per position, and a signal whose weight
    clamps above zero shows its asset at exactly that weight, with the
    signal's direction and clamped leverage. *)
Theorem approx_snapshot_shows_target_and_total
  (ps : list Position) (signal : ApproxSignal) :
  normalisedPositions ps ->
  holdsNonCash ps = true ->
  StronglySorted (fun a b => pos_percent b <= pos_percent a)
                 (computeApproxSnapshot ps signal)
  /\ Forall (fun p => exists z, (0 <= z)%Z
                                /\ pos_percent p = inject_Z z / 1000000)
            (computeApproxSnapshot ps signal)
  /\ Qabs (sumPercent (computeApproxSnapshot ps signal) - 100)
     <= inject_Z (Z.of_nat (List.length (computeApproxSnapshot ps signal)))
        / 2000000
  /\ (0 < clampPctRaw (as_weightRaw signal) ->
      exists p,
        In p (computeApproxSnapshot ps signal)
        /\ pos_asset p = toUpperCase (as_asset signal)
        /\ pos_percent p == clampPctRaw (as_weightRaw signal) * 100
        /\ pos_direction p
           = approxDirection (toUpperCase (as_asset signal))
                             (as_direction signal)
        /\ pos_leverage p
           = approxLeverage (toUpperCase (as_asset signal))
                            (as_leverage signal)).
Proof.
  intros Hn Hnc.
  assert (Hout : computeApproxSnapshot ps signal
                 = sortDesc
                     (map (fun p => mkPosition (pos_asset p)
                                      (round6 (pos_percent p))
                                      (pos_direction p) (pos_leverage p))
                          (filter (fun p => Qltb 0 (pos_percent p))
                             (JsObj.values (approxAllocation ps signal))))).
  { unfold computeApproxSnapshot. cbv zeta.
    now rewrite (not_first_return ps Hn Hnc). }
  rewrite Hout.
  set (kept := filter (fun p => Qltb 0 (pos_percent p))
                 (JsObj.values (approxAllocation ps signal))).
  set (rounded := map (fun p => mkPosition (pos_asset p)
                                  (round6 (pos_percent p))
                                  (pos_direction p) (pos_leverage p)) kept).
  destruct (sortDesc_spec rounded) as [Hsorted Hperm].
  destruct (approxAllocation_total ps signal Hn Hnc)
    as (base1 & base2 & Hb2 & Hform & Halloc & Hsum2 & Hnn2 & _).
  cbv zeta in Hb2, Hform, Hnn2.
  set (S := sumPercent (JsObj.values base2)) in *.
  assert (Hk : 100 / S == 1) by (rewrite Hsum2; reflexivity).
  assert (Hnonneg : Forall (fun p => 0 <= pos_percent p)
                      (JsObj.values (approxAllocation ps signal))).
  { rewrite Halloc. unfold JsObj.values, scalePositions. rewrite map_map.
    apply Forall_map. cbn [snd pos_percent].
    rewrite <- Hb2 in Hnn2. unfold nonNegative, percentBuckets in Hnn2.
    rewrite Forall_map in Hnn2.
    eapply Forall_impl; [|exact Hnn2]. intros e He. cbn [snd] in He.
    rewrite Hk. lra. }
  split; [exact Hsorted|]. split; [|split].
  - apply Forall_forall. intros p Hp.
    apply (Permutation_in _ Hperm) in Hp. subst rounded.
    apply in_map_iff in Hp. destruct Hp as (q & <- & Hq). cbn [pos_percent].
    apply round6_grid. subst kept. apply filter_In in Hq.
    destruct Hq as [_ Hq]. apply Qltb_lt in Hq. now apply Qlt_le_weak.
  - rewrite (sumPercent_perm _ _ Hperm), (Permutation_length Hperm).
    assert (Hkept : sumPercent kept == 100).
    { subst kept. rewrite sumPercent_filter_positive by exact Hnonneg.
      rewrite Halloc, percentBuckets_sum, sumBuckets_scalePositions,
        <- percentBuckets_sum.
      fold S. rewrite Hsum2. reflexivity. }
    rewrite <- Hkept. subst rounded. rewrite length_map.
    apply sumPercent_round_close.
  - intros Hpct.
    set (asset := toUpperCase (as_asset signal)) in *.
    set (d := clampPctRaw (as_weightRaw signal) * 100) in *.
    assert (Hd : 0 < d) by (subst d; lra).
    replace (Qleb d 0) with false in Hform
      by (symmetry; now apply Qleb_gt).
    set (pos := mkPosition asset d
                  (approxDirection asset (as_direction signal))
                  (approxLeverage asset (as_leverage signal))) in *.
    assert (Hin2 : In (asset, pos) base2).
    { apply JsObjFacts.get_In. rewrite Hform.
      apply JsObjFacts.get_set_same. }
    pose proof (values_scalePositions (100 / S) base2 pos asset Hin2) as Hin3.
    rewrite <- Halloc in Hin3. cbn [pos pos_asset pos_percent pos_direction
                                   pos_leverage] in Hin3.
    assert (Hdk : d * (100 / S) == d) by (rewrite Hk; ring).
    exists (mkPosition asset (round6 (d * (100 / S)))
              (approxDirection asset (as_direction signal))
              (approxLeverage asset (as_leverage signal))).
    split; [|split; [reflexivity|split; [|split; reflexivity]]].
    + apply (Permutation_in _ (Permutation_sym Hperm)). subst rounded.
      apply in_map_iff.
      exists (mkPosition asset (d * (100 / S))
                (approxDirection asset (as_direction signal))
                (approxLeverage asset (as_leverage signal))).
      split; [reflexivity|]. subst kept. apply filter_In.
      split; [exact Hin3|]. cbn [pos_percent]. apply Qltb_lt.
      rewrite Hdk. exact Hd.
    + cbn [pos_percent]. rewrite (round6_compat _ _ Hdk).
      subst d. unfold clampPctRaw. cbv zeta.
      set (m := Z.max 0 (Z.min 100 (Qfloor (as_weightRaw signal)))).
      assert (Hm : inject_Z m / 100 * 100 == inject_Z m) by field.
      rewrite (round6_compat _ _ Hm), Hm. apply round6_whole.
Qed.

Lemma approx_snapshot_shows_target_and_total_witness :
  StronglySorted (fun a b => pos_percent b <= pos_percent a)
    (computeApproxSnapshot
       [mkPosition "BTC" 60 "LONG" 2; mkPosition "USD" 40 "CASH" 1]
       (mkApproxSignal "eth" 1 (7 # 2) (61 # 2))).
Proof.
  assert (Hn : normalisedPositions
                 [mkPosition "BTC" 60 "LONG" 2; mkPosition "USD" 40 "CASH" 1]).
  { split; [|split].
    - repeat constructor; simpl; intuition discriminate.
    - repeat constructor; simpl; discriminate.
    - reflexivity. }
  assert (Hnc : holdsNonCash
                  [mkPosition "BTC" 60 "LONG" 2; mkPosition "USD" 40 "CASH" 1]
                = true) by reflexivity.
  exact (proj1 (approx_snapshot_shows_target_and_total
                  [mkPosition "BTC" 60 "LONG" 2; mkPosition "USD" 40 "CASH" 1]
                  (mkApproxSignal "eth" 1 (7 # 2) (61 # 2)) Hn Hnc)).
Defined.

Lemma approx_snapshot_agrees_with_replay_witness :
  sumPercent
    (JsObj.values
       (approxAllocation
          [mkPosition "BTC" 60 "LONG" 2; mkPosition "USD" 40 "CASH" 1]
          (mkApproxSignal "eth" 1 (7 # 2) (61 # 2)))) == 100.
Proof.
  assert (Hn : normalisedPositions
                 [mkPosition "BTC" 60 "LONG" 2; mkPosition "USD" 40 "CASH" 1]).
  { split; [|split].
    - repeat constructor; simpl; intuition discriminate.
    - repeat constructor; simpl; discriminate.
    - reflexivity. }
  assert (Hnc : holdsNonCash
                  [mkPosition "BTC" 60 "LONG" 2; mkPosition "USD" 40 "CASH" 1]
                = true) by reflexivity.
  assert (Hsup : isSupportedAsset
                   (toUpperCase
                      (as_asset (mkApproxSignal "eth" 1 (7 # 2) (61 # 2))))
                 = true) by reflexivity.
  exact (proj2 (proj2 (approx_snapshot_agrees_with_replay
                  [mkPosition "BTC" 60 "LONG" 2; mkPosition "USD" 40 "CASH" 1]
                  (mkApproxSignal "eth" 1 (7 # 2) (61 # 2)) [] Hn Hnc Hsup))).
Defined.
